(** * The filter core of the tracer: number sets, set parsers, injection
      options and the action table.

    A shallow embedding of [basic_filters.c], [filter_qualify.c] and
    [filter_action.c].  C integers are values of [Z]; a process that calls
    [error_msg_and_die] has no result, which is [None]. *)

From Stdlib Require Import ZArith List Bool String Ascii Lia Permutation Sorted.
Import ListNotations.
Local Open Scope string_scope.
Local Open Scope list_scope.
Local Open Scope Z_scope.

(** ** Machine integers *)

(** The value of an [unsigned int] after conversion from a wider or signed
    integer. *)
Definition to_uint (x : Z) : Z := x mod 2 ^ 32.

(** The value of an [int] after conversion from a wider or unsigned
    integer (two's complement). *)
Definition to_int (x : Z) : Z := (x + 2 ^ 31) mod 2 ^ 32 - 2 ^ 31.

Definition INT_MAX : Z := 2 ^ 31 - 1.

(** ** basic_filters.c: number sets *)

Definition number_slot_t : Type := Z.

Definition BITS_PER_SLOT : Z := 32.

(** [struct number_set].  [vec] holds the allocated slots; [nslots] is the
    number of them the structure records. *)
Record number_set : Type := mk_number_set {
  vec : list number_slot_t;
  nslots : Z;
  not : bool
}.

(** The representation invariant every constructor of a set maintains:
    exactly [nslots] slots are allocated. *)
Definition number_set_wf (s : number_set) : Prop :=
  nslots s = Z.of_nat (List.length (vec s)).

(** A zero-initialised set, as [xcalloc] or static storage gives it. *)
Definition empty_number_set : number_set :=
  {| vec := []; nslots := 0; not := false |}.

(** [vec[i] = f (vec[i])].  A slot outside the allocation is not written
    (the C code never does it: every caller grows the vector first). *)
Fixpoint update_slot (i : nat) (f : number_slot_t -> number_slot_t)
    (v : list number_slot_t) {struct v} : list number_slot_t :=
  match v, i with
  | [], _ => []
  | w :: v', O => f w :: v'
  | w :: v', S i' => w :: update_slot i' f v'
  end.

Definition number_setbit (i : Z) (v : list number_slot_t)
    : list number_slot_t :=
  update_slot (Z.to_nat (i / BITS_PER_SLOT))
    (fun w => Z.lor w (Z.shiftl 1 (i mod BITS_PER_SLOT))) v.

Definition number_isset (i : Z) (v : list number_slot_t) : bool :=
  negb (Z.land (nth (Z.to_nat (i / BITS_PER_SLOT)) v 0)
               (Z.shiftl 1 (i mod BITS_PER_SLOT)) =? 0).

Definition reallocate_number_set (set : number_set) (new_nslots : Z)
    : number_set :=
  if new_nslots <=? nslots set then set
  else {| vec := vec set ++ repeat 0 (Z.to_nat (new_nslots - nslots set));
          nslots := new_nslots;
          not := not set |}.

Definition add_number_to_set (number : Z) (set : number_set) : number_set :=
  let set1 := reallocate_number_set set (number / BITS_PER_SLOT + 1) in
  {| vec := number_setbit number (vec set1);
     nslots := nslots set1;
     not := not set1 |}.

Definition is_number_in_set (number : Z) (set : number_set) : bool :=
  xorb ((number / BITS_PER_SLOT <? nslots set)
        && number_isset number (vec set))
       (not set).

(** What the documentation of a number set calls "within range" and
    "bit set". *)
Definition slot_in_range (n : Z) (s : number_set) : bool :=
  n / BITS_PER_SLOT <? nslots s.

Definition bit_is_set (n : Z) (s : number_set) : bool :=
  Z.testbit (nth (Z.to_nat (n / BITS_PER_SLOT)) (vec s) 0)
            (n mod BITS_PER_SLOT).

(** ** libc strings *)

(** [strchr(delim, c) != NULL] for a character [c] other than NUL. *)
Fixpoint strchr (delim : string) (c : ascii) : bool :=
  match delim with
  | EmptyString => false
  | String d delim' => Ascii.eqb d c || strchr delim' c
  end.

(** The fields of [s] between delimiter characters: the first one, and the
    others in order.  A field can be empty. *)
Fixpoint split_fields (delim s : string) : string * list string :=
  match s with
  | EmptyString => (EmptyString, [])
  | String c s' =>
      let (f, fs) := split_fields delim s' in
      if strchr delim c then (EmptyString, f :: fs) else (String c f, fs)
  end.

Definition nonempty (s : string) : bool :=
  match s with EmptyString => false | String _ _ => true end.

(** The tokens that [strtok_r(s, delim, &saveptr)] and then
    [strtok_r(NULL, delim, &saveptr)] return until the call that returns
    NULL: [strtok_r] skips every run of delimiters, so these are the
    non-empty fields. *)
Definition strtok_r_tokens (s delim : string) : list string :=
  let (f, fs) := split_fields delim s in filter nonempty (f :: fs).

Definition tolower (c : ascii) : ascii :=
  let n := N_of_ascii c in
  if ((65 <=? n) && (n <=? 90))%N then ascii_of_N (n + 32) else c.

Fixpoint string_tolower (s : string) : string :=
  match s with
  | EmptyString => EmptyString
  | String c s' => String (tolower c) (string_tolower s')
  end.

Fixpoint string_take (n : nat) (s : string) : string :=
  match n, s with
  | S n', String c s' => String c (string_take n' s')
  | _, _ => EmptyString
  end.

Fixpoint string_drop (n : nat) (s : string) : string :=
  match n, s with
  | S n', String _ s' => string_drop n' s'
  | _, _ => s
  end.

(** [strcasecmp(a, b) == 0] *)
Definition strcasecmp_eq (a b : string) : bool :=
  String.eqb (string_tolower a) (string_tolower b).

(** [strncasecmp(a, b, n) == 0] *)
Definition strncasecmp_eq (a b : string) (n : nat) : bool :=
  strcasecmp_eq (string_take n a) (string_take n b).

(** Modelled from the spec: the macro [STR_STRIP_PREFIX] of defs.h is not
    among the sources; the grammar gives tokens as a literal keyword
    followed by the value.  The result is the text after [prefix] when
    [str] starts with it; [None] stands for the macro returning [str]
    itself, which is what the callers test for. *)
Fixpoint STR_STRIP_PREFIX (str prefix : string) {struct prefix}
    : option string :=
  match prefix, str with
  | EmptyString, _ => Some str
  | String p prefix', String c str' =>
      if Ascii.eqb p c then STR_STRIP_PREFIX str' prefix' else None
  | String _ _, EmptyString => None
  end.

(** ** Integer parsers *)

Definition is_digit (c : ascii) : bool :=
  let n := N_of_ascii c in ((48 <=? n) && (n <=? 57))%N.

Definition digit_value (c : ascii) : Z := Z.of_N (N_of_ascii c) - 48.

(** [*s >= '0' && *s <= '9'] *)
Definition starts_with_digit (s : string) : bool :=
  match s with
  | String c _ => is_digit c
  | EmptyString => false
  end.

(** The value of the leading decimal digits of [s], continuing [acc], and
    the text after them. *)
Fixpoint scan_digits (acc : Z) (s : string) : Z * string :=
  match s with
  | String c s' =>
      if is_digit c then scan_digits (10 * acc + digit_value c) s'
      else (acc, s)
  | EmptyString => (acc, EmptyString)
  end.

(** Modelled from the spec: the integer parsers [string_to_uint_ex],
    [string_to_uint_upto] and [string_to_uint] are provided by the
    environment.  [string_to_uint_ex(str, &end, max, allowed_tail_chars)]
    reads an unsigned decimal integer (the grammar's UINT) of value at
    most [max_val], which the end of the string or one of the allowed tail
    characters must follow; it returns the value and sets [end] to the
    text after the digits, or returns [-1]. *)
Definition string_to_uint_ex (str : string) (max_val : Z)
    (accepted_ending : string) : Z * string :=
  match str with
  | EmptyString => (-1, str)
  | String c _ =>
      if is_digit c then
        let (val, end_) := scan_digits 0 str in
        if max_val <? val then (-1, str)
        else match end_ with
             | EmptyString => (val, end_)
             | String e _ =>
                 if strchr accepted_ending e then (val, end_) else (-1, str)
             end
      else (-1, str)
  end.

(** Modelled from the spec: [string_to_uint_upto(str, max)], the parser
    above with no allowed tail character. *)
Definition string_to_uint_upto (str : string) (max_val : Z) : Z :=
  fst (string_to_uint_ex str max_val EmptyString).

(** Modelled from the spec: [string_to_uint(str)], an unsigned decimal
    integer that fits an [int]. *)
Definition string_to_uint (str : string) : Z :=
  string_to_uint_upto str INT_MAX.

(** ** basic_filters.c: the generic set parser and the fd filter *)

(** [set->not = !set->not] *)
Definition invert_set (s : number_set) : number_set :=
  {| vec := vec s; nslots := nslots s; not := negb (not s) |}.

(** The loop [while ( *s == '!') { set->not = !set->not; ++s; }]: the text
    left and the set. *)
Fixpoint skip_inversions (s : string) (set : number_set)
    : string * number_set :=
  match s with
  | String "!" s' => skip_inversions s' (invert_set set)
  | _ => (s, set)
  end.

(** The token loop of [parse_set].  [number] is the last value [func]
    returned, [-1] before the first token. *)
Fixpoint parse_set_tokens (func : string -> Z) (tokens : list string)
    (number : Z) (set : number_set) : option (Z * number_set) :=
  match tokens with
  | [] => Some (number, set)
  | token :: tokens' =>
      let number := func token in
      if number <? 0 then None
      else parse_set_tokens func tokens' number (add_number_to_set number set)
  end.

(** [parse_set(str, set, func, name, qualify_mode)]; [name] only words the
    diagnostic. *)
Definition parse_set (str : string) (set : number_set)
    (func : string -> Z) (qualify_mode : bool) : option number_set :=
  let (s, set) := if qualify_mode then skip_inversions str set
                  else (str, set) in
  if String.eqb s "none" then Some set
  else if String.eqb s "all" then Some (invert_set set)
  else
    match parse_set_tokens func (strtok_r_tokens s ",") (-1) set with
    | None => None
    | Some (number, set) => if number <? 0 then None else Some set
    end.

Definition parse_fd_filter (str : string) (qualify_mode : bool)
    : option number_set :=
  parse_set str empty_number_set string_to_uint qualify_mode.

(** Modelled from the spec: the semantic tags of sen.h are not among the
    sources; the two the fd filter names, and the others by number. *)
Inductive sen_t : Type :=
  | SEN_mq_timedsend
  | SEN_mq_timedreceive
  | SEN_other (n : nat).

(** Modelled from the spec: the per-event view of [struct tcb]:
    [event.syscall_number], [event.syscall_entry.sen] and [event.args[]]
    ([kernel_ulong_t] values). *)
Record tcb : Type := mk_tcb {
  scno : Z;
  sen : sen_t;
  u_arg : list Z
}.

Definition is_fd_in_set (tcp : tcb) (fd : Z) (set : number_set) : bool :=
  if fd <? 0 then not set else is_number_in_set (to_uint fd) set.

(** [run_fd_filter]; [match_fd_common] is the external helper that walks
    the descriptor arguments of an event. *)
Definition run_fd_filter
    (match_fd_common :
       tcb -> (tcb -> Z -> number_set -> bool) -> number_set -> bool)
    (tcp : tcb) (set : number_set) : bool :=
  match sen tcp with
  | SEN_mq_timedsend | SEN_mq_timedreceive =>
      is_fd_in_set tcp (to_int (nth 0 (u_arg tcp) 0)) set
  | SEN_other _ => match_fd_common tcp is_fd_in_set set
  end.

(** ** basic_filters.c: the syscall set parser *)

(** Modelled from the spec: an entry of the system-call table,
    [sysent[personality][i] = {name?: string, flags: u32}]. *)
Record struct_sysent : Type := mk_sysent {
  sys_name : option string;
  sys_flags : Z
}.

(** Modelled from the spec: the class bits of the flag word; their values
    are given by the system-call table module. *)
Record trace_flags : Type := mk_trace_flags {
  TRACE_DESC : Z; TRACE_FILE : Z; TRACE_MEMORY : Z; TRACE_PROCESS : Z;
  TRACE_SIGNAL : Z; TRACE_IPC : Z; TRACE_NETWORK : Z;
  TRACE_STAT : Z; TRACE_LSTAT : Z; TRACE_FSTAT : Z; TRACE_STAT_LIKE : Z;
  TRACE_STATFS : Z; TRACE_FSTATFS : Z; TRACE_STATFS_LIKE : Z
}.

(** What [regexec] returns: 0, [REG_NOMATCH], or another error code. *)
Inductive regexec_rc : Type := REG_MATCHED | REG_NOMATCH | REG_FAILED.

(** [!set[p].not] for every personality. *)
Definition invert_sets (set : list number_set) : list number_set :=
  map invert_set set.

(** The loop [while ( *s == '!') { for (p ...) set[p].not = !set[p].not;
    ++s; }] of [parse_syscall_set]. *)
Fixpoint skip_inversions_sets (s : string) (set : list number_set)
    : string * list number_set :=
  match s with
  | String "!" s' => skip_inversions_sets s' (invert_sets set)
  | _ => (s, set)
  end.

(** The loop [while ( *token == '?') { token++; ignore_fail = true; }]. *)
Fixpoint skip_question_marks (token : string) (ignore_fail : bool)
    : string * bool :=
  match token with
  | String "?" token' => skip_question_marks token' true
  | _ => (token, ignore_fail)
  end.

(** [for (i = ...; i < nsyscall_vec[p]; ++i)] over the entries [ents] of
    one personality from index [i] on: an entry that [sel] selects is added
    to the set and sets the flag; [sel] returning [None] is a fatal
    error. *)
Fixpoint for_each_syscall (sel : struct_sysent -> option bool) (i : Z)
    (ents : list struct_sysent) (s : number_set) (found : bool)
    : option (number_set * bool) :=
  match ents with
  | [] => Some (s, found)
  | e :: ents' =>
      match sel e with
      | None => None
      | Some true =>
          for_each_syscall sel (i + 1) ents' (add_number_to_set i s) true
      | Some false => for_each_syscall sel (i + 1) ents' s found
      end
  end.

(** [for (p = ...; p < SUPPORTED_PERSONALITIES; ++p)] over the sets
    [set[p]], [set[p + 1]], ... of the array. *)
Fixpoint for_each_personality
    (body : nat -> number_set -> bool -> option (number_set * bool))
    (p : nat) (set : list number_set) (flag : bool)
    : option (list number_set * bool) :=
  match set with
  | [] => Some ([], flag)
  | s :: set' =>
      match body p s flag with
      | None => None
      | Some (s', flag') =>
          match for_each_personality body (S p) set' flag' with
          | None => None
          | Some (r, flag'') => Some (s' :: r, flag'')
          end
      end
  end.

Section SyscallSetParser.

(** The system-call tables of the personalities, the class bits and the
    regular-expression library. *)
Variable sysent_vec : list (list struct_sysent).
Variable tf : trace_flags.
Variable regcomp : string -> option (string -> regexec_rc).

Definition SUPPORTED_PERSONALITIES : nat := List.length sysent_vec.

Definition nsyscall_vec (p : nat) : Z :=
  Z.of_nat (List.length (nth p sysent_vec [])).

Definition parse_syscall_number (s : string) (set : list number_set)
    : option (list number_set * bool) :=
  let n := string_to_uint s in
  if n <? 0 then Some (set, false)
  else
    for_each_personality
      (fun p sp done =>
         if to_uint n >=? nsyscall_vec p then Some (sp, done)
         else Some (add_number_to_set (to_uint n) sp, true))
      O set false.

(** [regcomp] failing, and [regexec] failing on a name, end in
    [regerror_msg_and_die]. *)
Definition parse_syscall_regex (s : string) (set : list number_set)
    : option (list number_set * bool) :=
  match regcomp s with
  | None => None
  | Some preg =>
      for_each_personality
        (fun p sp found =>
           for_each_syscall
             (fun e =>
                match sys_name e with
                | None => Some false
                | Some nm =>
                    match preg nm with
                    | REG_NOMATCH => Some false
                    | REG_FAILED => None
                    | REG_MATCHED => Some true
                    end
                end)
             0 (nth p sysent_vec []) sp found)
        O set false
  end.

Definition syscall_class : list (string * Z) :=
  [ ("desc", TRACE_DESC tf);
    ("file", TRACE_FILE tf);
    ("memory", TRACE_MEMORY tf);
    ("process", TRACE_PROCESS tf);
    ("signal", TRACE_SIGNAL tf);
    ("ipc", TRACE_IPC tf);
    ("network", TRACE_NETWORK tf);
    ("%desc", TRACE_DESC tf);
    ("%file", TRACE_FILE tf);
    ("%memory", TRACE_MEMORY tf);
    ("%process", TRACE_PROCESS tf);
    ("%signal", TRACE_SIGNAL tf);
    ("%ipc", TRACE_IPC tf);
    ("%network", TRACE_NETWORK tf);
    ("%stat", TRACE_STAT tf);
    ("%lstat", TRACE_LSTAT tf);
    ("%fstat", TRACE_FSTAT tf);
    ("%%stat", TRACE_STAT_LIKE tf);
    ("%statfs", TRACE_STATFS tf);
    ("%fstatfs", TRACE_FSTATFS tf);
    ("%%statfs", TRACE_STATFS_LIKE tf) ].

Definition starts_with_percent (s : string) : bool :=
  match s with
  | String "%" _ => true
  | _ => false
  end.

Fixpoint lookup_class_from (table : list (string * Z)) (s : string)
    (qualify_mode : bool) : Z :=
  match table with
  | [] => 0
  | (name, value) :: table' =>
      if negb qualify_mode && negb (starts_with_percent s)
      then lookup_class_from table' s qualify_mode
      else if String.eqb s name then value
      else lookup_class_from table' s qualify_mode
  end.

Definition lookup_class (s : string) (qualify_mode : bool) : Z :=
  lookup_class_from syscall_class s qualify_mode.

Definition parse_syscall_class (s : string) (set : list number_set)
    (qualify_mode : bool) : option (list number_set * bool) :=
  let n := lookup_class s qualify_mode in
  if n =? 0 then Some (set, false)
  else
    match
      for_each_personality
        (fun p sp flag =>
           for_each_syscall
             (fun e =>
                match sys_name e with
                | None => Some false
                | Some _ => Some (Z.land (sys_flags e) n =? n)
                end)
             0 (nth p sysent_vec []) sp flag)
        O set false
    with
    | None => None
    | Some (set', _) => Some (set', true)
    end.

Definition parse_syscall_name (s : string) (set : list number_set)
    : option (list number_set * bool) :=
  for_each_personality
    (fun p sp found =>
       for_each_syscall
         (fun e =>
            match sys_name e with
            | None => Some false
            | Some nm => Some (String.eqb s nm)
            end)
         0 (nth p sysent_vec []) sp found)
    O set false.

(** [a || ignore_fail], where [a] may have ended the process. *)
Definition or_ignore_fail (a : option (list number_set * bool))
    (ignore_fail : bool) : option (list number_set * bool) :=
  match a with
  | None => None
  | Some (set, ok) => Some (set, ok || ignore_fail)
  end.

Definition parse_syscall (token : string) (set : list number_set)
    (qualify_mode : bool) : option (list number_set * bool) :=
  let (token, ignore_fail) := skip_question_marks token false in
  let class_or_name :=
    match parse_syscall_class token set qualify_mode with
    | None => None
    | Some (set', true) => Some (set', true)
    | Some (set', false) =>
        or_ignore_fail (parse_syscall_name token set') ignore_fail
    end in
  match token with
  | String c rest =>
      if is_digit c then
        or_ignore_fail (parse_syscall_number token set) ignore_fail
      else if Ascii.eqb c "/" then
        or_ignore_fail (parse_syscall_regex rest set) ignore_fail
      else class_or_name
  | EmptyString => class_or_name
  end.

(** The token loop of [parse_syscall_set]: a token that [parse_syscall]
    refuses is a fatal error. *)
Fixpoint parse_syscall_tokens (tokens : list string)
    (set : list number_set) (done : bool) (qualify_mode : bool)
    : option (list number_set * bool) :=
  match tokens with
  | [] => Some (set, done)
  | token :: tokens' =>
      match parse_syscall token set qualify_mode with
      | None => None
      | Some (set', true) =>
          parse_syscall_tokens tokens' set' true qualify_mode
      | Some (_, false) => None
      end
  end.

(** What [parse_syscall_set] does with the text left after the leading
    inversions. *)
Definition parse_syscall_spec (s : string) (set : list number_set)
    (qualify_mode : bool) : option (list number_set) :=
  if String.eqb s "none" then Some set
  else if String.eqb s "all" then Some (invert_sets set)
  else
    match parse_syscall_tokens (strtok_r_tokens s ",") set false
            qualify_mode with
    | None => None
    | Some (set', done) => if done then Some set' else None
    end.

Definition parse_syscall_set (str : string) (set : list number_set)
    (qualify_mode : bool) : option (list number_set) :=
  let (s, set) := if qualify_mode then skip_inversions_sets str set
                  else (str, set) in
  parse_syscall_spec s set qualify_mode.

Definition parse_syscall_filter (str : string) (qualify_mode : bool)
    : option (list number_set) :=
  parse_syscall_set str (repeat empty_number_set SUPPORTED_PERSONALITIES)
    qualify_mode.


End SyscallSetParser.

(** ** filter_qualify.c: signals and injection options *)

Definition to_u16 (x : Z) : Z := x mod 2 ^ 16.

Definition to_u8 (x : Z) : Z := x mod 2 ^ 8.

(** Modelled from the spec: [struct inject_opts] of defs.h,
    [{first: u16, step: u16, rval: i32, signo: u8, initialised: bool}]. *)
Record inject_opts : Type := mk_inject_opts {
  first : Z;
  step : Z;
  rval : Z;
  signo : Z;
  init : bool
}.

Definition set_first (o : inject_opts) (v : Z) : inject_opts :=
  {| first := to_u16 v; step := step o; rval := rval o; signo := signo o;
     init := init o |}.

Definition set_step (o : inject_opts) (v : Z) : inject_opts :=
  {| first := first o; step := to_u16 v; rval := rval o; signo := signo o;
     init := init o |}.

Definition set_rval (o : inject_opts) (v : Z) : inject_opts :=
  {| first := first o; step := step o; rval := v; signo := signo o;
     init := init o |}.

Definition set_signo (o : inject_opts) (v : Z) : inject_opts :=
  {| first := first o; step := step o; rval := rval o; signo := to_u8 v;
     init := init o |}.

Definition set_init (o : inject_opts) (v : bool) : inject_opts :=
  {| first := first o; step := step o; rval := rval o; signo := signo o;
     init := v |}.

(** The first [i] from [i0] on, in steps of one over [fuel] values, that
    [test] accepts, or [-1]. *)
Fixpoint first_index (test : Z -> bool) (i0 : Z) (fuel : nat) : Z :=
  match fuel with
  | O => -1
  | S fuel' => if test i0 then i0 else first_index test (i0 + 1) fuel'
  end.

(** The tokens the loop of [parse_inject_common_args] visits, for [str]
    a string.  A null [str] reaches [strtok_r] with a null [saveptr], for
    which C defines no behaviour; that call is not modelled. *)
Definition inject_arg_tokens (str : string) (qualify_mode : bool)
    : list string :=
  let delim := if qualify_mode then ":" else ";" in
  strtok_r_tokens str delim.

Section Qualify.

(** The signal-name and error-name tables and the constants of the
    environment. *)
Variable signame : Z -> string.
Variable errnoent : list (option string).
Variable MAX_ERRNO_VALUE : Z.
Variable NSIG_BYTES : Z.
Variable INJECT_OPTS_RVAL_DEFAULT : Z.
Variable ENOSYS : Z.

Definition nerrnos : Z := Z.of_nat (List.length errnoent).

Definition sigstr_to_uint (s : string) : Z :=
  if starts_with_digit s then string_to_uint_upto s 255
  else
    let s := if strncasecmp_eq s "SIG" 3 then string_drop 3 s else s in
    first_index
      (fun i =>
         let name := signame i in
         strncasecmp_eq name "SIG" 3
         && strcasecmp_eq (string_drop 3 name) s)
      0 256.

Definition find_errno_by_name (name : string) : Z :=
  first_index
    (fun i =>
       match nth (Z.to_nat i) errnoent None with
       | None => false
       | Some e => strcasecmp_eq name e
       end)
    1 (Z.to_nat (nerrnos - 1)).

(** [parse_inject_token]: whether the token is accepted, and the options
    as the call leaves them. *)
Definition parse_inject_token (token : string) (fopts : inject_opts)
    (fault_tokens_only : bool) : bool * inject_opts :=
  match STR_STRIP_PREFIX token "when=" with
  | Some val =>
      let (intval, end_) := string_to_uint_ex val 65535 "+" in
      if intval <? 1 then (false, fopts)
      else
        let fopts := set_first fopts intval in
        match end_ with
        | String _ val =>
            match val with
            | String _ _ =>
                let intval := string_to_uint_upto val 65535 in
                if intval <? 1 then (false, fopts)
                else (true, set_step fopts intval)
            | EmptyString => (true, set_step fopts 1)
            end
        | EmptyString => (true, set_step fopts 0)
        end
  | None =>
  match STR_STRIP_PREFIX token "error=" with
  | Some val =>
      if negb (rval fopts =? INJECT_OPTS_RVAL_DEFAULT) then (false, fopts)
      else
        let intval := string_to_uint_upto val MAX_ERRNO_VALUE in
        let intval := if intval <? 0 then find_errno_by_name val
                      else intval in
        if intval <? 1 then (false, fopts)
        else (true, set_rval fopts (- intval))
  | None =>
  match (if fault_tokens_only then None
         else STR_STRIP_PREFIX token "retval=") with
  | Some val =>
      if negb (rval fopts =? INJECT_OPTS_RVAL_DEFAULT) then (false, fopts)
      else
        let intval := string_to_uint val in
        if intval <? 0 then (false, fopts)
        else (true, set_rval fopts intval)
  | None =>
  match (if fault_tokens_only then None
         else STR_STRIP_PREFIX token "signal=") with
  | Some val =>
      let intval := sigstr_to_uint val in
      if (intval <? 1) || (intval >? NSIG_BYTES * 8) then (false, fopts)
      else (true, set_signo fopts intval)
  | None => (false, fopts)
  end end end end.

(** The token loop of [parse_inject_common_args]: whether it ran to the
    end rather than returned at a refused token, and the options. *)
Fixpoint parse_inject_tokens (tokens : list string) (opts : inject_opts)
    (fault_tokens_only : bool) : bool * inject_opts :=
  match tokens with
  | [] => (true, opts)
  | token :: tokens' =>
      match parse_inject_token token opts fault_tokens_only with
      | (false, opts') => (false, opts')
      | (true, opts') => parse_inject_tokens tokens' opts' fault_tokens_only
      end
  end.

(** The options every call starts from. *)
Definition inject_opts_default : inject_opts :=
  {| first := 1; step := 1; rval := INJECT_OPTS_RVAL_DEFAULT; signo := 0;
     init := false |}.

(** The check after the token loop. *)
Definition inject_post_check (opts : inject_opts)
    (fault_tokens_only : bool) : inject_opts :=
  if (rval opts =? INJECT_OPTS_RVAL_DEFAULT) && (signo opts =? 0) then
    if fault_tokens_only then set_init (set_rval opts (- ENOSYS)) true
    else opts
  else set_init opts true.

(** [parse_inject_common_args(str, opts, fault_tokens_only, qualify_mode)]:
    the value of [*opts] on return; every field is assigned before it is
    read. *)
Definition parse_inject_common_args (str : string)
    (fault_tokens_only qualify_mode : bool) : inject_opts :=
  match parse_inject_tokens (inject_arg_tokens str qualify_mode)
          inject_opts_default fault_tokens_only with
  | (false, opts) => opts
  | (true, opts) => inject_post_check opts fault_tokens_only
  end.

(** The options [parse_inject_common_qualify] attaches to the action
    for the argument text [args], or [None] where it reports an invalid
    argument and ends the process.  With the arguments absent the
    function passes a null pointer on to [parse_inject_common_args]; see
    [inject_arg_tokens]. *)
Definition parse_inject_common_qualify (args : string)
    (fault_tokens_only : bool) : option inject_opts :=
  let opts := parse_inject_common_args args fault_tokens_only true in
  if init opts then Some opts else None.

Definition parse_fault (args : string) : option inject_opts :=
  parse_inject_common_qualify args true.

Definition parse_inject (args : string) : option inject_opts :=
  parse_inject_common_qualify args false.

(** [memset(vec, 0, sizeof( *vec) * n)] *)
Fixpoint zero_slots (n : nat) (v : list number_slot_t)
    : list number_slot_t :=
  match n, v with
  | S n', _ :: v' => 0 :: zero_slots n' v'
  | _, _ => v
  end.

(** "Clear the set." *)
Definition clear_signal_set (signal_set : number_set) : number_set :=
  {| vec := if nslots signal_set =? 0 then vec signal_set
            else zero_slots (Z.to_nat (nslots signal_set)) (vec signal_set);
     nslots := nslots signal_set;
     not := false |}.

(** [qualify_signals(main_part, args)] as a function of the global
    [signal_set]; [args] only produces a warning. *)
Definition qualify_signals (main_part : string) (signal_set : number_set)
    : option number_set :=
  parse_set main_part (clear_signal_set signal_set) sigstr_to_uint true.

End Qualify.

(** ** filter_action.c: the action table *)

(** The argument parsers and prefilters an action type can name. *)
Inductive args_parser : Type :=
  | parse_null
  | parse_inject_args
  | parse_fault_args.

Inductive prefilter_fn : Type := is_traced | not_injected.

(** [struct filter_action_type]; the [apply] hook of a type is determined
    by its name. *)
Record filter_action_type : Type := mk_action_type {
  name : string;
  priority : Z;
  qual_flg : Z;
  parse_args : args_parser;
  prefilter : option prefilter_fn
}.

(** [struct filter_action].  Of the filters only their number is kept; the
    expression and the private data play no part in what follows. *)
Record filter_action : Type := mk_action {
  id : Z;
  type : filter_action_type;
  nfilters : Z
}.

(** Modelled from the spec: the qualifier-flag bits of defs.h and the
    initial value of [default_flags]. *)
Record qual_flags : Type := mk_qual_flags {
  QUAL_TRACE : Z; QUAL_INJECT : Z; QUAL_READ : Z; QUAL_WRITE : Z;
  QUAL_RAW : Z; QUAL_ABBREV : Z; QUAL_VERBOSE : Z;
  DEFAULT_QUAL_FLAGS : Z
}.

(** The process-wide variables of filter_action.c; [nfilter_actions] is
    the length of [filter_actions], and [variables_buf] is kept as the
    number of cells allocated. *)
Record action_state : Type := mk_action_state {
  default_flags : Z;
  filter_actions : list filter_action;
  variables_buf : option Z
}.

Definition nfilter_actions (st : action_state) : Z :=
  Z.of_nat (List.length (filter_actions st)).

Definition compare_action_priority (action_a action_b : filter_action) : Z :=
  let priority_a := priority (type action_a) in
  let priority_b := priority (type action_b) in
  if negb (priority_a =? priority_b) then
    if priority_a <? priority_b then -1 else 1
  else
    if id action_a >? id action_b then -1 else 1.

(** [qsort] of libc orders the array by the comparator and promises no
    more; this is one such sort, by insertion, and the order it produces
    is characterised below independently of the method. *)
Fixpoint qsort_insert {A : Type} (compar : A -> A -> Z) (x : A)
    (l : list A) : list A :=
  match l with
  | [] => [x]
  | y :: l' =>
      if compar x y <? 0 then x :: l else y :: qsort_insert compar x l'
  end.

Fixpoint qsort {A : Type} (compar : A -> A -> Z) (l : list A) : list A :=
  match l with
  | [] => []
  | x :: l' => qsort_insert compar x (qsort compar l')
  end.

(** Pointers into [action_types] are equal when they point to the same
    row; the rows have different names. *)
Definition same_action_type (a b : filter_action_type) : bool :=
  String.eqb (name a) (name b).

(** [filter_actions[i] = f (filter_actions[i])] *)
Fixpoint update_action (i : nat) (f : filter_action -> filter_action)
    (l : list filter_action) {struct l} : list filter_action :=
  match l, i with
  | [], _ => []
  | a :: l', O => f a :: l'
  | a :: l', S i' => a :: update_action i' f l'
  end.

(** The index of the first action of the given type, from [i] on. *)
Fixpoint find_action (t : filter_action_type) (i : nat)
    (l : list filter_action) : option nat :=
  match l with
  | [] => None
  | a :: l' =>
      if same_action_type (type a) t then Some i
      else find_action t (S i) l'
  end.

Definition max_nfilters (l : list filter_action) : Z :=
  fold_left (fun m a => if nfilters a >? m then nfilters a else m) l 0.

Section FilterAction.

Variable qf : qual_flags.

Definition action_types : list filter_action_type :=
  [ mk_action_type "trace" 0 (QUAL_TRACE qf) parse_null None;
    mk_action_type "inject" 1 (QUAL_INJECT qf) parse_inject_args
      (Some not_injected);
    mk_action_type "fault" 1 (QUAL_INJECT qf) parse_fault_args
      (Some not_injected);
    mk_action_type "read" 2 (QUAL_READ qf) parse_null (Some is_traced);
    mk_action_type "write" 2 (QUAL_WRITE qf) parse_null (Some is_traced);
    mk_action_type "raw" 2 (QUAL_RAW qf) parse_null (Some is_traced);
    mk_action_type "abbrev" 2 (QUAL_ABBREV qf) parse_null (Some is_traced);
    mk_action_type "verbose" 2 (QUAL_VERBOSE qf) parse_null
      (Some is_traced) ].

Definition initial_action_state : action_state :=
  {| default_flags := DEFAULT_QUAL_FLAGS qf;
     filter_actions := [];
     variables_buf := None |}.

Definition lookup_filter_action_type (str : string)
    : option filter_action_type :=
  find (fun t => String.eqb (name t) str) action_types.

(** [add_action(type)]: the new state and the index of the action
    returned. *)
Definition add_action (t : filter_action_type) (st : action_state)
    : action_state * nat :=
  let default_flags' :=
    if negb (Z.land (to_uint (default_flags st)) (qual_flg t) =? 0)
    then to_int (Z.land (to_uint (default_flags st))
                        (to_uint (Z.lnot (qual_flg t))))
    else default_flags st in
  let nfilter_actions' := nfilter_actions st + 1 in
  let action := {| id := nfilter_actions' - 1; type := t; nfilters := 0 |} in
  ({| default_flags := default_flags';
      filter_actions := filter_actions st ++ [action];
      variables_buf := variables_buf st |},
   List.length (filter_actions st)).

(** [find_or_add_action(name)]; an unknown name is a fatal error. *)
Definition find_or_add_action (nm : string) (st : action_state)
    : option (action_state * nat) :=
  match lookup_filter_action_type nm with
  | None => None
  | Some t =>
      match parse_args t with
      | parse_null =>
          match find_action t O (filter_actions st) with
          | Some i => Some (st, i)
          | None => Some (add_action t st)
          end
      | _ => Some (add_action t st)
      end
  end.

(** Modelled from the spec: [parse_qualify_filter], [add_filter_to_array]
    and [expression_add_filter_and] are not among the sources.  If the
    trace action has no filter a synthetic [trace=all] is created, which
    leaves it one syscall filter; a path filter is then added and
    conjoined into the action's expression. *)
Definition add_path_filter (a : filter_action) : filter_action :=
  {| id := id a;
     type := type a;
     nfilters := (if nfilters a =? 0 then 1 else nfilters a) + 1 |}.

Definition inject_path_tracing (st : action_state) : option action_state :=
  match find_or_add_action "trace" st with
  | None => None
  | Some (st', i) =>
      Some {| default_flags := default_flags st';
              filter_actions :=
                update_action i add_path_filter (filter_actions st');
              variables_buf := variables_buf st' |}
  end.

Definition filtering_parsing_finish (tracing_paths : bool)
    (st : action_state) : option action_state :=
  match (if tracing_paths then inject_path_tracing st else Some st) with
  | None => None
  | Some st1 =>
      if nfilter_actions st1 =? 0 then Some st1
      else
        let sorted := qsort compare_action_priority (filter_actions st1) in
        Some {| default_flags := default_flags st1;
                filter_actions := sorted;
                variables_buf := Some (max_nfilters sorted) |}
  end.

(** The actions [filter_syscall] runs for an event, in the order it runs
    them. *)
Definition evaluation_order (st : action_state) : list filter_action :=
  filter_actions st.

End FilterAction.

(** ** Vocabulary of the properties *)

(** The set with its inversion flag XORed by [b]. *)
Definition xor_invert (b : bool) (s : number_set) : number_set :=
  {| vec := vec s; nslots := nslots s; not := xorb b (not s) |}.

(** [k] characters '!'. *)
Fixpoint bangs (k : nat) : string :=
  match k with
  | O => EmptyString
  | S k' => String "!" (bangs k')
  end.

(** A non-empty string of decimal digits, and the number it writes. *)
Fixpoint all_digits (s : string) : bool :=
  match s with
  | EmptyString => true
  | String c s' => is_digit c && all_digits s'
  end.

Definition is_uint (s : string) : bool := nonempty s && all_digits s.

Definition decimal_value (s : string) : Z :=
  fold_left (fun acc c => 10 * acc + digit_value c)
            (list_ascii_of_string s) 0.

Definition in_u16_range (v : Z) : bool := (1 <=? v) && (v <=? 65535).

(** Every bit of the [int] [a] is a bit of [b]. *)
Definition flags_subset (a b : Z) : Prop :=
  forall i, 0 <= i < 32 -> Z.testbit a i = true -> Z.testbit b i = true.

(** The state after registering actions of the given types in turn. *)
Definition add_actions (ts : list filter_action_type) (st : action_state)
    : action_state :=
  fold_left (fun st t => fst (add_action t st)) ts st.

(** The order of the finalised list: priority ascending, then id
    descending. *)
Definition action_before (a b : filter_action) : Prop :=
  priority (type a) < priority (type b)
  \/ (priority (type a) = priority (type b) /\ id b < id a).

(** Ids are assigned on append: before finalisation the action at index
    [i] has id [i]. *)
Definition ids_by_position (l : list filter_action) : Prop :=
  forall i a, nth_error l i = Some a -> id a = Z.of_nat i.

(** Two sets with the same inversion flag and the same bits. *)
Definition same_number_set (a b : number_set) : Prop :=
  not a = not b
  /\ (forall j, nth j (vec a) 0 = nth j (vec b) 0)
  /\ (forall n, 0 <= n -> is_number_in_set n a = is_number_in_set n b).

(** The claim that the options of [fault=...:error=ENOSYS] and of
    [fault=...] agree in every field but [init], where they differ. *)
Definition differ_only_in_init (a b : inject_opts) : Prop :=
  first a = first b /\ step a = step b /\ rval a = rval b
  /\ signo a = signo b /\ init a <> init b.

(** ** An environment for the examples: the first error names and a few
    signal names of Linux *)

Definition sample_errnoent : list (option string) :=
  [ None; Some "EPERM"; Some "ENOENT"; Some "ESRCH"; Some "EINTR";
    Some "EIO"; Some "ENXIO"; Some "E2BIG"; Some "ENOEXEC"; Some "EBADF";
    Some "ECHILD"; Some "EAGAIN"; Some "ENOMEM"; Some "EACCES";
    Some "EFAULT"; Some "ENOTBLK"; Some "EBUSY"; Some "EEXIST";
    Some "EXDEV"; Some "ENODEV"; Some "ENOTDIR"; Some "EISDIR";
    Some "EINVAL"; Some "ENFILE"; Some "EMFILE"; Some "ENOTTY";
    Some "ETXTBSY"; Some "EFBIG"; Some "ENOSPC"; Some "ESPIPE";
    Some "EROFS"; Some "EMLINK"; Some "EPIPE"; Some "EDOM"; Some "ERANGE";
    Some "EDEADLK"; Some "ENAMETOOLONG"; Some "ENOLCK"; Some "ENOSYS" ].

Definition sample_signame (sig : Z) : string :=
  match sig with
  | 1 => "SIGHUP"
  | 2 => "SIGINT"
  | 9 => "SIGKILL"
  | 15 => "SIGTERM"
  | 40 => "SIGRT_8"
  | _ => "SIG_0"
  end.

Definition sample_MAX_ERRNO_VALUE : Z := 4095.
Definition sample_NSIG_BYTES : Z := 8.
Definition sample_RVAL_DEFAULT : Z := -4096.
Definition sample_ENOSYS : Z := 38.

(** A result with the inversion flag of every set XORed by [b]. *)
Definition xor_invert_result {A : Type} (b : bool)
    (f : A -> A) (r : option (A * bool)) : option (A * bool) :=
  match r with
  | None => None
  | Some (x, flag) => Some (f x, flag)
  end.

(** What may follow the digits of a number: nothing, or a character that
    is not a digit. *)
Definition ends_number (rest : string) : Prop :=
  match rest with
  | EmptyString => True
  | String c _ => is_digit c = false
  end.

(** Two well-formed sets with the same inversion flag and the same bits;
    the allocations may differ in zero slots at the end. *)
Definition same_bits (a b : number_set) : Prop :=
  not a = not b
  /\ number_set_wf a /\ number_set_wf b
  /\ forall j, nth j (vec a) 0 = nth j (vec b) 0.

Definition sample_qual_flags : qual_flags :=
  {| QUAL_TRACE := 1; QUAL_ABBREV := 2; QUAL_VERBOSE := 4; QUAL_RAW := 8;
     QUAL_INJECT := 16; QUAL_READ := 512; QUAL_WRITE := 1024;
     DEFAULT_QUAL_FLAGS := 7 |}.

(** The actions of [trace=...], [abbrev=...], [inject=...], [fault=...]
    and [inject=...] again, as [find_or_add_action] registers them. *)
Definition sample_action_state : action_state :=
  {| default_flags := 4;
     filter_actions :=
       [ mk_action 0 (mk_action_type "trace" 0 1 parse_null None) 0;
         mk_action 1 (mk_action_type "abbrev" 2 2 parse_null
                        (Some is_traced)) 0;
         mk_action 2 (mk_action_type "inject" 1 16 parse_inject_args
                        (Some not_injected)) 0;
         mk_action 3 (mk_action_type "fault" 1 16 parse_fault_args
                        (Some not_injected)) 0;
         mk_action 4 (mk_action_type "inject" 1 16 parse_inject_args
                        (Some not_injected)) 0 ];
     variables_buf := None |}.

(** The state after [find_or_add_action] on each name in turn. *)
Definition register_actions (qf : qual_flags) (names : list string)
    (st : action_state) : option action_state :=
  fold_left
    (fun acc nm =>
       match acc with
       | None => None
       | Some st' => option_map fst (find_or_add_action qf nm st')
       end)
    names (Some st).

(** Two personalities with small system-call tables; class bits
    [TRACE_DESC = 1], [TRACE_FILE = 2], and so on. *)
Definition sample_trace_flags : trace_flags :=
  mk_trace_flags 1 2 4 8 16 32 64 128 256 512 1024 2048 4096 8192.

Definition sample_sysent_vec : list (list struct_sysent) :=
  [ [ mk_sysent (Some "read") 1; mk_sysent (Some "write") 1;
      mk_sysent (Some "open") 3; mk_sysent (Some "close") 1;
      mk_sysent None 0; mk_sysent (Some "stat") 2 ];
    [ mk_sysent (Some "exit") 8; mk_sysent (Some "open") 3 ] ].

(** A regular-expression library that knows the pattern [^re] only. *)
Definition sample_regcomp (pattern : string)
    : option (string -> regexec_rc) :=
  if String.eqb pattern "^re" then
    Some (fun nm => if String.eqb (string_take 2 nm) "re" then REG_MATCHED
                    else REG_NOMATCH)
  else None.

(** ** Vocabulary of the further properties *)

(** Every allocated slot holds a value of [number_slot_t]. *)
Definition slots_in_range (s : number_set) : Prop :=
  Forall (fun w => 0 <= w < 2 ^ 32) (vec s).

(** The text [parse_set] examines after the leading inversions, and the
    set as they leave it. *)
Definition stripped_spec (str : string) (set : number_set)
    (qualify_mode : bool) : string * number_set :=
  if qualify_mode then skip_inversions str set else (str, set).

(** Some token resolves to the number [n]. *)
Definition names_number (func : string -> Z) (tokens : list string)
    (n : Z) : bool :=
  existsb (fun token => func token =? n) tokens.

Definition starts_with_slash (s : string) : bool :=
  match s with
  | String "/" _ => true
  | _ => false
  end.

(** The class names that need no '%' in qualify mode. *)
Definition bare_class_names : list string :=
  ["desc"; "file"; "memory"; "process"; "signal"; "ipc"; "network"].

(** [s'] is well formed, keeps every bit of [s], and has no other bit at
    or above [bound]. *)
Definition bits_grow_within (bound : Z) (s s' : number_set) : Prop :=
  number_set_wf s'
  /\ (forall m, 0 <= m -> bit_is_set m s = true -> bit_is_set m s' = true)
  /\ (forall m, 0 <= m -> bit_is_set m s' = true ->
        bit_is_set m s = true \/ m < bound).

(** The same of the sets of every personality, [bound p] being the bound
    of personality [p]. *)
Definition sets_grow_within (bound : nat -> Z) (set r : list number_set)
    : Prop :=
  List.length r = List.length set
  /\ forall p sp, nth_error set p = Some sp ->
       exists rp, nth_error r p = Some rp
                  /\ bits_grow_within (bound p) sp rp.

(** Whether the entry of index [m] in a table is one that [sel]
    selects. *)
Definition selected_at (sel : struct_sysent -> bool)
    (ents : list struct_sysent) (m : Z) : bool :=
  match nth_error ents (Z.to_nat m) with
  | Some e => sel e
  | None => false
  end.


(** The entry is a named system call with every bit of [n] in its
    flags. *)
Definition has_class (n : Z) (e : struct_sysent) : bool :=
  match sys_name e with
  | None => false
  | Some _ => Z.land (sys_flags e) n =? n
  end.

(** [rp] is [sp] with the numbers of the entries that [sel] selects in
    the table added: the same inversion flag, and each such number a
    member exactly when the set is not inverted. *)
Definition added_where (sel : struct_sysent -> bool)
    (ents : list struct_sysent) (sp rp : number_set) : Prop :=
  number_set_wf rp
  /\ not rp = not sp
  /\ forall m, 0 <= m ->
       is_number_in_set m rp
       = if selected_at sel ents m then negb (not sp)
         else is_number_in_set m sp.

(** A signal name without its optional [SIG]. *)
Definition without_sig_prefix (s : string) : string :=
  if strncasecmp_eq s "SIG" 3 then string_drop 3 s else s.


(** The invariant that ties [default_flags] to the registered actions:
    within the 32 bits of the [int], a bit is set exactly when it is set
    in [initial] and in the qualifier flag of no action. *)
Definition default_flags_match (initial : Z) (st : action_state) : Prop :=
  forall i, 0 <= i < 32 ->
    Z.testbit (default_flags st) i
    = Z.testbit initial i
      && forallb (fun a => negb (Z.testbit (qual_flg (type a)) i))
           (filter_actions st).

(** [j] characters ','. *)
Fixpoint commas (j : nat) : string :=
  match j with
  | O => EmptyString
  | S j' => String "," (commas j')
  end.


(** What a set text selects once the leading inversions are gone:
    nothing for [none], everything for [all], and otherwise the numbers
    its tokens resolve to. *)
Definition selects (func : string -> Z) (spec : string) (n : Z) : bool :=
  if String.eqb spec "none" then false
  else if String.eqb spec "all" then true
  else names_number func (strtok_r_tokens spec ",") n.

(** No number is a bit of the set: its members are all numbers or none,
    as the inversion flag says. *)
Definition no_bit_set (s : number_set) : Prop :=
  forall n, 0 <= n -> is_number_in_set n s = not s.

(** What the options hold while fault syntax is parsed: no signal, and a
    return value that is the default or an error. *)
Definition fault_opts_so_far (rval_default : Z) (o : inject_opts) : Prop :=
  signo o = 0 /\ (rval o = rval_default \/ rval o < 0).

(** * Properties *)

Lemma land_single_bit (w k : Z) :
  0 <= k -> negb (Z.land w (Z.shiftl 1 k) =? 0) = Z.testbit w k.
Proof.
  intros Hk. rewrite Z.shiftl_1_l.
  destruct (Z.testbit w k) eqn:Hb.
  - apply negb_true_iff, Z.eqb_neq. intros H0.
    assert (Z.testbit (Z.land w (2 ^ k)) k = true) as Ht.
    { rewrite Z.land_spec, Hb, Z.pow2_bits_true; auto. }
    rewrite H0, Z.bits_0 in Ht. discriminate.
  - apply negb_false_iff, Z.eqb_eq. apply Z.bits_inj'. intros j Hj.
    rewrite Z.land_spec, Z.bits_0, Z.pow2_bits_eqb by assumption.
    destruct (Z.eqb_spec k j) as [->|]; [rewrite Hb|]; auto using andb_false_r.
Qed.

Lemma number_isset_testbit (n : Z) (s : number_set) :
  number_isset n (vec s) = bit_is_set n s.
Proof.
  unfold number_isset, bit_is_set. apply land_single_bit.
  apply Z.mod_pos_bound. reflexivity.
Qed.

(** C1.  Membership is [(n within range AND bit n set) XOR invert]; a
    number whose slot lies at or past the allocated range is a member
    exactly when the set is inverted. *)
Theorem is_number_in_set_spec (s : number_set) (n : Z) :
  0 <= n ->
  is_number_in_set n s = xorb (slot_in_range n s && bit_is_set n s) (not s)
  /\ (nslots s <= n / BITS_PER_SLOT -> is_number_in_set n s = not s).
Proof.
  intros _. unfold is_number_in_set.
  rewrite number_isset_testbit. split; [reflexivity|].
  intros Hout. apply Z.ltb_ge in Hout. rewrite Hout. reflexivity.
Qed.

(** ** [none] and [all] *)

Lemma invert_sets_fields (set : list number_set) :
  map vec (invert_sets set) = map vec set
  /\ map nslots (invert_sets set) = map nslots set
  /\ map not (invert_sets set) = map negb (map not set).
Proof.
  unfold invert_sets. rewrite !map_map. repeat split; reflexivity.
Qed.

(** C3.  [none] adds nothing and keeps every inversion flag; [all] adds
    nothing and flips every inversion flag; [all] followed by [none] into
    the same sets is [all]. *)
Theorem parse_syscall_set_none_all
    (sysent_vec : list (list struct_sysent)) (tf : trace_flags)
    (regcomp : string -> option (string -> regexec_rc))
    (set : list number_set) (qualify_mode : bool) :
  let parse := parse_syscall_set sysent_vec tf regcomp in
  parse "none" set qualify_mode = Some set
  /\ (exists set', parse "all" set qualify_mode = Some set'
        /\ map vec set' = map vec set
        /\ map nslots set' = map nslots set
        /\ map not set' = map negb (map not set))
  /\ match parse "all" set qualify_mode with
     | Some set' => parse "none" set' qualify_mode
     | None => None
     end = parse "all" set qualify_mode.
Proof.
  cbv zeta. split; [|split].
  - destruct qualify_mode; reflexivity.
  - exists (invert_sets set). split.
    + destruct qualify_mode; reflexivity.
    + apply invert_sets_fields.
  - destruct qualify_mode; reflexivity.
Qed.

(** ** [default_flags] *)

Lemma testbit_to_uint (x i : Z) :
  0 <= i < 32 -> Z.testbit (to_uint x) i = Z.testbit x i.
Proof.
  intros Hi. unfold to_uint. apply Z.mod_pow2_bits_low. lia.
Qed.

Lemma to_int_mod (x : Z) : to_int x mod 2 ^ 32 = x mod 2 ^ 32.
Proof.
  unfold to_int. rewrite Zminus_mod_idemp_l. f_equal. lia.
Qed.

Lemma testbit_to_int (x i : Z) :
  0 <= i < 32 -> Z.testbit (to_int x) i = Z.testbit x i.
Proof.
  intros Hi.
  rewrite <- (Z.mod_pow2_bits_low (to_int x) 32 i) by lia.
  rewrite to_int_mod. apply Z.mod_pow2_bits_low. lia.
Qed.

Lemma add_action_default_flags_bit (t : filter_action_type)
    (st : action_state) (i : Z) :
  0 <= i < 32 ->
  Z.testbit (default_flags (fst (add_action t st))) i
  = Z.testbit (default_flags st) i && negb (Z.testbit (qual_flg t) i).
Proof.
  intros Hi. unfold add_action. cbn [fst default_flags].
  destruct (Z.eqb_spec (Z.land (to_uint (default_flags st)) (qual_flg t)) 0)
    as [H0|_]; cbn [negb].
  - pose proof (f_equal (fun z => Z.testbit z i) H0) as Hb. cbv beta in Hb.
    rewrite Z.land_spec, Z.bits_0, testbit_to_uint in Hb by assumption.
    destruct (Z.testbit (default_flags st) i), (Z.testbit (qual_flg t) i);
      auto; discriminate.
  - rewrite testbit_to_int, Z.land_spec, !testbit_to_uint by assumption.
    rewrite Z.lnot_spec by lia. reflexivity.
Qed.

Lemma add_actions_cons (t : filter_action_type)
    (ts : list filter_action_type) (st : action_state) :
  add_actions (t :: ts) st = add_actions ts (fst (add_action t st)).
Proof. reflexivity. Qed.

Lemma add_actions_subset (ts : list filter_action_type)
    (st : action_state) :
  flags_subset (default_flags (add_actions ts st)) (default_flags st).
Proof.
  revert st. induction ts as [|t ts IH]; intros st i Hi Hb; [exact Hb|].
  rewrite add_actions_cons in Hb. apply IH in Hb; [|assumption].
  rewrite add_action_default_flags_bit in Hb by assumption.
  apply andb_prop in Hb. tauto.
Qed.

(** C7.  Registering an action clears the bits of its type's qualifier
    flag from [default_flags], and no later registration sets a bit:
    [default_flags] only ever shrinks. *)
Theorem default_flags_monotone (t : filter_action_type)
    (st : action_state) (later : list filter_action_type) :
  let st1 := fst (add_action t st) in
  (forall i, 0 <= i < 32 -> Z.testbit (qual_flg t) i = true ->
     Z.testbit (default_flags st1) i = false
     /\ Z.testbit (default_flags (add_actions later st1)) i = false)
  /\ flags_subset (default_flags st1) (default_flags st)
  /\ flags_subset (default_flags (add_actions later st1)) (default_flags st1).
Proof.
  cbv zeta.
  assert (forall i, 0 <= i < 32 -> Z.testbit (qual_flg t) i = true ->
            Z.testbit (default_flags (fst (add_action t st))) i = false)
    as Hclear.
  { intros i Hi Hq. rewrite add_action_default_flags_bit, Hq by assumption.
    apply andb_false_r. }
  split; [|split].
  - intros i Hi Hq. split; [auto|].
    destruct (Z.testbit (default_flags (add_actions later _)) i) eqn:Hb;
      [|reflexivity].
    apply add_actions_subset in Hb; [|assumption].
    rewrite Hclear in Hb by assumption. discriminate.
  - intros i Hi Hb. rewrite add_action_default_flags_bit in Hb by assumption.
    apply andb_prop in Hb. tauto.
  - apply add_actions_subset.
Qed.

(** ** Decimal numbers *)

Lemma digit_value_nonneg (c : ascii) :
  is_digit c = true -> 0 <= digit_value c <= 9.
Proof.
  unfold is_digit, digit_value. cbv zeta. intros H.
  apply andb_prop in H as [H1 H2].
  apply N.leb_le in H1, H2. lia.
Qed.

Lemma fold_digits_nonneg (l : list ascii) (acc : Z) :
  0 <= acc -> forallb is_digit l = true ->
  0 <= fold_left (fun a c => 10 * a + digit_value c) l acc.
Proof.
  revert acc. induction l as [|c l IH]; intros acc Hacc Hl; [exact Hacc|].
  cbn in Hl. apply andb_prop in Hl as [Hc Hl]. cbn [fold_left].
  apply IH; [|exact Hl]. pose proof (digit_value_nonneg c Hc). lia.
Qed.

Lemma all_digits_forallb (s : string) :
  all_digits s = forallb is_digit (list_ascii_of_string s).
Proof.
  induction s as [|c s IH]; [reflexivity|]. cbn. rewrite IH. reflexivity.
Qed.

Lemma decimal_value_nonneg (s : string) :
  all_digits s = true -> 0 <= decimal_value s.
Proof.
  intros H. apply fold_digits_nonneg; [lia|].
  rewrite <- all_digits_forallb. exact H.
Qed.

Lemma scan_digits_stop (acc : Z) (rest : string) :
  ends_number rest -> scan_digits acc rest = (acc, rest).
Proof.
  destruct rest as [|c rest]; [reflexivity|]. cbn. intros ->. reflexivity.
Qed.

Lemma scan_digits_app (f rest : string) (acc : Z) :
  all_digits f = true -> ends_number rest ->
  scan_digits acc (f ++ rest)%string
  = (fold_left (fun a c => 10 * a + digit_value c)
       (list_ascii_of_string f) acc, rest).
Proof.
  intros Hf Hrest. revert acc Hf.
  induction f as [|c f IH]; intros acc Hf.
  - apply scan_digits_stop. exact Hrest.
  - cbn in Hf. apply andb_prop in Hf as [Hc Hf].
    cbn [append scan_digits list_ascii_of_string fold_left].
    rewrite Hc. apply IH. exact Hf.
Qed.

(** The parser on a number [f] followed by [rest]. *)
Lemma string_to_uint_ex_digits (f rest : string) (max_val : Z)
    (accepted_ending : string) :
  is_uint f = true -> ends_number rest ->
  string_to_uint_ex (f ++ rest)%string max_val accepted_ending
  = if max_val <? decimal_value f then (-1, (f ++ rest)%string)
    else match rest with
         | EmptyString => (decimal_value f, rest)
         | String e _ =>
             if strchr accepted_ending e then (decimal_value f, rest)
             else (-1, (f ++ rest)%string)
         end.
Proof.
  intros Hf Hrest. unfold is_uint in Hf. apply andb_prop in Hf as [Hne Hf].
  unfold string_to_uint_ex.
  rewrite (scan_digits_app f rest 0 Hf Hrest). fold (decimal_value f).
  destruct f as [|c f]; [discriminate|].
  cbn in Hf. apply andb_prop in Hf as [Hc _].
  cbn [append]. rewrite Hc. reflexivity.
Qed.

Lemma string_to_uint_upto_digits (f : string) (max_val : Z) :
  is_uint f = true ->
  string_to_uint_upto f max_val
  = if max_val <? decimal_value f then -1 else decimal_value f.
Proof.
  intros Hf. unfold string_to_uint_upto.
  pose proof (string_to_uint_ex_digits f EmptyString max_val EmptyString
                Hf I) as H.
  assert ((f ++ "")%string = f) as Hnil.
  { clear. induction f as [|c f IH]; [reflexivity|]. cbn. now rewrite IH. }
  rewrite Hnil in H. rewrite H.
  destruct (max_val <? decimal_value f); reflexivity.
Qed.

Lemma to_u16_small (v : Z) : in_u16_range v = true -> to_u16 v = v.
Proof.
  unfold in_u16_range, to_u16. intros H. apply andb_prop in H as [H1 H2].
  apply Z.leb_le in H1, H2. apply Z.mod_small. lia.
Qed.

(** ** Injection options *)

Section QualifyProperties.

Variable signame : Z -> string.
Variable errnoent : list (option string).
Variable MAX_ERRNO_VALUE : Z.
Variable NSIG_BYTES : Z.
Variable INJECT_OPTS_RVAL_DEFAULT : Z.
Variable ENOSYS : Z.

Local Abbreviation token_parser :=
  (parse_inject_token signame errnoent MAX_ERRNO_VALUE NSIG_BYTES
     INJECT_OPTS_RVAL_DEFAULT).
Local Abbreviation token_loop :=
  (parse_inject_tokens signame errnoent MAX_ERRNO_VALUE NSIG_BYTES
     INJECT_OPTS_RVAL_DEFAULT).
Local Abbreviation common_args :=
  (parse_inject_common_args signame errnoent MAX_ERRNO_VALUE NSIG_BYTES
     INJECT_OPTS_RVAL_DEFAULT ENOSYS).

(** No token touches [init]. *)
Lemma parse_inject_token_init (token : string) (o : inject_opts)
    (fault_tokens_only : bool) :
  init (snd (token_parser token o fault_tokens_only)) = init o.
Proof.
  unfold parse_inject_token.
  repeat match goal with
         | |- context [match ?x with _ => _ end] => destruct x
         end; reflexivity.
Qed.

Lemma parse_inject_tokens_init (tokens : list string) (o : inject_opts)
    (fault_tokens_only : bool) :
  init (snd (token_loop tokens o fault_tokens_only)) = init o.
Proof.
  revert o. induction tokens as [|token tokens IH]; intros o; [reflexivity|].
  cbn [parse_inject_tokens].
  pose proof (parse_inject_token_init token o fault_tokens_only) as Hi.
  destruct (parse_inject_token _ _ _ _ _ token o fault_tokens_only)
    as [[|] o']; cbn [snd] in *.
  - rewrite IH. exact Hi.
  - exact Hi.
Qed.

(** C5.  When the token loop ends with [rval] at its default and no
    signal, [fault] sets [rval] to [-ENOSYS] and [init], while [inject]
    leaves [init] false; and [init] is true on return only if the loop ran
    to its end and the check after it passed. *)
Theorem parse_inject_common_args_post_check (str : string)
    (fault_tokens_only qualify_mode : bool) :
  let tokens := inject_arg_tokens str qualify_mode in
  let loop :=
    token_loop tokens (inject_opts_default INJECT_OPTS_RVAL_DEFAULT)
      fault_tokens_only in
  let result := common_args str fault_tokens_only qualify_mode in
  (fst loop = true ->
   rval (snd loop) = INJECT_OPTS_RVAL_DEFAULT -> signo (snd loop) = 0 ->
   if fault_tokens_only
   then rval result = - ENOSYS /\ init result = true
        /\ first result = first (snd loop) /\ step result = step (snd loop)
        /\ signo result = 0
   else init result = false)
  /\ (init result = true <->
      fst loop = true
      /\ (fault_tokens_only = true
          \/ rval (snd loop) <> INJECT_OPTS_RVAL_DEFAULT
          \/ signo (snd loop) <> 0)).
Proof.
  cbv zeta. unfold parse_inject_common_args.
  pose proof (parse_inject_tokens_init (inject_arg_tokens str qualify_mode)
                (inject_opts_default INJECT_OPTS_RVAL_DEFAULT)
                fault_tokens_only) as Hinit.
  destruct (parse_inject_tokens _ _ _ _ _ _ _ fault_tokens_only)
    as [ok o]. cbn [fst snd] in *. cbn [inject_opts_default init] in Hinit.
  split.
  - intros -> Hr Hs. unfold inject_post_check.
    rewrite Hr, Hs, !Z.eqb_refl. cbn [andb].
    destruct fault_tokens_only; [|exact Hinit].
    cbn. rewrite Hs. auto.
  - destruct ok.
    + unfold inject_post_check.
      destruct (Z.eqb_spec (rval o) INJECT_OPTS_RVAL_DEFAULT) as [Hr|Hr];
        destruct (Z.eqb_spec (signo o) 0) as [Hs|Hs]; cbn [andb];
        try (destruct fault_tokens_only); cbn [set_init set_rval init];
        rewrite ?Hinit; split; intros H; try tauto; try discriminate;
        try (split; [reflexivity|tauto]).
    + rewrite Hinit. split; [discriminate|]. intros [H _]. discriminate.
Qed.

Lemma append_empty (f : string) : (f ++ "")%string = f.
Proof. induction f as [|c f IH]; cbn; congruence. Qed.

Lemma in_u16_range_spec (v : Z) :
  in_u16_range v = true <-> 1 <= v <= 65535.
Proof.
  unfold in_u16_range. rewrite andb_true_iff, !Z.leb_le. tauto.
Qed.

(** A [when=] token whose first number is [f]. *)
Lemma parse_when_token (f rest : string) (fopts : inject_opts)
    (fault_tokens_only : bool) :
  is_uint f = true -> ends_number rest ->
  token_parser ("when=" ++ f ++ rest)%string fopts fault_tokens_only
  = if in_u16_range (decimal_value f) then
      match rest with
      | EmptyString => (true, set_step (set_first fopts (decimal_value f)) 0)
      | String e val =>
          if strchr "+" e then
            match val with
            | EmptyString =>
                (true, set_step (set_first fopts (decimal_value f)) 1)
            | String _ _ =>
                let intval := string_to_uint_upto val 65535 in
                if intval <? 1
                then (false, set_first fopts (decimal_value f))
                else (true,
                      set_step (set_first fopts (decimal_value f)) intval)
            end
          else (false, fopts)
      end
    else (false, fopts).
Proof.
  intros Hf Hrest.
  assert (0 <= decimal_value f) as Hnn.
  { apply decimal_value_nonneg. unfold is_uint in Hf.
    apply andb_prop in Hf. tauto. }
  unfold parse_inject_token.
  change (STR_STRIP_PREFIX ("when=" ++ f ++ rest)%string "when=")
    with (Some (f ++ rest)%string).
  cbv beta iota.
  rewrite string_to_uint_ex_digits by assumption.
  destruct (in_u16_range (decimal_value f)) eqn:HF.
  - apply in_u16_range_spec in HF.
    replace (65535 <? decimal_value f) with false
      by (symmetry; apply Z.ltb_ge; lia).
    destruct rest as [|e val].
    + replace (decimal_value f <? 1) with false
        by (symmetry; apply Z.ltb_ge; lia).
      reflexivity.
    + destruct (strchr "+" e); [|reflexivity].
      replace (decimal_value f <? 1) with false
        by (symmetry; apply Z.ltb_ge; lia).
      reflexivity.
  - destruct (Z.ltb_spec 65535 (decimal_value f)) as [Hbig|Hsmall];
      [reflexivity|].
    assert ((decimal_value f <? 1) = true) as Hlt.
    { apply Z.ltb_lt. destruct (Z.ltb_spec (decimal_value f) 1); [lia|].
      assert (in_u16_range (decimal_value f) = true)
        by (apply in_u16_range_spec; lia).
      congruence. }
    destruct rest as [|e val]; [rewrite Hlt; reflexivity|].
    destruct (strchr "+" e); [rewrite Hlt|]; reflexivity.
Qed.

Lemma with_when_fields (fopts : inject_opts) (F S : Z) :
  in_u16_range F = true -> to_u16 S = S ->
  set_step (set_first fopts F) S
  = {| first := F; step := S; rval := rval fopts; signo := signo fopts;
       init := init fopts |}.
Proof.
  intros HF HS. unfold set_step, set_first. cbn [first step rval signo init].
  rewrite HS, (to_u16_small F HF). reflexivity.
Qed.

(** C4.  [when=F] sets [(first, step)] to [(F, 0)], [when=F+] to [(F, 1)]
    and [when=F+S] to [(F, S)]; the token is accepted exactly when the
    numbers it holds are in 1..65535. *)
Theorem parse_inject_token_when (f s : string) (fopts : inject_opts)
    (fault_tokens_only : bool) :
  is_uint f = true -> is_uint s = true ->
  let F := decimal_value f in
  let S := decimal_value s in
  let with_when first' step' :=
    {| first := first'; step := step'; rval := rval fopts;
       signo := signo fopts; init := init fopts |} in
  let r0 := token_parser ("when=" ++ f)%string fopts fault_tokens_only in
  let r1 := token_parser ("when=" ++ f ++ "+")%string fopts
              fault_tokens_only in
  let r2 := token_parser ("when=" ++ f ++ "+" ++ s)%string fopts
              fault_tokens_only in
  (fst r0 = in_u16_range F /\ (fst r0 = true -> snd r0 = with_when F 0))
  /\ (fst r1 = in_u16_range F /\ (fst r1 = true -> snd r1 = with_when F 1))
  /\ (fst r2 = in_u16_range F && in_u16_range S
      /\ (fst r2 = true -> snd r2 = with_when F S))
  /\ fst (token_parser "when=65535+65535" fopts fault_tokens_only) = true
  /\ fst (token_parser "when=0" fopts fault_tokens_only) = false
  /\ fst (token_parser "when=65536" fopts fault_tokens_only) = false.
Proof.
  intros Hf Hs. cbv zeta.
  split; [|split; [|split; [|repeat split; reflexivity]]].
  - replace ("when=" ++ f)%string with ("when=" ++ f ++ "")%string
      by now rewrite append_empty.
    rewrite parse_when_token by (assumption || exact I).
    destruct (in_u16_range (decimal_value f)) eqn:HF; cbn [fst snd].
    + split; [reflexivity|]. intros _. now apply with_when_fields.
    + split; [reflexivity|discriminate].
  - rewrite parse_when_token by (assumption || reflexivity).
    destruct (in_u16_range (decimal_value f)) eqn:HF; cbn [fst snd strchr].
    + split; [reflexivity|]. intros _. now apply with_when_fields.
    + split; [reflexivity|discriminate].
  - rewrite parse_when_token by (assumption || reflexivity).
    destruct (in_u16_range (decimal_value f)) eqn:HF;
      [|split; [reflexivity|discriminate]].
    change ("+" ++ s)%string with (String "+" s).
    cbv beta iota. change (strchr "+" "+") with true. cbv beta iota.
    assert (0 <= decimal_value s) as Hnn.
    { apply decimal_value_nonneg. unfold is_uint in Hs.
      apply andb_prop in Hs. tauto. }
    destruct s as [|c s]; [discriminate|].
    cbv zeta. rewrite string_to_uint_upto_digits by assumption.
    destruct (in_u16_range (decimal_value (String c s))) eqn:HS.
    + pose proof HS as HS'. apply in_u16_range_spec in HS'.
      replace (65535 <? decimal_value (String c s)) with false
        by (symmetry; apply Z.ltb_ge; lia).
      replace (decimal_value (String c s) <? 1) with false
        by (symmetry; apply Z.ltb_ge; lia).
      cbn [fst snd]. split; [reflexivity|]. intros _.
      apply with_when_fields; [assumption|]. now apply to_u16_small.
    + destruct (Z.ltb_spec 65535 (decimal_value (String c s)));
        [split; [reflexivity|discriminate]|].
      assert ((decimal_value (String c s) <? 1) = true) as Hlt.
      { apply Z.ltb_lt.
        destruct (Z.ltb_spec (decimal_value (String c s)) 1); [lia|].
        assert (in_u16_range (decimal_value (String c s)) = true)
          by (apply in_u16_range_spec; lia).
        congruence. }
      rewrite Hlt. split; [reflexivity|discriminate].
Qed.

(** C9, as the code has it.  The options of [error=ENOSYS] in fault
    syntax and those of an empty fault argument text are the same in
    every field, [init] included: first 1, step 1, rval [-ENOSYS], no
    signal, initialised. *)
Theorem fault_default_is_error_enosys :
  find_errno_by_name errnoent "ENOSYS" = ENOSYS -> 1 <= ENOSYS ->
  let explicit := common_args "error=ENOSYS" true true in
  explicit = {| first := 1; step := 1; rval := - ENOSYS; signo := 0;
                init := true |}
  /\ common_args "" true true = explicit
  /\ parse_fault signame errnoent MAX_ERRNO_VALUE NSIG_BYTES
       INJECT_OPTS_RVAL_DEFAULT ENOSYS "error=ENOSYS"
     = parse_fault signame errnoent MAX_ERRNO_VALUE NSIG_BYTES
         INJECT_OPTS_RVAL_DEFAULT ENOSYS "".
Proof.
  intros Hname Hpos. cbv zeta.
  assert (common_args "error=ENOSYS" true true
          = {| first := 1; step := 1; rval := - ENOSYS; signo := 0;
               init := true |}) as Hexplicit.
  { unfold parse_inject_common_args.
    change (inject_arg_tokens "error=ENOSYS" true) with ["error=ENOSYS"].
    cbn [parse_inject_tokens]. unfold parse_inject_token.
    change (STR_STRIP_PREFIX "error=ENOSYS" "when=") with (@None string).
    change (STR_STRIP_PREFIX "error=ENOSYS" "error=") with (Some "ENOSYS").
    cbv beta iota. cbn [inject_opts_default rval].
    rewrite Z.eqb_refl. cbn [negb].
    change (string_to_uint_upto "ENOSYS" MAX_ERRNO_VALUE) with (-1).
    change (-1 <? 0) with true. cbv beta iota zeta. rewrite Hname.
    replace (ENOSYS <? 1) with false by (symmetry; apply Z.ltb_ge; lia).
    unfold inject_post_check, set_rval, set_init.
    cbn [first step rval signo init].
    destruct (- ENOSYS =? INJECT_OPTS_RVAL_DEFAULT); reflexivity. }
  assert (common_args "" true true
          = {| first := 1; step := 1; rval := - ENOSYS; signo := 0;
               init := true |}) as Hempty.
  { unfold parse_inject_common_args.
    change (inject_arg_tokens "" true) with (@nil string).
    cbn [parse_inject_tokens]. unfold inject_post_check, inject_opts_default.
    cbn [rval signo]. rewrite !Z.eqb_refl. reflexivity. }
  unfold parse_fault, parse_inject_common_qualify.
  rewrite Hexplicit, Hempty. repeat split; reflexivity.
Qed.

End QualifyProperties.

(** C9, as stated, fails: the two results do not differ in [init]. *)
Lemma fault_opts_init_agree :
  ~ differ_only_in_init
      (parse_inject_common_args sample_signame sample_errnoent
         sample_MAX_ERRNO_VALUE sample_NSIG_BYTES sample_RVAL_DEFAULT
         sample_ENOSYS "error=ENOSYS" true true)
      (parse_inject_common_args sample_signame sample_errnoent
         sample_MAX_ERRNO_VALUE sample_NSIG_BYTES sample_RVAL_DEFAULT
         sample_ENOSYS "" true true).
Proof.
  intros (_ & _ & _ & _ & Hinit). apply Hinit. vm_compute. reflexivity.
Qed.

(** ** The fd filter *)

(** C8.  A negative descriptor matches exactly when the set is inverted;
    for [mq_timedsend] and [mq_timedreceive] the descriptor tested is
    argument 0, so [read=0,1] matches [mq_timedsend] on descriptor 1 and
    not on descriptor 2. *)
Theorem run_fd_filter_spec
    (match_fd_common :
       tcb -> (tcb -> Z -> number_set -> bool) -> number_set -> bool)
    (tcp : tcb) (set : number_set) :
  (forall fd, fd < 0 -> is_fd_in_set tcp fd set = not set)
  /\ (forall fd, fd < 0 ->
        is_fd_in_set tcp fd (invert_set empty_number_set) = true)
  /\ (sen tcp = SEN_mq_timedsend \/ sen tcp = SEN_mq_timedreceive ->
      run_fd_filter match_fd_common tcp set
      = is_fd_in_set tcp (to_int (nth 0 (u_arg tcp) 0)) set)
  /\ (forall (sc : Z) (rest : list Z),
        exists set01,
          parse_fd_filter "0,1" true = Some set01
          /\ run_fd_filter match_fd_common
               (mk_tcb sc SEN_mq_timedsend (1 :: rest)) set01 = true
          /\ run_fd_filter match_fd_common
               (mk_tcb sc SEN_mq_timedsend (2 :: rest)) set01 = false).
Proof.
  repeat split.
  - intros fd Hfd. unfold is_fd_in_set.
    apply Z.ltb_lt in Hfd. rewrite Hfd. reflexivity.
  - intros fd Hfd. unfold is_fd_in_set.
    apply Z.ltb_lt in Hfd. rewrite Hfd. reflexivity.
  - unfold run_fd_filter. intros [-> | ->]; reflexivity.
  - intros sc rest.
    exists {| vec := [3]; nslots := 1; not := false |}.
    repeat split; vm_compute; reflexivity.
Qed.

(** ** Leading inversions of a syscall set *)

Lemma xor_invert_add (b : bool) (n : Z) (s : number_set) :
  add_number_to_set n (xor_invert b s) = xor_invert b (add_number_to_set n s).
Proof.
  unfold add_number_to_set, reallocate_number_set, xor_invert.
  cbn [vec nslots not].
  destruct (n / BITS_PER_SLOT + 1 <=? nslots s); reflexivity.
Qed.

Lemma xor_invert_xor (a b : bool) (s : number_set) :
  xor_invert a (xor_invert b s) = xor_invert (xorb a b) s.
Proof.
  unfold xor_invert. cbn [vec nslots not]. rewrite xorb_assoc. reflexivity.
Qed.

Lemma xor_invert_false (s : number_set) : xor_invert false s = s.
Proof. destruct s as [v n i]. reflexivity. Qed.

Lemma invert_set_xor (s : number_set) : invert_set s = xor_invert true s.
Proof. unfold invert_set, xor_invert. now destruct (not s). Qed.

Lemma invert_sets_xor (set : list number_set) :
  invert_sets set = map (xor_invert true) set.
Proof. unfold invert_sets. apply map_ext, invert_set_xor. Qed.

Lemma xor_invert_invert_sets (b : bool) (set : list number_set) :
  invert_sets (map (xor_invert b) set) = map (xor_invert b) (invert_sets set).
Proof.
  unfold invert_sets. rewrite !map_map. apply map_ext. intros s.
  unfold invert_set, xor_invert. cbn [vec nslots not].
  now destruct b, (not s).
Qed.

Lemma for_each_syscall_xor (b : bool) (sel : struct_sysent -> option bool)
    (ents : list struct_sysent) (i : Z) (s : number_set) (found : bool) :
  for_each_syscall sel i ents (xor_invert b s) found
  = xor_invert_result b (xor_invert b) (for_each_syscall sel i ents s found).
Proof.
  revert i s found. induction ents as [|e ents IH]; intros i s found;
    [reflexivity|].
  cbn [for_each_syscall]. destruct (sel e) as [[|]|]; [| |reflexivity].
  - rewrite xor_invert_add. apply IH.
  - apply IH.
Qed.

Lemma for_each_personality_xor (b : bool)
    (body : nat -> number_set -> bool -> option (number_set * bool))
    (set : list number_set) (p : nat) (flag : bool) :
  (forall q s f,
     body q (xor_invert b s) f
     = xor_invert_result b (xor_invert b) (body q s f)) ->
  for_each_personality body p (map (xor_invert b) set) flag
  = xor_invert_result b (map (xor_invert b))
      (for_each_personality body p set flag).
Proof.
  intros Hbody. revert p flag.
  induction set as [|s set IH]; intros p flag; [reflexivity|].
  cbn [map for_each_personality]. rewrite Hbody.
  destruct (body p s flag) as [[s' flag']|]; [|reflexivity].
  cbn [xor_invert_result]. rewrite IH.
  destruct (for_each_personality body (S p) set flag') as [[r flag'']|];
    reflexivity.
Qed.

Lemma add_number_to_set_not (n : Z) (s : number_set) :
  not (add_number_to_set n s) = not s.
Proof.
  unfold add_number_to_set, reallocate_number_set. cbn [not].
  destruct (n / BITS_PER_SLOT + 1 <=? nslots s); reflexivity.
Qed.

Lemma for_each_syscall_not (sel : struct_sysent -> option bool)
    (ents : list struct_sysent) (i : Z) (s s' : number_set)
    (found found' : bool) :
  for_each_syscall sel i ents s found = Some (s', found') -> not s' = not s.
Proof.
  revert i s found. induction ents as [|e ents IH]; intros i s found H.
  - cbn in H. congruence.
  - cbn [for_each_syscall] in H. destruct (sel e) as [[|]|];
      [|eauto|discriminate].
    apply IH in H. rewrite H. apply add_number_to_set_not.
Qed.

Lemma for_each_personality_not
    (body : nat -> number_set -> bool -> option (number_set * bool))
    (set : list number_set) (p : nat) (flag : bool)
    (r : list number_set) (flag' : bool) :
  (forall q s f s' f', body q s f = Some (s', f') -> not s' = not s) ->
  for_each_personality body p set flag = Some (r, flag') ->
  map not r = map not set.
Proof.
  intros Hbody. revert p flag r flag'.
  induction set as [|s set IH]; intros p flag r flag' H.
  - cbn in H. injection H as <- _. reflexivity.
  - cbn [for_each_personality] in H.
    destruct (body p s flag) as [[s1 f1]|] eqn:Hb; [|discriminate].
    destruct (for_each_personality body (S p) set f1) as [[r1 f2]|] eqn:Hr;
      [|discriminate].
    injection H as <- _. cbn [map]. f_equal; eauto.
Qed.

Section SyscallSetProperties.

Variable sysent_vec : list (list struct_sysent).
Variable tf : trace_flags.
Variable regcomp : string -> option (string -> regexec_rc).

Local Abbreviation parse_set_str := (parse_syscall_set sysent_vec tf regcomp).
Local Abbreviation parse_spec := (parse_syscall_spec sysent_vec tf regcomp).
Local Abbreviation parse_tokens :=
  (parse_syscall_tokens sysent_vec tf regcomp).
Local Abbreviation parse_token := (parse_syscall sysent_vec tf regcomp).

Lemma parse_syscall_number_xor (b : bool) (s : string)
    (set : list number_set) :
  parse_syscall_number sysent_vec s (map (xor_invert b) set)
  = xor_invert_result b (map (xor_invert b))
      (parse_syscall_number sysent_vec s set).
Proof.
  unfold parse_syscall_number.
  destruct (string_to_uint s <? 0); [reflexivity|].
  apply for_each_personality_xor. intros q sp f.
  destruct (to_uint (string_to_uint s) >=? nsyscall_vec sysent_vec q);
    [reflexivity|].
  rewrite xor_invert_add. reflexivity.
Qed.

Lemma parse_syscall_regex_xor (b : bool) (s : string)
    (set : list number_set) :
  parse_syscall_regex sysent_vec regcomp s (map (xor_invert b) set)
  = xor_invert_result b (map (xor_invert b))
      (parse_syscall_regex sysent_vec regcomp s set).
Proof.
  unfold parse_syscall_regex. destruct (regcomp s); [|reflexivity].
  apply for_each_personality_xor. intros q sp f.
  apply for_each_syscall_xor.
Qed.

Lemma parse_syscall_class_xor (b : bool) (s : string)
    (set : list number_set) (qualify_mode : bool) :
  parse_syscall_class sysent_vec tf s (map (xor_invert b) set) qualify_mode
  = xor_invert_result b (map (xor_invert b))
      (parse_syscall_class sysent_vec tf s set qualify_mode).
Proof.
  unfold parse_syscall_class.
  destruct (lookup_class tf s qualify_mode =? 0); [reflexivity|].
  rewrite for_each_personality_xor
    by (intros q sp f; apply for_each_syscall_xor).
  destruct (for_each_personality _ 0 set false) as [[r fl]|]; reflexivity.
Qed.

Lemma parse_syscall_name_xor (b : bool) (s : string)
    (set : list number_set) :
  parse_syscall_name sysent_vec s (map (xor_invert b) set)
  = xor_invert_result b (map (xor_invert b))
      (parse_syscall_name sysent_vec s set).
Proof.
  unfold parse_syscall_name.
  apply for_each_personality_xor. intros q sp f.
  apply for_each_syscall_xor.
Qed.

Lemma or_ignore_fail_xor (b : bool)
    (a : option (list number_set * bool)) (ignore_fail : bool) :
  or_ignore_fail (xor_invert_result b (map (xor_invert b)) a) ignore_fail
  = xor_invert_result b (map (xor_invert b)) (or_ignore_fail a ignore_fail).
Proof. destruct a as [[r fl]|]; reflexivity. Qed.

Lemma parse_syscall_xor (b : bool) (token : string)
    (set : list number_set) (qualify_mode : bool) :
  parse_token token (map (xor_invert b) set) qualify_mode
  = xor_invert_result b (map (xor_invert b))
      (parse_token token set qualify_mode).
Proof.
  unfold parse_syscall.
  destruct (skip_question_marks token false) as [tok ignore_fail].
  assert (match
            parse_syscall_class sysent_vec tf tok (map (xor_invert b) set)
              qualify_mode
          with
          | None => None
          | Some (set', true) => Some (set', true)
          | Some (set', false) =>
              or_ignore_fail (parse_syscall_name sysent_vec tok set')
                ignore_fail
          end
          = xor_invert_result b (map (xor_invert b))
              match
                parse_syscall_class sysent_vec tf tok set qualify_mode
              with
              | None => None
              | Some (set', true) => Some (set', true)
              | Some (set', false) =>
                  or_ignore_fail (parse_syscall_name sysent_vec tok set')
                    ignore_fail
              end) as Hcn.
  { rewrite parse_syscall_class_xor.
    destruct (parse_syscall_class sysent_vec tf tok set qualify_mode)
      as [[set' [|]]|]; cbn [xor_invert_result]; try reflexivity.
    rewrite parse_syscall_name_xor. apply or_ignore_fail_xor. }
  destruct tok as [|c rest]; [exact Hcn|].
  destruct (is_digit c).
  - rewrite parse_syscall_number_xor. apply or_ignore_fail_xor.
  - destruct (Ascii.eqb c "/"); [|exact Hcn].
    rewrite parse_syscall_regex_xor. apply or_ignore_fail_xor.
Qed.

Lemma parse_syscall_tokens_xor (b : bool) (tokens : list string)
    (set : list number_set) (done qualify_mode : bool) :
  parse_tokens tokens (map (xor_invert b) set) done qualify_mode
  = xor_invert_result b (map (xor_invert b))
      (parse_tokens tokens set done qualify_mode).
Proof.
  revert set done. induction tokens as [|token tokens IH]; intros set done;
    [reflexivity|].
  cbn [parse_syscall_tokens]. rewrite parse_syscall_xor.
  destruct (parse_token token set qualify_mode) as [[set' [|]]|];
    cbn [xor_invert_result]; try reflexivity.
  apply IH.
Qed.

Lemma parse_syscall_spec_xor (b : bool) (s : string)
    (set : list number_set) (qualify_mode : bool) :
  parse_spec s (map (xor_invert b) set) qualify_mode
  = option_map (map (xor_invert b)) (parse_spec s set qualify_mode).
Proof.
  unfold parse_syscall_spec.
  destruct (String.eqb s "none"); [reflexivity|].
  destruct (String.eqb s "all").
  - cbn [option_map]. rewrite xor_invert_invert_sets. reflexivity.
  - rewrite parse_syscall_tokens_xor.
    destruct (parse_tokens _ set false qualify_mode) as [[set' [|]]|];
      reflexivity.
Qed.

Lemma skip_inversions_sets_xor (b : bool) (s : string)
    (set : list number_set) :
  skip_inversions_sets s (map (xor_invert b) set)
  = (fst (skip_inversions_sets s set),
     map (xor_invert b) (snd (skip_inversions_sets s set))).
Proof.
  revert set. induction s as [|c s IH]; intros set; [reflexivity|].
  cbn [skip_inversions_sets].
  destruct (Ascii.eqb_spec c "!") as [->|Hc].
  - rewrite xor_invert_invert_sets. apply IH.
  - destruct c as [[|] [|] [|] [|] [|] [|] [|] [|]]; try reflexivity.
    contradiction Hc; reflexivity.
Qed.

Lemma skip_inversions_sets_bangs (k : nat) (P : string)
    (set : list number_set) :
  skip_inversions_sets (bangs k ++ P)%string set
  = skip_inversions_sets P (map (xor_invert (Nat.odd k)) set).
Proof.
  revert set. induction k as [|k IH]; intros set.
  - cbn [bangs append Nat.odd]. f_equal.
    rewrite (map_ext _ (fun s => s) xor_invert_false), map_id. reflexivity.
  - cbn [bangs append skip_inversions_sets]. rewrite IH.
    rewrite invert_sets_xor, map_map. f_equal. apply map_ext. intros s.
    rewrite xor_invert_xor, Nat.odd_succ, <- Nat.negb_odd.
    destruct (Nat.odd k); reflexivity.
Qed.

(** The body of a loop over the personalities that scans one table. *)
Ltac scan_keeps_not :=
  let Hb := fresh "Hb" in
  intros ? ? ? ? ? Hb; cbv beta in Hb;
  eapply for_each_syscall_not; exact Hb.

Lemma parse_syscall_not (token : string) (set r : list number_set)
    (qualify_mode ok : bool) :
  parse_token token set qualify_mode = Some (r, ok) ->
  map not r = map not set.
Proof.
  assert (forall tok set r ok,
            parse_syscall_name sysent_vec tok set = Some (r, ok) ->
            map not r = map not set) as Hname.
  { intros tok set0 r0 ok0 H. unfold parse_syscall_name in H.
    eapply for_each_personality_not; [|exact H]. scan_keeps_not. }
  assert (forall tok set r ok,
            parse_syscall_class sysent_vec tf tok set qualify_mode
            = Some (r, ok) -> map not r = map not set) as Hclass.
  { intros tok set0 r0 ok0 H. unfold parse_syscall_class in H.
    destruct (lookup_class tf tok qualify_mode =? 0); [congruence|].
    destruct (for_each_personality _ 0 set0 false) as [[r1 f1]|] eqn:Hr;
      [|discriminate].
    injection H as <- _.
    eapply for_each_personality_not; [|exact Hr]. scan_keeps_not. }
  assert (forall tok set r ok,
            parse_syscall_number sysent_vec tok set = Some (r, ok) ->
            map not r = map not set) as Hnumber.
  { intros tok set0 r0 ok0 H. unfold parse_syscall_number in H.
    destruct (string_to_uint tok <? 0); [congruence|].
    eapply for_each_personality_not; [|exact H].
    intros q s f s' f' Hb. cbv beta in Hb.
    destruct (to_uint (string_to_uint tok) >=? nsyscall_vec sysent_vec q);
      injection Hb as <- _; [reflexivity|apply add_number_to_set_not]. }
  assert (forall tok set r ok,
            parse_syscall_regex sysent_vec regcomp tok set = Some (r, ok) ->
            map not r = map not set) as Hregex.
  { intros tok set0 r0 ok0 H. unfold parse_syscall_regex in H.
    destruct (regcomp tok); [|discriminate].
    eapply for_each_personality_not; [|exact H]. scan_keeps_not. }
  assert (forall a ign r ok,
            or_ignore_fail a ign = Some (r, ok) ->
            exists ok', a = Some (r, ok')) as Hor.
  { intros [[r1 ok1]|] ign r0 ok0 H; [|discriminate].
    injection H as <- _. eauto. }
  unfold parse_syscall.
  destruct (skip_question_marks token false) as [tok ignore_fail].
  assert (match
            parse_syscall_class sysent_vec tf tok set qualify_mode
          with
          | None => None
          | Some (set', true) => Some (set', true)
          | Some (set', false) =>
              or_ignore_fail (parse_syscall_name sysent_vec tok set')
                ignore_fail
          end = Some (r, ok) -> map not r = map not set) as Hcn.
  { destruct (parse_syscall_class sysent_vec tf tok set qualify_mode)
      as [[set' [|]]|] eqn:Hc; [| |discriminate].
    - intros H. injection H as <- _. eauto.
    - intros H. apply Hor in H as [ok' H]. apply Hname in H.
      apply Hclass in Hc. congruence. }
  destruct tok as [|c rest]; [exact Hcn|].
  destruct (is_digit c).
  - intros H. apply Hor in H as [ok' H]. eauto.
  - destruct (Ascii.eqb c "/"); [|exact Hcn].
    intros H. apply Hor in H as [ok' H]. eauto.
Qed.

Lemma parse_syscall_tokens_not (tokens : list string)
    (set r : list number_set) (done done' qualify_mode : bool) :
  parse_tokens tokens set done qualify_mode = Some (r, done') ->
  map not r = map not set.
Proof.
  revert set done. induction tokens as [|token tokens IH]; intros set done H.
  - cbn in H. congruence.
  - cbn [parse_syscall_tokens] in H.
    destruct (parse_token token set qualify_mode) as [[set' [|]]|] eqn:Ht;
      try discriminate.
    apply IH in H. apply parse_syscall_not in Ht. congruence.
Qed.

(** The first token of a text that starts with '!' starts with '!'. *)
Lemma strtok_r_tokens_bang (rest : string) :
  exists f fs, strtok_r_tokens (String "!" rest) "," = String "!" f :: fs.
Proof.
  unfold strtok_r_tokens. cbn [split_fields].
  destruct (split_fields "," rest) as [f fs].
  change (strchr "," "!") with false. cbv iota.
  cbn [filter nonempty]. eauto.
Qed.

(** C2.  In qualify mode [k] leading '!' characters give the sets of the
    text without them, with every inversion flag XORed by [k mod 2]; in
    non-qualify mode a leading '!' is left to the token parser and no
    flag is flipped. *)
Theorem parse_syscall_set_leading_inversions (P : string) (k : nat)
    (set : list number_set) :
  parse_set_str (bangs k ++ P)%string set true
  = option_map (map (xor_invert (Nat.odd k))) (parse_set_str P set true)
  /\ (forall r0,
        parse_set_str P set true = Some r0 ->
        exists r,
          parse_set_str (bangs k ++ P)%string set true = Some r
          /\ map vec r = map vec r0
          /\ map nslots r = map nslots r0
          /\ map not r = map (xorb (Nat.odd k)) (map not r0))
  /\ parse_set_str (bangs (S k) ++ P)%string set false
     = match
         parse_tokens (strtok_r_tokens (bangs (S k) ++ P)%string ",") set
           false false
       with
       | None => None
       | Some (set', done) => if done then Some set' else None
       end
  /\ (exists f fs,
        strtok_r_tokens (bangs (S k) ++ P)%string ","
        = String "!" f :: fs)
  /\ (forall r,
        parse_set_str (bangs (S k) ++ P)%string set false = Some r ->
        map not r = map not set).
Proof.
  assert (parse_set_str (bangs k ++ P)%string set true
          = option_map (map (xor_invert (Nat.odd k)))
              (parse_set_str P set true)) as Hq.
  { unfold parse_syscall_set.
    rewrite skip_inversions_sets_bangs, skip_inversions_sets_xor.
    destruct (skip_inversions_sets P set) as [s set']. cbn [fst snd].
    apply parse_syscall_spec_xor. }
  assert (parse_set_str (bangs (S k) ++ P)%string set false
          = match
              parse_tokens (strtok_r_tokens (bangs (S k) ++ P)%string ",")
                set false false
            with
            | None => None
            | Some (set', done) => if done then Some set' else None
            end) as Hn by reflexivity.
  split; [exact Hq|]. split; [|split; [exact Hn|split]].
  - intros r0 Hr0. rewrite Hq, Hr0. cbn [option_map].
    eexists. split; [reflexivity|].
    rewrite !map_map. repeat split; reflexivity.
  - apply strtok_r_tokens_bang.
  - intros r Hr. rewrite Hn in Hr.
    destruct (parse_tokens _ set false false) as [[set' [|]]|] eqn:Ht;
      try discriminate.
    injection Hr as <-. eapply parse_syscall_tokens_not. exact Ht.
Qed.

End SyscallSetProperties.

(** ** The order of the actions *)

Lemma compare_action_priority_nonzero (a b : filter_action) :
  compare_action_priority a b <> 0.
Proof.
  unfold compare_action_priority.
  destruct (priority (type a) =? priority (type b)); cbn [negb].
  - destruct (id a >? id b); discriminate.
  - destruct (priority (type a) <? priority (type b)); discriminate.
Qed.

Lemma compare_action_priority_before (a b : filter_action) :
  (compare_action_priority a b <? 0) = true <-> action_before a b.
Proof.
  unfold compare_action_priority, action_before.
  destruct (Z.eqb_spec (priority (type a)) (priority (type b))) as [He|Hne];
    cbn [negb].
  - rewrite Z.gtb_ltb.
    destruct (Z.ltb_spec (id b) (id a)) as [Hlt|Hge]; cbn; split;
      intros Hx; try discriminate; try reflexivity; lia.
  - destruct (Z.ltb_spec (priority (type a)) (priority (type b)))
      as [Hlt|Hge]; cbn; split;
      intros Hx; try discriminate; try reflexivity; lia.
Qed.

Lemma action_before_asym (a b : filter_action) :
  action_before a b -> action_before b a -> False.
Proof. unfold action_before. lia. Qed.

Lemma action_before_trans (a b c : filter_action) :
  action_before a b -> action_before b c -> action_before a c.
Proof. unfold action_before. lia. Qed.

Lemma action_before_total (a b : filter_action) :
  id a <> id b -> action_before a b \/ action_before b a.
Proof. unfold action_before. lia. Qed.

Lemma qsort_insert_perm {A : Type} (compar : A -> A -> Z) (x : A)
    (l : list A) :
  Permutation (x :: l) (qsort_insert compar x l).
Proof.
  induction l as [|y l IH]; [reflexivity|]. cbn [qsort_insert].
  destruct (compar x y <? 0); [reflexivity|].
  rewrite perm_swap. apply perm_skip, IH.
Qed.

Lemma qsort_perm {A : Type} (compar : A -> A -> Z) (l : list A) :
  Permutation l (qsort compar l).
Proof.
  induction l as [|x l IH]; [reflexivity|]. cbn [qsort].
  rewrite <- qsort_insert_perm. apply perm_skip, IH.
Qed.

Lemma qsort_insert_sorted (x : filter_action) (l : list filter_action) :
  StronglySorted action_before l ->
  Forall (fun y => id x <> id y) l ->
  StronglySorted action_before (qsort_insert compare_action_priority x l).
Proof.
  intros Hs Hx. induction Hs as [|y l Hs IH Hy]; cbn [qsort_insert].
  - repeat constructor.
  - inversion Hx as [|? ? Hxy Hxl]; subst.
    destruct (compare_action_priority x y <? 0) eqn:Hc.
    + apply compare_action_priority_before in Hc.
      constructor; [constructor; assumption|].
      constructor; [exact Hc|].
      eapply Forall_impl; [|exact Hy]. intros z. now apply action_before_trans.
    + assert (action_before y x) as Hyx.
      { destruct (action_before_total x y Hxy) as [H|H]; [|exact H].
        apply compare_action_priority_before in H. congruence. }
      constructor; [now apply IH|].
      eapply Permutation_Forall; [apply qsort_insert_perm|].
      constructor; assumption.
Qed.

Lemma qsort_sorted (l : list filter_action) :
  NoDup (map id l) ->
  StronglySorted action_before (qsort compare_action_priority l).
Proof.
  induction l as [|x l IH]; intros Hnd; [constructor|].
  cbn [qsort]. cbn [map] in Hnd. inversion Hnd as [|? ? Hx Hl]; subst.
  apply qsort_insert_sorted; [now apply IH|].
  eapply Permutation_Forall; [apply qsort_perm|].
  apply Forall_forall. intros y Hy Heq. apply Hx.
  rewrite Heq. now apply in_map.
Qed.

(** A list has one arrangement sorted by an asymmetric order. *)
Lemma sorted_unique (l1 l2 : list filter_action) :
  StronglySorted action_before l1 -> StronglySorted action_before l2 ->
  Permutation l1 l2 -> l1 = l2.
Proof.
  intros H1. revert l2. induction H1 as [|a l1 H1 IH Ha]; intros l2 H2 Hp.
  - apply Permutation_nil in Hp. now subst.
  - destruct H2 as [|b l2 H2 Hb].
    + apply Permutation_sym, Permutation_nil in Hp. discriminate.
    + assert (a = b) as ->.
      { assert (In a (b :: l2)) as Hin1
          by (eapply Permutation_in; [exact Hp|now left]).
        assert (In b (a :: l1)) as Hin2
          by (eapply Permutation_in; [symmetry; exact Hp|now left]).
        destruct Hin1 as [->|Hin1]; [reflexivity|].
        destruct Hin2 as [->|Hin2]; [reflexivity|].
        rewrite Forall_forall in Ha, Hb.
        exfalso. eapply action_before_asym; eauto. }
      f_equal. apply IH; [assumption|].
      eapply Permutation_cons_inv. exact Hp.
Qed.

Lemma sorted_by_position (l : list filter_action) :
  StronglySorted action_before l ->
  forall i j a b, (i < j)%nat ->
    nth_error l i = Some a -> nth_error l j = Some b -> action_before a b.
Proof.
  intros Hs. induction Hs as [|x l Hs IH Hx]; intros i j a b Hij Hi Hj.
  - destruct i; discriminate.
  - destruct j as [|j]; [lia|]. cbn in Hj. destruct i as [|i].
    + cbn in Hi. injection Hi as ->.
      rewrite Forall_forall in Hx. eapply Hx, nth_error_In, Hj.
    + cbn in Hi. eapply IH; [|eassumption..]. lia.
Qed.

Lemma ids_by_position_NoDup (l : list filter_action) :
  ids_by_position l -> NoDup (map id l).
Proof.
  intros Hids. apply NoDup_nth_error. intros i j Hi Heq.
  rewrite length_map in Hi.
  rewrite !nth_error_map in Heq.
  destruct (nth_error l i) as [a|] eqn:Ha;
    [|apply nth_error_None in Ha; lia].
  destruct (nth_error l j) as [b|] eqn:Hb; [|discriminate].
  cbn in Heq. injection Heq as Heq.
  apply Hids in Ha, Hb. lia.
Qed.

Lemma ids_by_position_app (l : list filter_action) (a : filter_action) :
  ids_by_position l -> id a = Z.of_nat (List.length l) ->
  ids_by_position (l ++ [a]).
Proof.
  intros Hl Ha i b Hb.
  destruct (Nat.lt_ge_cases i (List.length l)) as [Hlt|Hge].
  - rewrite nth_error_app1 in Hb by assumption. now apply Hl.
  - rewrite nth_error_app2 in Hb by assumption.
    destruct (i - List.length l)%nat as [|n] eqn:Hn.
    + cbn in Hb. injection Hb as <-. rewrite Ha. f_equal. lia.
    + cbn in Hb. destruct n; discriminate.
Qed.

Lemma nth_error_update_action (l : list filter_action) (i j : nat)
    (f : filter_action -> filter_action) :
  nth_error (update_action i f l) j
  = if Nat.eqb j i then option_map f (nth_error l j) else nth_error l j.
Proof.
  revert i j. induction l as [|x l IH]; intros i j.
  - cbn. destruct j, (Nat.eqb _ i); reflexivity.
  - destruct i as [|i], j as [|j]; cbn [update_action nth_error Nat.eqb];
      try reflexivity.
    apply IH.
Qed.

Lemma ids_by_position_update (l : list filter_action) (i : nat)
    (f : filter_action -> filter_action) :
  (forall a, id (f a) = id a) ->
  ids_by_position l -> ids_by_position (update_action i f l).
Proof.
  intros Hf Hl j a Ha. rewrite nth_error_update_action in Ha.
  destruct (Nat.eqb j i); [|now apply Hl].
  destruct (nth_error l j) as [b|] eqn:Hb; [|discriminate].
  cbn in Ha. injection Ha as <-. rewrite Hf. now apply Hl.
Qed.

Section FilterActionProperties.

Variable qf : qual_flags.

Lemma add_action_ids (t : filter_action_type) (st : action_state) :
  ids_by_position (filter_actions st) ->
  ids_by_position (filter_actions (fst (add_action t st))).
Proof.
  intros Hids. unfold add_action. cbn [fst filter_actions].
  apply ids_by_position_app; [exact Hids|].
  cbn [id]. unfold nfilter_actions. lia.
Qed.

Lemma find_or_add_action_ids (nm : string) (st st' : action_state)
    (i : nat) :
  find_or_add_action qf nm st = Some (st', i) ->
  ids_by_position (filter_actions st) ->
  ids_by_position (filter_actions st').
Proof.
  unfold find_or_add_action. intros H Hids.
  destruct (lookup_filter_action_type qf nm) as [t|]; [|discriminate].
  pose proof (add_action_ids t st Hids) as Hadd.
  destruct (parse_args t);
    try (injection H as <- _; exact Hadd).
  destruct (find_action t 0 (filter_actions st)).
  - injection H as <- _. exact Hids.
  - injection H as <- _. exact Hadd.
Qed.

Lemma inject_path_tracing_ids (st : action_state) :
  ids_by_position (filter_actions st) ->
  exists st',
    inject_path_tracing qf st = Some st'
    /\ ids_by_position (filter_actions st').
Proof.
  intros Hids. unfold inject_path_tracing.
  destruct (find_or_add_action qf "trace" st) as [[st1 i]|] eqn:Hf.
  - eexists. split; [reflexivity|]. cbn [filter_actions].
    apply ids_by_position_update; [reflexivity|].
    eapply find_or_add_action_ids; eassumption.
  - unfold find_or_add_action in Hf.
    change (lookup_filter_action_type qf "trace")
      with (Some (mk_action_type "trace" 0 (QUAL_TRACE qf) parse_null None))
      in Hf.
    cbn [parse_args] in Hf.
    destruct (find_action _ 0 (filter_actions st)); discriminate.
Qed.

(** Every state that registration reaches from the initial one has its
    ids by position. *)
Lemma registered_ids_by_position (names : list string)
    (st : action_state) :
  register_actions qf names (initial_action_state qf) = Some st ->
  ids_by_position (filter_actions st).
Proof.
  unfold register_actions.
  assert (forall acc,
            match acc with
            | Some st0 => ids_by_position (filter_actions st0)
            | None => True
            end ->
            fold_left
              (fun acc nm =>
                 match acc with
                 | None => None
                 | Some st' => option_map fst (find_or_add_action qf nm st')
                 end) names acc = Some st ->
            ids_by_position (filter_actions st)) as Hgen.
  { induction names as [|nm names IH]; intros acc Hacc H.
    - cbn in H. subst acc. exact Hacc.
    - cbn [fold_left] in H. eapply IH; [|exact H].
      destruct acc as [st0|]; [|exact I].
      destruct (find_or_add_action qf nm st0) as [[st1 i]|] eqn:Hf;
        [|exact I].
      cbn [option_map fst]. eapply find_or_add_action_ids; eassumption. }
  apply Hgen. intros i a H. destruct i; discriminate.
Qed.

Lemma sorted_by_comparator (l : list filter_action) :
  StronglySorted (fun a b => compare_action_priority a b < 0) l ->
  StronglySorted action_before l.
Proof.
  intros Hs. induction Hs as [|a l Hs IH Ha]; constructor; [exact IH|].
  eapply Forall_impl; [|exact Ha]. intros b Hb.
  apply compare_action_priority_before, Z.ltb_lt, Hb.
Qed.

(** C6.  Finalisation leaves the actions in the order of priority
    ascending and, within a priority, id descending, which is the order
    events evaluate them in; the comparator is never zero, and that order
    is the only arrangement of the actions it accepts. *)
Theorem finalised_action_order (tracing_paths : bool) (st : action_state) :
  ids_by_position (filter_actions st) ->
  exists st',
    filtering_parsing_finish qf tracing_paths st = Some st'
    /\ StronglySorted action_before (evaluation_order st')
    /\ (forall i j a b, (i < j)%nat ->
          nth_error (evaluation_order st') i = Some a ->
          nth_error (evaluation_order st') j = Some b ->
          priority (type a) <= priority (type b)
          /\ (priority (type a) = priority (type b) -> id b < id a))
    /\ (forall a b, compare_action_priority a b <> 0)
    /\ (forall l,
          Permutation l (filter_actions st') ->
          StronglySorted (fun a b => compare_action_priority a b < 0) l ->
          l = filter_actions st')
    /\ (tracing_paths = false ->
        Permutation (filter_actions st) (filter_actions st')).
Proof.
  intros Hids.
  assert (exists st1,
            (if tracing_paths then inject_path_tracing qf st else Some st)
            = Some st1
            /\ ids_by_position (filter_actions st1)
            /\ (tracing_paths = false -> st1 = st))
    as (st1 & Hst1 & Hids1 & Hsame).
  { destruct tracing_paths.
    - destruct (inject_path_tracing_ids st Hids) as (st1 & H1 & H2).
      exists st1. repeat split; [assumption..|discriminate].
    - exists st. repeat split; assumption. }
  unfold filtering_parsing_finish. rewrite Hst1.
  assert (forall st',
            StronglySorted action_before (filter_actions st') ->
            Permutation (filter_actions st1) (filter_actions st') ->
            StronglySorted action_before (evaluation_order st')
            /\ (forall i j a b, (i < j)%nat ->
                  nth_error (evaluation_order st') i = Some a ->
                  nth_error (evaluation_order st') j = Some b ->
                  priority (type a) <= priority (type b)
                  /\ (priority (type a) = priority (type b) ->
                      id b < id a))
            /\ (forall a b, compare_action_priority a b <> 0)
            /\ (forall l,
                  Permutation l (filter_actions st') ->
                  StronglySorted
                    (fun a b => compare_action_priority a b < 0) l ->
                  l = filter_actions st')
            /\ (tracing_paths = false ->
                Permutation (filter_actions st) (filter_actions st')))
    as Hall.
  { intros st' Hsorted Hperm. split; [exact Hsorted|]. split; [|split].
    - intros i j a b Hij Ha Hb.
      pose proof (sorted_by_position _ Hsorted i j a b Hij Ha Hb) as Hab.
      unfold action_before in Hab. lia.
    - apply compare_action_priority_nonzero.
    - split.
      + intros l Hl Hs. apply sorted_unique;
          [now apply sorted_by_comparator|assumption..].
      + intros Htp. rewrite <- (Hsame Htp). exact Hperm. }
  destruct (nfilter_actions st1 =? 0) eqn:Hn.
  - exists st1. split; [reflexivity|]. apply Hall; [|reflexivity].
    apply Z.eqb_eq in Hn. unfold nfilter_actions in Hn.
    destruct (filter_actions st1); [constructor|discriminate].
  - eexists. split; [reflexivity|]. apply Hall; cbn [filter_actions].
    + apply qsort_sorted, ids_by_position_NoDup, Hids1.
    + apply qsort_perm.
Qed.

End FilterActionProperties.

(** ** The signal set *)

Lemma nth_app_zeros (v : list Z) (k j : nat) :
  nth j (v ++ repeat 0 k) 0 = nth j v 0.
Proof.
  destruct (Nat.lt_ge_cases j (List.length v)) as [Hlt|Hge].
  - now apply app_nth1.
  - rewrite app_nth2 by assumption.
    rewrite nth_repeat, nth_overflow by assumption. reflexivity.
Qed.

Lemma length_update_slot (i : nat) (f : Z -> Z) (v : list Z) :
  List.length (update_slot i f v) = List.length v.
Proof.
  revert i. induction v as [|w v IH]; intros i; [reflexivity|].
  destruct i; cbn; [reflexivity|]. now rewrite IH.
Qed.

Lemma nth_update_slot (i j : nat) (f : Z -> Z) (v : list Z) :
  (i < List.length v)%nat ->
  nth j (update_slot i f v) 0
  = if Nat.eqb j i then f (nth j v 0) else nth j v 0.
Proof.
  revert i j. induction v as [|w v IH]; intros i j Hi; [cbn in Hi; lia|].
  destruct i as [|i], j as [|j]; cbn [update_slot nth Nat.eqb];
    try reflexivity.
  apply IH. cbn in Hi. lia.
Qed.

Lemma reallocate_wf (s : number_set) (n : Z) :
  number_set_wf s -> number_set_wf (reallocate_number_set s n).
Proof.
  unfold number_set_wf, reallocate_number_set. intros Hwf.
  destruct (Z.leb_spec n (nslots s)); [exact Hwf|].
  cbn [vec nslots]. rewrite length_app, repeat_length. lia.
Qed.

Lemma reallocate_nth (s : number_set) (n : Z) (j : nat) :
  nth j (vec (reallocate_number_set s n)) 0 = nth j (vec s) 0.
Proof.
  unfold reallocate_number_set.
  destruct (n <=? nslots s); [reflexivity|].
  cbn [vec]. apply nth_app_zeros.
Qed.

Lemma reallocate_nslots (s : number_set) (n : Z) :
  n <= nslots (reallocate_number_set s n).
Proof.
  unfold reallocate_number_set.
  destruct (Z.leb_spec n (nslots s)); cbn [nslots]; lia.
Qed.

Lemma add_number_to_set_wf (n : Z) (s : number_set) :
  number_set_wf s -> number_set_wf (add_number_to_set n s).
Proof.
  intros Hwf. apply (reallocate_wf s (n / BITS_PER_SLOT + 1)) in Hwf.
  unfold number_set_wf, add_number_to_set in *. cbn [vec nslots].
  unfold number_setbit. rewrite length_update_slot. exact Hwf.
Qed.

Lemma add_number_to_set_nth (n : Z) (s : number_set) (j : nat) :
  number_set_wf s -> 0 <= n ->
  nth j (vec (add_number_to_set n s)) 0
  = if Nat.eqb j (Z.to_nat (n / BITS_PER_SLOT))
    then Z.lor (nth j (vec s) 0) (Z.shiftl 1 (n mod BITS_PER_SLOT))
    else nth j (vec s) 0.
Proof.
  intros Hwf Hn. unfold add_number_to_set, number_setbit. cbn [vec].
  pose proof (reallocate_wf s (n / BITS_PER_SLOT + 1) Hwf) as Hwf'.
  pose proof (reallocate_nslots s (n / BITS_PER_SLOT + 1)) as Hbig.
  unfold number_set_wf in Hwf'.
  assert (0 <= n / BITS_PER_SLOT) by (apply Z.div_pos; [lia|reflexivity]).
  rewrite nth_update_slot, reallocate_nth; [reflexivity|].
  unfold number_slot_t in *. lia.
Qed.

Lemma same_bits_add (n : Z) (a b : number_set) :
  0 <= n -> same_bits a b ->
  same_bits (add_number_to_set n a) (add_number_to_set n b).
Proof.
  intros Hn (Hnot & Hwa & Hwb & Hbits).
  repeat split; try now apply add_number_to_set_wf.
  - now rewrite !add_number_to_set_not.
  - intros j. rewrite !add_number_to_set_nth, Hbits by assumption.
    reflexivity.
Qed.

Lemma same_bits_invert (a b : number_set) :
  same_bits a b -> same_bits (invert_set a) (invert_set b).
Proof.
  intros (Hnot & Hwa & Hwb & Hbits). unfold invert_set.
  repeat split; cbn [vec nslots not]; try assumption. now rewrite Hnot.
Qed.

Lemma same_bits_skip_inversions (s : string) (a b : number_set) :
  same_bits a b ->
  fst (skip_inversions s a) = fst (skip_inversions s b)
  /\ same_bits (snd (skip_inversions s a)) (snd (skip_inversions s b)).
Proof.
  revert a b. induction s as [|c s IH]; intros a b Hab; [now split|].
  cbn [skip_inversions].
  destruct (Ascii.eqb_spec c "!") as [->|Hc].
  - apply IH, same_bits_invert, Hab.
  - destruct c as [[|] [|] [|] [|] [|] [|] [|] [|]]; now split.
Qed.

Lemma same_bits_tokens (func : string -> Z) (tokens : list string)
    (number : Z) (a b : number_set) :
  same_bits a b ->
  match parse_set_tokens func tokens number a,
        parse_set_tokens func tokens number b with
  | Some (na, a'), Some (nb, b') => na = nb /\ same_bits a' b'
  | None, None => True
  | _, _ => False
  end.
Proof.
  revert number a b. induction tokens as [|token tokens IH];
    intros number a b Hab; [now split|].
  cbn [parse_set_tokens].
  destruct (Z.ltb_spec (func token) 0) as [Hneg|Hpos]; [exact I|].
  apply IH, same_bits_add; assumption.
Qed.

Lemma same_bits_parse_set (str : string) (func : string -> Z)
    (qualify_mode : bool) (a b : number_set) :
  same_bits a b ->
  match parse_set str a func qualify_mode,
        parse_set str b func qualify_mode with
  | Some a', Some b' => same_bits a' b'
  | None, None => True
  | _, _ => False
  end.
Proof.
  intros Hab. unfold parse_set.
  assert (fst (if qualify_mode then skip_inversions str a else (str, a))
          = fst (if qualify_mode then skip_inversions str b else (str, b))
          /\ same_bits
               (snd (if qualify_mode then skip_inversions str a
                     else (str, a)))
               (snd (if qualify_mode then skip_inversions str b
                     else (str, b)))) as [Hs Hsets].
  { destruct qualify_mode; [now apply same_bits_skip_inversions|now split]. }
  destruct (if qualify_mode then skip_inversions str a else (str, a))
    as [s a1].
  destruct (if qualify_mode then skip_inversions str b else (str, b))
    as [s' b1].
  cbn [fst snd] in Hs, Hsets. subst s'.
  destruct (String.eqb s "none"); [exact Hsets|].
  destruct (String.eqb s "all"); [now apply same_bits_invert|].
  pose proof (same_bits_tokens func (strtok_r_tokens s ",") (-1) a1 b1 Hsets)
    as Ht.
  destruct (parse_set_tokens func _ (-1) a1) as [[na a2]|],
           (parse_set_tokens func _ (-1) b1) as [[nb b2]|];
    try contradiction; [|exact I].
  destruct Ht as [-> Ht]. destruct (nb <? 0); [exact I|exact Ht].
Qed.

Lemma number_isset_out_of_range (n : Z) (s : number_set) :
  number_set_wf s -> 0 <= n -> nslots s <= n / BITS_PER_SLOT ->
  number_isset n (vec s) = false.
Proof.
  unfold number_set_wf, number_isset. intros Hwf Hn Hout.
  assert (0 <= n / BITS_PER_SLOT) by (apply Z.div_pos; [lia|reflexivity]).
  rewrite nth_overflow by (unfold number_slot_t in *; lia). reflexivity.
Qed.

Lemma same_bits_same_number_set (a b : number_set) :
  same_bits a b -> same_number_set a b.
Proof.
  intros (Hnot & Hwa & Hwb & Hbits). repeat split; [assumption..|].
  intros n Hn.
  assert (forall s, number_set_wf s ->
            is_number_in_set n s = xorb (number_isset n (vec s)) (not s))
    as Hin.
  { intros s Hwf. unfold is_number_in_set.
    destruct (Z.ltb_spec (n / BITS_PER_SLOT) (nslots s)); [reflexivity|].
    now rewrite number_isset_out_of_range. }
  rewrite !Hin by assumption. unfold number_isset.
  now rewrite Hbits, Hnot.
Qed.

Lemma parse_set_tokens_wf (func : string -> Z) (tokens : list string)
    (number number' : Z) (s s' : number_set) :
  number_set_wf s ->
  parse_set_tokens func tokens number s = Some (number', s') ->
  number_set_wf s'.
Proof.
  revert number s. induction tokens as [|token tokens IH];
    intros number s Hwf H.
  - cbn in H. now injection H as _ <-.
  - cbn [parse_set_tokens] in H. destruct (func token <? 0); [discriminate|].
    eapply IH; [|exact H]. now apply add_number_to_set_wf.
Qed.

Lemma skip_inversions_wf (str : string) (s : number_set) :
  number_set_wf s -> number_set_wf (snd (skip_inversions str s)).
Proof.
  revert s. induction str as [|c str IH]; intros s Hwf; [exact Hwf|].
  cbn [skip_inversions].
  destruct c as [[|] [|] [|] [|] [|] [|] [|] [|]]; try exact Hwf.
  apply IH. exact Hwf.
Qed.

Lemma parse_set_wf (str : string) (func : string -> Z)
    (qualify_mode : bool) (s s' : number_set) :
  number_set_wf s -> parse_set str s func qualify_mode = Some s' ->
  number_set_wf s'.
Proof.
  intros Hwf. unfold parse_set.
  assert (number_set_wf
            (snd (if qualify_mode then skip_inversions str s
                  else (str, s)))) as Hwf1
    by (destruct qualify_mode; [now apply skip_inversions_wf|exact Hwf]).
  destruct (if qualify_mode then skip_inversions str s else (str, s))
    as [t s1]. cbn [snd] in Hwf1.
  destruct (String.eqb t "none"); [now intros [= <-]|].
  destruct (String.eqb t "all"); [now intros [= <-]|].
  destruct (parse_set_tokens func _ (-1) s1) as [[n s2]|] eqn:Ht;
    [|discriminate].
  destruct (n <? 0); [discriminate|]. intros [= <-].
  eapply parse_set_tokens_wf; eassumption.
Qed.

Lemma zero_slots_all (v : list Z) (n : nat) :
  (List.length v <= n)%nat -> Forall (fun w => w = 0) (zero_slots n v).
Proof.
  revert n. induction v as [|w v IH]; intros n Hn.
  - destruct n; constructor.
  - destruct n as [|n]; [cbn in Hn; lia|]. cbn [zero_slots].
    constructor; [reflexivity|]. apply IH. cbn in Hn. lia.
Qed.

Lemma length_zero_slots (v : list Z) (n : nat) :
  List.length (zero_slots n v) = List.length v.
Proof.
  revert n. induction v as [|w v IH]; intros [|n]; cbn; auto.
Qed.

Lemma clear_signal_set_zero (s : number_set) :
  number_set_wf s ->
  Forall (fun w => w = 0) (vec (clear_signal_set s))
  /\ not (clear_signal_set s) = false
  /\ number_set_wf (clear_signal_set s).
Proof.
  unfold number_set_wf, clear_signal_set. intros Hwf. cbn [vec nslots not].
  destruct (Z.eqb_spec (nslots s) 0) as [H0|Hn0].
  - destruct (vec s); [repeat split; [constructor|assumption]|].
    cbn in Hwf. lia.
  - repeat split.
    + apply zero_slots_all. unfold number_slot_t in *. lia.
    + rewrite length_zero_slots. exact Hwf.
Qed.

Lemma clear_signal_set_same_bits (s : number_set) :
  number_set_wf s -> same_bits (clear_signal_set s) empty_number_set.
Proof.
  intros Hwf. destruct (clear_signal_set_zero s Hwf) as (Hz & Hnot & Hwf').
  split; [exact Hnot|]. split; [exact Hwf'|]. split; [reflexivity|].
  intros j. cbn [empty_number_set vec].
  destruct (nth_in_or_default j (vec (clear_signal_set s)) 0) as [Hin|Hd].
  - rewrite Forall_forall in Hz. rewrite (Hz _ Hin). now destruct j.
  - rewrite Hd. now destruct j.
Qed.

Section SignalProperties.

Variable signame : Z -> string.

(** C10.  [qualify_signals] first zeroes every slot of [signal_set] and
    resets its inversion flag, so a second signal list leaves the set that
    it alone gives from a fresh set: the same inversion flag, the same
    bits, the same members. *)
Theorem qualify_signals_replaces (spec1 spec2 : string)
    (signal_set : number_set) :
  qualify_signals signame spec1 empty_number_set = Some signal_set ->
  (Forall (fun w => w = 0) (vec (clear_signal_set signal_set))
   /\ not (clear_signal_set signal_set) = false)
  /\ match qualify_signals signame spec2 signal_set,
           qualify_signals signame spec2 empty_number_set with
     | Some final, Some alone => same_number_set final alone
     | None, None => True
     | _, _ => False
     end.
Proof.
  intros H1.
  assert (number_set_wf signal_set) as Hwf.
  { unfold qualify_signals in H1. eapply parse_set_wf; [|exact H1].
    apply clear_signal_set_zero. reflexivity. }
  split; [split; now apply clear_signal_set_zero|].
  unfold qualify_signals.
  assert (same_bits (clear_signal_set signal_set)
            (clear_signal_set empty_number_set)) as Hsame
    by (apply clear_signal_set_same_bits, Hwf).
  pose proof (same_bits_parse_set spec2 (sigstr_to_uint signame) true _ _
                Hsame) as Hp.
  destruct (parse_set spec2 (clear_signal_set signal_set) _ true),
           (parse_set spec2 (clear_signal_set empty_number_set) _ true);
    try exact Hp.
  now apply same_bits_same_number_set.
Qed.

End SignalProperties.

(** * The properties on the sample environment *)

Lemma is_number_in_set_spec_witness :
  0 <= 37
  /\ is_number_in_set 37 {| vec := [5; 32]; nslots := 2; not := true |}
     = false
  /\ is_number_in_set 70 {| vec := [5; 32]; nslots := 2; not := true |}
     = true.
Proof.
  split; [lia|].
  destruct (is_number_in_set_spec
              {| vec := [5; 32]; nslots := 2; not := true |} 37) as [H _];
    [lia|].
  destruct (is_number_in_set_spec
              {| vec := [5; 32]; nslots := 2; not := true |} 70) as [_ H'];
    [lia|].
  split; [rewrite H; reflexivity|apply H'; vm_compute; discriminate].
Defined.

Lemma parse_inject_token_when_witness :
  is_uint "3" = true /\ is_uint "2" = true
  /\ parse_inject_token sample_signame sample_errnoent
       sample_MAX_ERRNO_VALUE sample_NSIG_BYTES sample_RVAL_DEFAULT
       "when=3+2" (inject_opts_default sample_RVAL_DEFAULT) false
     = (true,
        {| first := 3; step := 2; rval := sample_RVAL_DEFAULT; signo := 0;
           init := false |}).
Proof.
  split; [reflexivity|]. split; [reflexivity|].
  destruct (parse_inject_token_when sample_signame sample_errnoent
              sample_MAX_ERRNO_VALUE sample_NSIG_BYTES sample_RVAL_DEFAULT
              "3" "2" (inject_opts_default sample_RVAL_DEFAULT) false
              eq_refl eq_refl) as (_ & _ & (Hok & Hopts) & _).
  apply injective_projections; [exact Hok|apply Hopts; exact Hok].
Defined.

Lemma fault_default_is_error_enosys_witness :
  find_errno_by_name sample_errnoent "ENOSYS" = sample_ENOSYS
  /\ 1 <= sample_ENOSYS
  /\ parse_inject_common_args sample_signame sample_errnoent
       sample_MAX_ERRNO_VALUE sample_NSIG_BYTES sample_RVAL_DEFAULT
       sample_ENOSYS "" true true
     = parse_inject_common_args sample_signame sample_errnoent
         sample_MAX_ERRNO_VALUE sample_NSIG_BYTES sample_RVAL_DEFAULT
         sample_ENOSYS "error=ENOSYS" true true.
Proof.
  assert (find_errno_by_name sample_errnoent "ENOSYS" = sample_ENOSYS)
    as Hname by (vm_compute; reflexivity).
  assert (1 <= sample_ENOSYS) as Hpos by (vm_compute; discriminate).
  split; [exact Hname|]. split; [exact Hpos|].
  exact (proj1 (proj2 (fault_default_is_error_enosys sample_signame
                         sample_errnoent sample_MAX_ERRNO_VALUE
                         sample_NSIG_BYTES sample_RVAL_DEFAULT sample_ENOSYS
                         Hname Hpos))).
Defined.

Lemma sample_action_state_ids :
  ids_by_position (filter_actions sample_action_state).
Proof.
  intros i a H.
  do 5 (destruct i as [|i];
        [cbn in H; injection H as <-; reflexivity|]).
  cbn in H. destruct i; discriminate.
Defined.

Lemma finalised_action_order_witness :
  ids_by_position (filter_actions sample_action_state)
  /\ exists st',
       filtering_parsing_finish sample_qual_flags false sample_action_state
       = Some st'
       /\ StronglySorted action_before (evaluation_order st').
Proof.
  split; [exact sample_action_state_ids|].
  destruct (finalised_action_order sample_qual_flags false
              sample_action_state sample_action_state_ids)
    as (st' & Hfinish & Hsorted & _).
  exists st'. split; assumption.
Defined.

Lemma qualify_signals_replaces_witness :
  qualify_signals sample_signame "40" empty_number_set
  = Some {| vec := [0; 256]; nslots := 2; not := false |}
  /\ match
       qualify_signals sample_signame "INT,kill"
         {| vec := [0; 256]; nslots := 2; not := false |},
       qualify_signals sample_signame "INT,kill" empty_number_set
     with
     | Some final, Some alone => same_number_set final alone
     | None, None => True
     | _, _ => False
     end.
Proof.
  assert (qualify_signals sample_signame "40" empty_number_set
          = Some {| vec := [0; 256]; nslots := 2; not := false |}) as H1
    by (vm_compute; reflexivity).
  split; [exact H1|].
  exact (proj2 (qualify_signals_replaces sample_signame "40" "INT,kill"
                  {| vec := [0; 256]; nslots := 2; not := false |} H1)).
Defined.

(** The sample state is the one the registrations produce, and
    finalisation puts it in the order trace, inject (the later one),
    fault, inject, abbrev. *)
Example sample_action_state_registered :
  register_actions sample_qual_flags
    ["trace"; "abbrev"; "inject"; "fault"; "trace"; "inject"; "abbrev"]
    (initial_action_state sample_qual_flags)
  = Some sample_action_state.
Proof. vm_compute. reflexivity. Qed.

Example sample_action_state_finalised :
  option_map (fun st => map id (filter_actions st))
    (filtering_parsing_finish sample_qual_flags false sample_action_state)
  = Some [0; 4; 3; 2; 1].
Proof. vm_compute. reflexivity. Qed.

(** [trace=!%file] with the file class on system calls 2 and 5 of the
    first personality: the set is inverted and holds bits 2 and 5. *)
Example sample_trace_not_file :
  option_map
    (map (fun s => (vec s, not s, is_number_in_set 2 s,
                    is_number_in_set 4 s)))
    (parse_syscall_filter sample_sysent_vec sample_trace_flags
       sample_regcomp "!%file" true)
  = Some [([36], true, false, true); ([2], true, true, true)].
Proof. vm_compute. reflexivity. Qed.

Example sample_trace_names_and_regex :
  option_map (map vec)
    (parse_syscall_filter sample_sysent_vec sample_trace_flags
       sample_regcomp "open,close,/^re" true)
  = Some [[13]; [2]].
Proof. vm_compute. reflexivity. Qed.

Example sample_non_qualify_inversion_is_fatal :
  parse_syscall_filter sample_sysent_vec sample_trace_flags sample_regcomp
    "!open" false = None.
Proof. vm_compute. reflexivity. Qed.

(** [inject=...:when=2+:error=EIO] *)
Example sample_inject_when_error :
  parse_inject sample_signame sample_errnoent sample_MAX_ERRNO_VALUE
    sample_NSIG_BYTES sample_RVAL_DEFAULT sample_ENOSYS
    "when=2+:error=EIO"
  = Some {| first := 2; step := 1; rval := -5; signo := 0; init := true |}.
Proof. vm_compute. reflexivity. Qed.

Example sample_inject_without_effect_is_fatal :
  parse_inject sample_signame sample_errnoent sample_MAX_ERRNO_VALUE
    sample_NSIG_BYTES sample_RVAL_DEFAULT sample_ENOSYS "when=3+2"
  = None.
Proof. vm_compute. reflexivity. Qed.

Example sample_signals_replace :
  qualify_signals sample_signame "INT,kill"
    {| vec := [0; 256]; nslots := 2; not := false |}
  = Some {| vec := [516; 0]; nslots := 2; not := false |}
  /\ qualify_signals sample_signame "INT,kill" empty_number_set
     = Some {| vec := [516]; nslots := 1; not := false |}.
Proof. split; vm_compute; reflexivity. Qed.

(** * Further properties *)

(** ** Number sets *)

Lemma is_number_in_set_wf (n : Z) (s : number_set) :
  number_set_wf s -> 0 <= n ->
  is_number_in_set n s = xorb (bit_is_set n s) (not s).
Proof.
  intros Hwf Hn. unfold is_number_in_set.
  rewrite number_isset_testbit.
  destruct (Z.ltb_spec (n / BITS_PER_SLOT) (nslots s)); [reflexivity|].
  rewrite <- number_isset_testbit.
  now rewrite number_isset_out_of_range.
Qed.

Lemma slot_and_bit_inj (m n : Z) :
  m / BITS_PER_SLOT = n / BITS_PER_SLOT ->
  m mod BITS_PER_SLOT = n mod BITS_PER_SLOT -> m = n.
Proof.
  intros Hq Hr.
  rewrite (Z.div_mod m BITS_PER_SLOT), (Z.div_mod n BITS_PER_SLOT)
    by discriminate.
  now rewrite Hq, Hr.
Qed.

Lemma bit_is_set_add (m n : Z) (s : number_set) :
  number_set_wf s -> 0 <= n -> 0 <= m ->
  bit_is_set m (add_number_to_set n s) = (m =? n) || bit_is_set m s.
Proof.
  intros Hwf Hn Hm. unfold bit_is_set.
  rewrite add_number_to_set_nth by assumption.
  assert (0 <= m / BITS_PER_SLOT) as Hmq
    by (apply Z.div_pos; [lia|reflexivity]).
  assert (0 <= n / BITS_PER_SLOT) as Hnq
    by (apply Z.div_pos; [lia|reflexivity]).
  assert (0 <= m mod BITS_PER_SLOT < 32) as Hmr
    by (apply Z.mod_pos_bound; reflexivity).
  assert (0 <= n mod BITS_PER_SLOT < 32) as Hnr
    by (apply Z.mod_pos_bound; reflexivity).
  destruct (Nat.eqb_spec (Z.to_nat (m / BITS_PER_SLOT))
              (Z.to_nat (n / BITS_PER_SLOT))) as [Hslot|Hslot].
  - apply Z2Nat.inj in Hslot; [|assumption..].
    rewrite Z.lor_spec, Z.shiftl_1_l, Z.pow2_bits_eqb by lia.
    rewrite orb_comm. f_equal.
    destruct (Z.eqb_spec (n mod BITS_PER_SLOT) (m mod BITS_PER_SLOT))
      as [Hbit|Hbit], (Z.eqb_spec m n) as [Hmn|Hmn];
      try reflexivity.
    + exfalso. apply Hmn. now apply slot_and_bit_inj.
    + exfalso. apply Hbit. now rewrite Hmn.
  - destruct (Z.eqb_spec m n) as [->|_]; [now contradiction Hslot|].
    reflexivity.
Qed.

(** Lookup after insert: after [add_number_to_set(n, set)] the number [n]
    is a member exactly when the set is not inverted, and the membership
    of every other number is what it was. *)
Theorem is_number_in_set_add (m n : Z) (s : number_set) :
  number_set_wf s -> 0 <= n -> 0 <= m ->
  is_number_in_set m (add_number_to_set n s)
  = if m =? n then negb (not s) else is_number_in_set m s.
Proof.
  intros Hwf Hn Hm.
  rewrite !is_number_in_set_wf
    by (assumption || now apply add_number_to_set_wf).
  rewrite bit_is_set_add, add_number_to_set_not by assumption.
  destruct (m =? n); [|reflexivity].
  now destruct (not s).
Qed.

Lemma is_number_in_set_add_witness :
  number_set_wf {| vec := [5]; nslots := 1; not := false |}
  /\ is_number_in_set 40
       (add_number_to_set 40 {| vec := [5]; nslots := 1; not := false |})
     = true
  /\ is_number_in_set 2
       (add_number_to_set 40 {| vec := [5]; nslots := 1; not := false |})
     = true.
Proof.
  assert (number_set_wf {| vec := [5]; nslots := 1; not := false |}) as Hwf
    by reflexivity.
  split; [exact Hwf|]. split.
  - rewrite (is_number_in_set_add 40 40 _ Hwf) by lia. reflexivity.
  - rewrite (is_number_in_set_add 2 40 _ Hwf) by lia. reflexivity.
Defined.

Lemma add_number_to_set_nslots (n : Z) (s : number_set) :
  nslots (add_number_to_set n s)
  = Z.max (nslots s) (n / BITS_PER_SLOT + 1).
Proof.
  unfold add_number_to_set, reallocate_number_set. cbn [nslots].
  destruct (Z.leb_spec (n / BITS_PER_SLOT + 1) (nslots s)); cbn [nslots];
    lia.
Qed.

Lemma lor_single_bit_range (w k : Z) :
  0 <= w < 2 ^ 32 -> 0 <= k < 32 ->
  0 <= Z.lor w (Z.shiftl 1 k) < 2 ^ 32.
Proof.
  intros Hw Hk. rewrite Z.shiftl_1_l.
  assert (0 <= 2 ^ k) as H2 by (apply Z.pow_nonneg; lia).
  split; [apply Z.lor_nonneg; lia|].
  destruct (Z.eq_dec (Z.lor w (2 ^ k)) 0) as [->|Hne]; [reflexivity|].
  apply Z.log2_lt_pow2; [pose proof (Z.lor_nonneg w (2 ^ k)); lia|].
  rewrite Z.log2_lor by lia. rewrite Z.log2_pow2 by lia.
  apply Z.max_lub_lt; [|lia].
  destruct (Z.eq_dec w 0) as [->|Hw0]; [cbn; lia|].
  apply Z.log2_lt_pow2; lia.
Qed.

Lemma update_slot_Forall (P : Z -> Prop) (f : Z -> Z) (i : nat)
    (v : list Z) :
  (forall w, P w -> P (f w)) -> Forall P v -> Forall P (update_slot i f v).
Proof.
  intros Hf Hv. revert i. induction Hv as [|w v Hw Hv IH]; intros i.
  - constructor.
  - destruct i; cbn [update_slot]; constructor; auto.
Qed.

(** What [add_number_to_set] keeps: the vector holds exactly [nslots]
    slots, each a 32-bit value, and [nslots] never shrinks: it becomes the
    larger of its old value and the slot index of the number plus one. *)
Theorem add_number_to_set_invariant (n : Z) (s : number_set) :
  number_set_wf s -> slots_in_range s -> 0 <= n ->
  number_set_wf (add_number_to_set n s)
  /\ slots_in_range (add_number_to_set n s)
  /\ nslots (add_number_to_set n s)
     = Z.max (nslots s) (n / BITS_PER_SLOT + 1)
  /\ not (add_number_to_set n s) = not s.
Proof.
  intros Hwf Hr Hn. split; [now apply add_number_to_set_wf|].
  split; [|split; [apply add_number_to_set_nslots
                  |apply add_number_to_set_not]].
  unfold slots_in_range, add_number_to_set, number_setbit. cbn [vec].
  apply update_slot_Forall.
  - intros w Hw. apply lor_single_bit_range; [exact Hw|].
    apply Z.mod_pos_bound. reflexivity.
  - unfold reallocate_number_set.
    destruct (n / BITS_PER_SLOT + 1 <=? nslots s); [exact Hr|].
    cbn [vec]. apply Forall_app. split; [exact Hr|].
    apply Forall_forall. intros w Hin. apply repeat_spec in Hin. subst w.
    split; [lia|reflexivity].
Qed.

Lemma add_number_to_set_invariant_witness :
  number_set_wf empty_number_set /\ slots_in_range empty_number_set
  /\ 0 <= 70
  /\ nslots (add_number_to_set 70 empty_number_set) = 3.
Proof.
  assert (number_set_wf empty_number_set) as Hwf by reflexivity.
  assert (slots_in_range empty_number_set) as Hr by constructor.
  split; [exact Hwf|]. split; [exact Hr|]. split; [lia|].
  destruct (add_number_to_set_invariant 70 empty_number_set Hwf Hr)
    as (_ & _ & Hn & _); [lia|].
  rewrite Hn. reflexivity.
Defined.

Lemma number_set_ext (a b : number_set) :
  number_set_wf a -> number_set_wf b ->
  nslots a = nslots b -> not a = not b ->
  (forall j, nth j (vec a) 0 = nth j (vec b) 0) -> a = b.
Proof.
  destruct a as [va na ia], b as [vb nb ib].
  unfold number_set_wf. cbn [vec nslots not].
  intros Hwa Hwb Hn Hi Hbits.
  assert (va = vb) as ->.
  { apply (nth_ext _ _ 0 0); [|intros j _; apply Hbits].
    unfold number_slot_t in *. lia. }
  now subst.
Qed.

(** Adding is idempotent, and the order of two additions does not matter:
    the resulting structures are the same, allocation included. *)
Theorem add_number_to_set_idempotent_commutative (m n : Z)
    (s : number_set) :
  number_set_wf s -> 0 <= n -> 0 <= m ->
  add_number_to_set n (add_number_to_set n s) = add_number_to_set n s
  /\ add_number_to_set m (add_number_to_set n s)
     = add_number_to_set n (add_number_to_set m s).
Proof.
  intros Hwf Hn Hm.
  assert (forall k, number_set_wf (add_number_to_set k s)) as Hwf1
    by (intros k; now apply add_number_to_set_wf).
  split; apply number_set_ext;
    try (now repeat apply add_number_to_set_wf).
  - rewrite !add_number_to_set_nslots. lia.
  - now rewrite !add_number_to_set_not.
  - intros j. rewrite !add_number_to_set_nth by auto.
    destruct (Nat.eqb j (Z.to_nat (n / BITS_PER_SLOT))); [|reflexivity].
    rewrite <- Z.lor_assoc, Z.lor_diag. reflexivity.
  - rewrite !add_number_to_set_nslots. lia.
  - now rewrite !add_number_to_set_not.
  - intros j. rewrite !add_number_to_set_nth by auto.
    destruct (Nat.eqb j (Z.to_nat (n / BITS_PER_SLOT))),
             (Nat.eqb j (Z.to_nat (m / BITS_PER_SLOT))); try reflexivity.
    rewrite <- !Z.lor_assoc. f_equal. apply Z.lor_comm.
Qed.

Lemma add_number_to_set_idempotent_commutative_witness :
  number_set_wf empty_number_set
  /\ add_number_to_set 3 (add_number_to_set 40 empty_number_set)
     = add_number_to_set 40 (add_number_to_set 3 empty_number_set).
Proof.
  assert (number_set_wf empty_number_set) as Hwf by reflexivity.
  split; [exact Hwf|].
  apply (add_number_to_set_idempotent_commutative 3 40 _ Hwf); lia.
Defined.

(** ** The generic set parser *)

Lemma is_number_in_set_invert (n : Z) (s : number_set) :
  is_number_in_set n (invert_set s) = negb (is_number_in_set n s).
Proof.
  unfold is_number_in_set, invert_set. cbn [vec nslots not].
  now rewrite negb_xorb_r.
Qed.

Lemma parse_set_tokens_members (func : string -> Z)
    (tokens : list string) (number number' : Z) (s s' : number_set) :
  number_set_wf s ->
  parse_set_tokens func tokens number s = Some (number', s') ->
  forall n, 0 <= n ->
    is_number_in_set n s'
    = if names_number func tokens n then negb (not s)
      else is_number_in_set n s.
Proof.
  revert number s. induction tokens as [|token tokens IH];
    intros number s Hwf H n Hn.
  - cbn in H. injection H as _ <-. reflexivity.
  - cbn [parse_set_tokens] in H.
    destruct (Z.ltb_spec (func token) 0) as [|Hpos]; [discriminate|].
    rewrite (IH _ _ (add_number_to_set_wf _ _ Hwf) H n Hn).
    rewrite add_number_to_set_not.
    rewrite (is_number_in_set_wf n (add_number_to_set (func token) s))
      by (assumption || now apply add_number_to_set_wf).
    rewrite bit_is_set_add, add_number_to_set_not by assumption.
    rewrite (is_number_in_set_wf n s) by assumption.
    unfold names_number. cbn [existsb]. rewrite (Z.eqb_sym n).
    destruct (func token =? n), (existsb _ tokens), (bit_is_set n s),
             (not s); reflexivity.
Qed.

(** What a parsed set contains.  After the leading inversions [none]
    leaves the membership as it is, [all] negates it, and a token list
    makes every number that a token resolves to a member exactly when the
    set is not inverted, leaving the other numbers as they are. *)
Theorem parse_set_members (str : string) (set set' : number_set)
    (func : string -> Z) (qualify_mode : bool) :
  number_set_wf set ->
  parse_set str set func qualify_mode = Some set' ->
  forall n, 0 <= n ->
    let spec := fst (stripped_spec str set qualify_mode) in
    let set1 := snd (stripped_spec str set qualify_mode) in
    is_number_in_set n set'
    = if String.eqb spec "none" then is_number_in_set n set1
      else if String.eqb spec "all" then negb (is_number_in_set n set1)
      else if names_number func (strtok_r_tokens spec ",") n
           then negb (not set1)
           else is_number_in_set n set1.
Proof.
  intros Hwf H n Hn. cbv zeta. unfold parse_set in H.
  assert (number_set_wf (snd (stripped_spec str set qualify_mode)))
    as Hwf1.
  { unfold stripped_spec.
    destruct qualify_mode; [now apply skip_inversions_wf|exact Hwf]. }
  fold (stripped_spec str set qualify_mode) in H.
  destruct (stripped_spec str set qualify_mode) as [spec set1].
  cbn [fst snd] in *.
  destruct (String.eqb spec "none"); [now injection H as <-|].
  destruct (String.eqb spec "all").
  - injection H as <-. apply is_number_in_set_invert.
  - destruct (parse_set_tokens func _ (-1) set1) as [[num s2]|] eqn:Ht;
      [|discriminate].
    destruct (num <? 0); [discriminate|]. injection H as <-.
    eapply parse_set_tokens_members; eassumption.
Qed.

Lemma parse_set_members_witness :
  number_set_wf empty_number_set
  /\ parse_set "!0,33" empty_number_set string_to_uint true
     = Some {| vec := [1; 2]; nslots := 2; not := true |}
  /\ 0 <= 33
  /\ is_number_in_set 33 {| vec := [1; 2]; nslots := 2; not := true |}
     = false.
Proof.
  assert (number_set_wf empty_number_set) as Hwf by reflexivity.
  assert (parse_set "!0,33" empty_number_set string_to_uint true
          = Some {| vec := [1; 2]; nslots := 2; not := true |}) as Hp
    by (vm_compute; reflexivity).
  split; [exact Hwf|]. split; [exact Hp|]. split; [lia|].
  rewrite (parse_set_members _ _ _ _ _ Hwf Hp 33) by lia.
  vm_compute. reflexivity.
Defined.

Lemma parse_set_tokens_result (func : string -> Z)
    (tokens : list string) (number : Z) (s : number_set) :
  match parse_set_tokens func tokens number s with
  | None => exists token, In token tokens /\ func token < 0
  | Some (number', _) =>
      (forall token, In token tokens -> 0 <= func token)
      /\ (tokens = [] -> number' = number)
      /\ (tokens <> [] -> 0 <= number')
  end.
Proof.
  revert number s. induction tokens as [|token tokens IH]; intros number s.
  - cbn. repeat split; [intros ? []|congruence].
  - cbn [parse_set_tokens].
    destruct (Z.ltb_spec (func token) 0) as [Hneg|Hpos].
    + exists token. split; [now left|exact Hneg].
    + specialize (IH (func token) (add_number_to_set (func token) s)).
      destruct (parse_set_tokens func tokens (func token) _)
        as [[num s']|].
      * destruct IH as (Hall & Hnil & Hcons). repeat split.
        -- intros t [<-|Ht]; auto.
        -- discriminate.
        -- intros _. destruct tokens as [|t ts];
             [rewrite Hnil by reflexivity; exact Hpos
             |apply Hcons; discriminate].
      * destruct IH as (t & Ht & Hneg). exists t. split; [now right|].
        exact Hneg.
Qed.

(** When [parse_set] is fatal: exactly when the text left after the
    leading inversions is neither [none] nor [all] and either holds no
    token or holds a token that the resolver refuses. *)
Theorem parse_set_fatal (str : string) (set : number_set)
    (func : string -> Z) (qualify_mode : bool) :
  let spec := fst (stripped_spec str set qualify_mode) in
  parse_set str set func qualify_mode = None
  <-> String.eqb spec "none" = false
      /\ String.eqb spec "all" = false
      /\ (strtok_r_tokens spec "," = []
          \/ exists token,
               In token (strtok_r_tokens spec ",") /\ func token < 0).
Proof.
  cbv zeta. unfold parse_set.
  fold (stripped_spec str set qualify_mode).
  destruct (stripped_spec str set qualify_mode) as [spec set1].
  cbn [fst].
  destruct (String.eqb spec "none");
    [split; [discriminate|intros (H & _); discriminate]|].
  destruct (String.eqb spec "all");
    [split; [discriminate|intros (_ & H & _); discriminate]|].
  pose proof (parse_set_tokens_result func (strtok_r_tokens spec ",") (-1)
                set1) as Hr.
  destruct (parse_set_tokens func _ (-1) set1) as [[num s2]|].
  - destruct Hr as (Hall & Hnil & Hcons).
    destruct (strtok_r_tokens spec ",") as [|t ts] eqn:Ht.
    + rewrite Hnil by reflexivity. cbn. tauto.
    + assert (0 <= num) as Hnum by (apply Hcons; discriminate).
      replace (num <? 0) with false by (symmetry; apply Z.ltb_ge; lia).
      split; [discriminate|]. intros (_ & _ & [Hnil'|(t' & Hin & Hneg)]);
        [discriminate|].
      apply Hall in Hin. lia.
  - split; [|reflexivity]. intros _. repeat split. right. exact Hr.
Qed.

(** ** The syscall set parser *)

Lemma string_to_uint_ex_range (str : string) (max_val : Z)
    (accepted_ending : string) :
  0 <= max_val ->
  -1 <= fst (string_to_uint_ex str max_val accepted_ending) <= max_val.
Proof.
  intros Hmax. unfold string_to_uint_ex.
  destruct str as [|c str]; [cbn; lia|].
  destruct (is_digit c) eqn:Hc; [|cbn; lia].
  assert (forall s acc, 0 <= acc -> 0 <= fst (scan_digits acc s)) as Hscan.
  { induction s as [|d s IH]; intros acc Hacc; [exact Hacc|].
    cbn [scan_digits]. destruct (is_digit d) eqn:Hd; [|exact Hacc].
    apply IH. pose proof (digit_value_nonneg d Hd). lia. }
  specialize (Hscan (String c str) 0 (Z.le_refl 0)).
  destruct (scan_digits 0 (String c str)) as [val end_]. cbn [fst] in Hscan.
  destruct (Z.ltb_spec max_val val); [cbn; lia|].
  destruct end_ as [|e end_]; [cbn; lia|].
  destruct (strchr accepted_ending e); cbn; lia.
Qed.

Lemma string_to_uint_range (str : string) :
  -1 <= string_to_uint str <= INT_MAX.
Proof.
  unfold string_to_uint, string_to_uint_upto.
  apply string_to_uint_ex_range. discriminate.
Qed.

Lemma skip_question_marks_true (token : string) :
  snd (skip_question_marks token true) = true.
Proof.
  induction token as [|c token IH]; [reflexivity|].
  cbn [skip_question_marks].
  destruct c as [[|] [|] [|] [|] [|] [|] [|] [|]]; try reflexivity.
  exact IH.
Qed.

Lemma for_each_syscall_total (sel : struct_sysent -> option bool)
    (ents : list struct_sysent) (i : Z) (s : number_set) (found : bool) :
  (forall e, sel e <> None) ->
  exists r, for_each_syscall sel i ents s found = Some r.
Proof.
  intros Hsel. revert i s found.
  induction ents as [|e ents IH]; intros i s found; [cbn; eauto|].
  cbn [for_each_syscall]. destruct (sel e) as [[|]|] eqn:He; auto.
  now apply Hsel in He.
Qed.

Lemma for_each_personality_total
    (body : nat -> number_set -> bool -> option (number_set * bool))
    (set : list number_set) (p : nat) (flag : bool) :
  (forall q s f, exists r, body q s f = Some r) ->
  exists r, for_each_personality body p set flag = Some r.
Proof.
  intros Hbody. revert p flag.
  induction set as [|s set IH]; intros p flag; [cbn; eauto|].
  cbn [for_each_personality].
  destruct (Hbody p s flag) as [[s' f'] ->].
  destruct (IH (S p) f') as [[r f''] ->]. eauto.
Qed.

Lemma lookup_class_from_bare (table : list (string * Z)) (s : string) :
  starts_with_percent s = false -> lookup_class_from table s false = 0.
Proof.
  intros Hs. induction table as [|[nm value] table IH]; [reflexivity|].
  cbn [lookup_class_from]. rewrite Hs. exact IH.
Qed.

Lemma lookup_class_from_percent (table : list (string * Z)) (s : string) :
  starts_with_percent s = true ->
  lookup_class_from table s false = lookup_class_from table s true.
Proof.
  intros Hs. induction table as [|[nm value] table IH]; [reflexivity|].
  cbn [lookup_class_from]. rewrite Hs. cbn [negb andb].
  destruct (String.eqb s nm); [reflexivity|exact IH].
Qed.

Section SyscallSetFurther.

Variable sysent_vec : list (list struct_sysent).
Variable tf : trace_flags.
Variable regcomp : string -> option (string -> regexec_rc).

(** Class names and the mode.  Without qualify mode a name that does not
    start with '%' is no class, so the token is left to the name lookup;
    a name that starts with '%' is the same class in both modes; and in
    qualify mode each bare class name is the class of its '%' form. *)
Theorem lookup_class_modes (s : string) (set : list number_set) :
  (starts_with_percent s = false ->
   lookup_class tf s false = 0
   /\ parse_syscall_class sysent_vec tf s set false = Some (set, false))
  /\ (starts_with_percent s = true ->
      lookup_class tf s false = lookup_class tf s true)
  /\ (In s bare_class_names ->
      lookup_class tf s true = lookup_class tf (String "%" s) true
      /\ lookup_class tf (String "%" s) false
         = lookup_class tf (String "%" s) true).
Proof.
  split; [|split].
  - intros Hs.
    assert (lookup_class tf s false = 0) as H0
      by now apply lookup_class_from_bare.
    split; [exact H0|]. unfold parse_syscall_class. now rewrite H0.
  - apply lookup_class_from_percent.
  - intros Hin. cbn in Hin.
    repeat (destruct Hin as [<-|Hin]; [split; reflexivity|]).
    destruct Hin.
Qed.

Lemma parse_syscall_number_total (s : string) (set : list number_set) :
  exists r, parse_syscall_number sysent_vec s set = Some r.
Proof.
  unfold parse_syscall_number.
  destruct (string_to_uint s <? 0); [eauto|].
  apply for_each_personality_total. intros q sp f.
  destruct (to_uint (string_to_uint s) >=? nsyscall_vec sysent_vec q);
    eauto.
Qed.

Lemma parse_syscall_class_total (s : string) (set : list number_set)
    (qualify_mode : bool) :
  exists r, parse_syscall_class sysent_vec tf s set qualify_mode = Some r.
Proof.
  unfold parse_syscall_class.
  destruct (lookup_class tf s qualify_mode =? 0); [eauto|].
  match goal with
  | |- context [for_each_personality ?b ?p ?l ?f] =>
      destruct (for_each_personality_total b l p f) as [[r fl] ->]
  end; [|eauto].
  intros q sp f. apply for_each_syscall_total.
  intros e. destruct (sys_name e); discriminate.
Qed.

Lemma parse_syscall_name_total (s : string) (set : list number_set) :
  exists r, parse_syscall_name sysent_vec s set = Some r.
Proof.
  unfold parse_syscall_name. apply for_each_personality_total.
  intros q sp f. apply for_each_syscall_total.
  intros e. destruct (sys_name e); discriminate.
Qed.

(** A token that starts with '?' is never refused: [parse_syscall]
    reports success whatever the rest names, and unless the rest (after
    further '?') is a regular expression the call returns. *)
Theorem parse_syscall_ignore_fail (token : string)
    (set : list number_set) (qualify_mode : bool) :
  (forall r ok,
     parse_syscall sysent_vec tf regcomp (String "?" token) set
       qualify_mode = Some (r, ok) -> ok = true)
  /\ (starts_with_slash (fst (skip_question_marks token true)) = false ->
      exists r,
        parse_syscall sysent_vec tf regcomp (String "?" token) set
          qualify_mode = Some (r, true)).
Proof.
  unfold parse_syscall.
  change (skip_question_marks (String "?" token) false)
    with (skip_question_marks token true).
  pose proof (skip_question_marks_true token) as Hign.
  destruct (skip_question_marks token true) as [tok ign].
  cbn [fst snd] in *. subst ign.
  assert (forall a r ok, or_ignore_fail a true = Some (r, ok) -> ok = true)
    as Hor.
  { intros [[r1 ok1]|] r ok H; [|discriminate]. cbn in H.
    rewrite orb_true_r in H. congruence. }
  assert (forall a, (exists r, a = Some r) ->
            exists r, or_ignore_fail a true = Some (r, true)) as Hor'.
  { intros a [[r ok] ->]. cbn. rewrite orb_true_r. eauto. }
  destruct (parse_syscall_class_total tok set qualify_mode)
    as [[set' cls] Hcls].
  split.
  - intros r ok. destruct tok as [|c rest].
    + rewrite Hcls. destruct cls; [congruence|apply Hor].
    + destruct (is_digit c); [apply Hor|].
      destruct (Ascii.eqb c "/"); [apply Hor|].
      rewrite Hcls. destruct cls; [congruence|apply Hor].
  - intros Hslash. destruct tok as [|c rest].
    + rewrite Hcls. destruct cls; [eauto|].
      apply Hor', parse_syscall_name_total.
    + destruct (is_digit c); [apply Hor', parse_syscall_number_total|].
      destruct (Ascii.eqb_spec c "/") as [->|_]; [discriminate|].
      rewrite Hcls. destruct cls; [eauto|].
      apply Hor', parse_syscall_name_total.
Qed.

End SyscallSetFurther.

(** ** What the syscall set parser adds *)

Lemma bits_grow_refl (bound : Z) (s : number_set) :
  number_set_wf s -> bits_grow_within bound s s.
Proof. intros Hwf. repeat split; auto. Qed.

Lemma bits_grow_trans (bound : Z) (a b c : number_set) :
  bits_grow_within bound a b -> bits_grow_within bound b c ->
  bits_grow_within bound a c.
Proof.
  intros (_ & Hab & Hba) (Hwf & Hbc & Hcb). repeat split; auto.
  intros m Hm Hc. destruct (Hcb m Hm Hc); auto.
Qed.

Lemma bits_grow_add (bound n : Z) (s : number_set) :
  number_set_wf s -> 0 <= n < bound ->
  bits_grow_within bound s (add_number_to_set n s).
Proof.
  intros Hwf Hn. split; [now apply add_number_to_set_wf|].
  split; intros m Hm; rewrite bit_is_set_add by (assumption || lia).
  - intros ->. apply orb_true_r.
  - intros H. apply orb_prop in H as [H|H]; [|now left].
    apply Z.eqb_eq in H. right. lia.
Qed.

Lemma bits_grow_invert (bound : Z) (s : number_set) :
  number_set_wf s -> bits_grow_within bound s (invert_set s).
Proof. intros Hwf. repeat split; auto. Qed.

Lemma for_each_syscall_grow (sel : struct_sysent -> option bool)
    (ents : list struct_sysent) (i : Z) (s s' : number_set)
    (found found' : bool) :
  number_set_wf s -> 0 <= i ->
  for_each_syscall sel i ents s found = Some (s', found') ->
  bits_grow_within (i + Z.of_nat (List.length ents)) s s'.
Proof.
  revert i s found. induction ents as [|e ents IH];
    intros i s found Hwf Hi H.
  - cbn in H. injection H as <- _. now apply bits_grow_refl.
  - cbn [for_each_syscall] in H.
    replace (i + Z.of_nat (List.length (e :: ents)))
      with (i + 1 + Z.of_nat (List.length ents))
      by (cbn [List.length]; lia).
    destruct (sel e) as [[|]|]; [| |discriminate].
    + apply (bits_grow_trans _ _ (add_number_to_set i s));
        [apply bits_grow_add; [assumption|lia]|].
      eapply IH; [now apply add_number_to_set_wf|lia|exact H].
    + eapply IH; [assumption|lia|exact H].
Qed.

Lemma sets_grow_refl (bound : nat -> Z) (set : list number_set) :
  Forall number_set_wf set -> sets_grow_within bound set set.
Proof.
  intros Hwf. split; [reflexivity|]. intros p sp Hp.
  exists sp. split; [exact Hp|]. apply bits_grow_refl.
  rewrite Forall_forall in Hwf. eapply Hwf, nth_error_In, Hp.
Qed.

Lemma sets_grow_trans (bound : nat -> Z) (a b c : list number_set) :
  sets_grow_within bound a b -> sets_grow_within bound b c ->
  sets_grow_within bound a c.
Proof.
  intros (Hlab & Hab) (Hlbc & Hbc). split; [congruence|].
  intros p sp Hp. destruct (Hab p sp Hp) as (bp & Hbp & Hg1).
  destruct (Hbc p bp Hbp) as (cp & Hcp & Hg2).
  exists cp. split; [exact Hcp|]. eapply bits_grow_trans; eassumption.
Qed.

Lemma sets_grow_wf (bound : nat -> Z) (set r : list number_set) :
  sets_grow_within bound set r -> Forall number_set_wf r.
Proof.
  intros (Hlen & Hg). apply Forall_forall. intros rp Hin.
  apply In_nth_error in Hin as [p Hp].
  assert (p < List.length set)%nat as Hlt
    by (rewrite <- Hlen; apply nth_error_Some; congruence).
  apply nth_error_Some in Hlt.
  destruct (nth_error set p) as [sp|] eqn:Hsp; [|contradiction].
  destruct (Hg p sp Hsp) as (rp' & Hrp' & Hwf & _). congruence.
Qed.

Lemma sets_grow_invert (bound : nat -> Z) (set : list number_set) :
  Forall number_set_wf set ->
  sets_grow_within bound set (invert_sets set).
Proof.
  intros Hwf. unfold invert_sets. split; [apply length_map|].
  intros p sp Hp. exists (invert_set sp). rewrite nth_error_map, Hp.
  split; [reflexivity|]. apply bits_grow_invert.
  rewrite Forall_forall in Hwf. eapply Hwf, nth_error_In, Hp.
Qed.

Lemma for_each_personality_grow (bound : nat -> Z)
    (body : nat -> number_set -> bool -> option (number_set * bool))
    (set r : list number_set) (p : nat) (flag flag' : bool) :
  (forall q s f s' f', number_set_wf s -> body q s f = Some (s', f') ->
     bits_grow_within (bound q) s s') ->
  Forall number_set_wf set ->
  for_each_personality body p set flag = Some (r, flag') ->
  sets_grow_within (fun q => bound (p + q)%nat) set r.
Proof.
  intros Hbody Hwf. revert p flag r flag'.
  induction Hwf as [|s set Hs Hwf IH]; intros p flag r flag' H.
  - cbn in H. injection H as <- _. split; [reflexivity|].
    intros q sp Hq. destruct q; discriminate.
  - cbn [for_each_personality] in H.
    destruct (body p s flag) as [[s1 f1]|] eqn:Hb; [|discriminate].
    destruct (for_each_personality body (S p) set f1) as [[r1 f2]|] eqn:Hr;
      [|discriminate].
    injection H as <- _. apply IH in Hr as (Hlen & Hg).
    split; [cbn; congruence|]. intros q sp Hq. destruct q as [|q].
    + cbn in Hq. injection Hq as <-. exists s1. split; [reflexivity|].
      rewrite Nat.add_0_r. eapply Hbody; eassumption.
    + cbn in Hq. destruct (Hg q sp Hq) as (rp & Hrp & Hgrow).
      exists rp. split; [exact Hrp|].
      now rewrite Nat.add_succ_r.
Qed.

Section SyscallSetBits.

Variable sysent_vec : list (list struct_sysent).
Variable tf : trace_flags.
Variable regcomp : string -> option (string -> regexec_rc).

Local Abbreviation bound := (nsyscall_vec sysent_vec).

Lemma table_scan_grow (sel : struct_sysent -> option bool)
    (set r : list number_set) (flag flag' : bool) :
  Forall number_set_wf set ->
  for_each_personality
    (fun p sp found =>
       for_each_syscall sel 0 (nth p sysent_vec []) sp found)
    0 set flag = Some (r, flag') ->
  sets_grow_within bound set r.
Proof.
  intros Hwf H.
  apply (for_each_personality_grow bound) in H; [exact H| |exact Hwf].
  intros q s f s' f' Hs Hb. cbv beta in Hb.
  apply for_each_syscall_grow in Hb; [exact Hb|exact Hs|lia].
Qed.

Lemma parse_syscall_grow (token : string) (set r : list number_set)
    (qualify_mode ok : bool) :
  Forall number_set_wf set ->
  parse_syscall sysent_vec tf regcomp token set qualify_mode
  = Some (r, ok) ->
  sets_grow_within bound set r.
Proof.
  intros Hwf.
  assert (forall tok set r ok, Forall number_set_wf set ->
            parse_syscall_name sysent_vec tok set = Some (r, ok) ->
            sets_grow_within bound set r) as Hname.
  { intros tok set0 r0 ok0 Hwf0 H. unfold parse_syscall_name in H.
    eapply table_scan_grow; eassumption. }
  assert (forall tok set r ok, Forall number_set_wf set ->
            parse_syscall_class sysent_vec tf tok set qualify_mode
            = Some (r, ok) -> sets_grow_within bound set r) as Hclass.
  { intros tok set0 r0 ok0 Hwf0 H. unfold parse_syscall_class in H.
    destruct (lookup_class tf tok qualify_mode =? 0).
    - injection H as <- _. now apply sets_grow_refl.
    - destruct (for_each_personality _ 0 set0 false) as [[r1 f1]|] eqn:Hr;
        [|discriminate].
      injection H as <- _. eapply table_scan_grow; eassumption. }
  assert (forall tok set r ok, Forall number_set_wf set ->
            parse_syscall_number sysent_vec tok set = Some (r, ok) ->
            sets_grow_within bound set r) as Hnumber.
  { intros tok set0 r0 ok0 Hwf0 H. unfold parse_syscall_number in H.
    destruct (string_to_uint tok <? 0).
    - injection H as <- _. now apply sets_grow_refl.
    - apply (for_each_personality_grow bound) in H;
        [exact H| |exact Hwf0].
      intros q s f s' f' Hs Hb. cbv beta in Hb.
      destruct (Z.geb_spec (to_uint (string_to_uint tok)) (bound q));
        injection Hb as <- _; [now apply bits_grow_refl|].
      apply bits_grow_add; [exact Hs|].
      split; [|lia]. apply Z.mod_pos_bound. reflexivity. }
  assert (forall tok set r ok, Forall number_set_wf set ->
            parse_syscall_regex sysent_vec regcomp tok set = Some (r, ok) ->
            sets_grow_within bound set r) as Hregex.
  { intros tok set0 r0 ok0 Hwf0 H. unfold parse_syscall_regex in H.
    destruct (regcomp tok); [|discriminate].
    eapply table_scan_grow; eassumption. }
  assert (forall a ign r ok,
            or_ignore_fail a ign = Some (r, ok) ->
            exists ok', a = Some (r, ok')) as Hor.
  { intros [[r1 ok1]|] ign r0 ok0 H; [|discriminate].
    injection H as <- _. eauto. }
  unfold parse_syscall.
  destruct (skip_question_marks token false) as [tok ignore_fail].
  assert (match
            parse_syscall_class sysent_vec tf tok set qualify_mode
          with
          | None => None
          | Some (set', true) => Some (set', true)
          | Some (set', false) =>
              or_ignore_fail (parse_syscall_name sysent_vec tok set')
                ignore_fail
          end = Some (r, ok) -> sets_grow_within bound set r) as Hcn.
  { destruct (parse_syscall_class sysent_vec tf tok set qualify_mode)
      as [[set' [|]]|] eqn:Hc; [| |discriminate].
    - intros H. injection H as <- _. eauto.
    - intros H. apply Hor in H as [ok' H].
      apply Hclass in Hc; [|exact Hwf].
      eapply sets_grow_trans; [exact Hc|].
      eapply Hname; [|exact H]. eapply sets_grow_wf, Hc. }
  destruct tok as [|c rest]; [exact Hcn|].
  destruct (is_digit c).
  - intros H. apply Hor in H as [ok' H]. eauto.
  - destruct (Ascii.eqb c "/"); [|exact Hcn].
    intros H. apply Hor in H as [ok' H]. eauto.
Qed.

Lemma parse_syscall_tokens_grow (tokens : list string)
    (set r : list number_set) (done done' qualify_mode : bool) :
  Forall number_set_wf set ->
  parse_syscall_tokens sysent_vec tf regcomp tokens set done qualify_mode
  = Some (r, done') ->
  sets_grow_within bound set r.
Proof.
  revert set done. induction tokens as [|token tokens IH];
    intros set done Hwf H.
  - cbn in H. injection H as <- _. now apply sets_grow_refl.
  - cbn [parse_syscall_tokens] in H.
    destruct (parse_syscall sysent_vec tf regcomp token set qualify_mode)
      as [[set' [|]]|] eqn:Ht; try discriminate.
    apply parse_syscall_grow in Ht; [|exact Hwf].
    eapply sets_grow_trans; [exact Ht|].
    eapply IH; [|exact H]. eapply sets_grow_wf, Ht.
Qed.

Lemma skip_inversions_sets_grow (s : string) (set : list number_set) :
  Forall number_set_wf set ->
  sets_grow_within bound set (snd (skip_inversions_sets s set)).
Proof.
  revert set. induction s as [|c s IH]; intros set Hwf;
    [now apply sets_grow_refl|].
  cbn [skip_inversions_sets].
  destruct c as [[|] [|] [|] [|] [|] [|] [|] [|]];
    try (now apply sets_grow_refl).
  eapply sets_grow_trans; [apply sets_grow_invert, Hwf|].
  apply IH. apply (sets_grow_wf bound set), sets_grow_invert, Hwf.
Qed.

(** The parser only ever adds system call numbers of the personality.
    Whatever the text, the sets that [parse_syscall_set] returns are as
    many as it was given, each keeps every bit it had, and every bit
    added to the set of personality [p] is below [nsyscall_vec[p]]. *)
Theorem parse_syscall_set_adds_valid_numbers (str : string)
    (set r : list number_set) (qualify_mode : bool) :
  Forall number_set_wf set ->
  parse_syscall_set sysent_vec tf regcomp str set qualify_mode = Some r ->
  sets_grow_within (nsyscall_vec sysent_vec) set r.
Proof.
  intros Hwf H. unfold parse_syscall_set in H.
  assert (sets_grow_within bound set
            (snd (if qualify_mode then skip_inversions_sets str set
                  else (str, set)))) as Hskip
    by (destruct qualify_mode;
        [now apply skip_inversions_sets_grow|now apply sets_grow_refl]).
  destruct (if qualify_mode then skip_inversions_sets str set
            else (str, set)) as [s set1].
  cbn [snd] in Hskip. eapply sets_grow_trans; [exact Hskip|].
  pose proof (sets_grow_wf _ _ _ Hskip) as Hwf1.
  unfold parse_syscall_spec in H.
  destruct (String.eqb s "none");
    [injection H as <-; now apply sets_grow_refl|].
  destruct (String.eqb s "all");
    [injection H as <-; now apply sets_grow_invert|].
  destruct (parse_syscall_tokens _ _ _ _ set1 false qualify_mode)
    as [[set2 [|]]|] eqn:Ht; try discriminate.
  injection H as <-. eapply parse_syscall_tokens_grow; eassumption.
Qed.

End SyscallSetBits.

Lemma parse_syscall_set_adds_valid_numbers_witness :
  Forall number_set_wf (repeat empty_number_set 2)
  /\ exists r,
       parse_syscall_set sample_sysent_vec sample_trace_flags
         sample_regcomp "!%file,1,/^re" (repeat empty_number_set 2) true
       = Some r
       /\ sets_grow_within (nsyscall_vec sample_sysent_vec)
            (repeat empty_number_set 2) r.
Proof.
  assert (Forall number_set_wf (repeat empty_number_set 2)) as Hwf
    by (repeat constructor).
  split; [exact Hwf|].
  destruct (parse_syscall_set sample_sysent_vec sample_trace_flags
              sample_regcomp "!%file,1,/^re" (repeat empty_number_set 2)
              true) as [r|] eqn:Hp; [|vm_compute in Hp; discriminate].
  exists r. split; [reflexivity|].
  exact (parse_syscall_set_adds_valid_numbers sample_sysent_vec
           sample_trace_flags sample_regcomp _ _ _ _ Hwf Hp).
Defined.

(** ** Names, classes and numbers *)

Lemma selected_at_nil (sel : struct_sysent -> bool) (k : Z) :
  selected_at sel [] k = false.
Proof. unfold selected_at. now destruct (Z.to_nat k). Qed.

Lemma selected_at_cons (sel : struct_sysent -> bool) (e : struct_sysent)
    (ents : list struct_sysent) (k : Z) :
  selected_at sel (e :: ents) k
  = if k <=? 0 then sel e else selected_at sel ents (k - 1).
Proof.
  unfold selected_at. destruct (Z.leb_spec k 0) as [Hk|Hk].
  - replace (Z.to_nat k) with O by lia. reflexivity.
  - replace (Z.to_nat k) with (S (Z.to_nat (k - 1))) by lia. reflexivity.
Qed.

Lemma for_each_syscall_ext (sel sel' : struct_sysent -> option bool)
    (ents : list struct_sysent) (i : Z) (s : number_set) (found : bool) :
  (forall e, sel e = sel' e) ->
  for_each_syscall sel i ents s found
  = for_each_syscall sel' i ents s found.
Proof.
  intros Hext. revert i s found.
  induction ents as [|e ents IH]; intros i s found; [reflexivity|].
  cbn [for_each_syscall]. rewrite Hext.
  destruct (sel' e) as [[|]|]; auto.
Qed.

Lemma for_each_syscall_selected (sel : struct_sysent -> bool)
    (ents : list struct_sysent) (i : Z) (s : number_set) (found : bool) :
  number_set_wf s -> 0 <= i ->
  exists s',
    for_each_syscall (fun e => Some (sel e)) i ents s found
    = Some (s', found || existsb sel ents)
    /\ number_set_wf s' /\ not s' = not s
    /\ forall m, 0 <= m ->
         bit_is_set m s'
         = bit_is_set m s || ((i <=? m) && selected_at sel ents (m - i)).
Proof.
  revert i s found. induction ents as [|e ents IH];
    intros i s found Hwf Hi.
  - exists s. cbn. rewrite orb_false_r. repeat split; auto.
    intros m Hm. now rewrite selected_at_nil, andb_false_r, orb_false_r.
  - cbn [for_each_syscall existsb]. destruct (sel e) eqn:He.
    + destruct (IH (i + 1) (add_number_to_set i s) true
                  (add_number_to_set_wf _ _ Hwf) ltac:(lia))
        as (s' & Hs' & Hwf' & Hnot & Hbits).
      exists s'. rewrite Hs', orb_true_r. cbn [orb].
      split; [reflexivity|]. split; [exact Hwf'|].
      split; [now rewrite Hnot, add_number_to_set_not|].
      intros m Hm. rewrite Hbits, bit_is_set_add by assumption.
      rewrite selected_at_cons, He.
      destruct (Z.eqb_spec m i) as [->|Hne].
      * rewrite Z.leb_refl, Z.sub_diag. cbn. now rewrite orb_true_r.
      * replace (m - (i + 1)) with (m - i - 1) by lia.
        destruct (Z.leb_spec i m), (Z.leb_spec (i + 1) m),
                 (Z.leb_spec (m - i) 0); try lia; cbn;
          rewrite ?orb_false_r; reflexivity.
    + destruct (IH (i + 1) s found Hwf ltac:(lia))
        as (s' & Hs' & Hwf' & Hnot & Hbits).
      exists s'. rewrite Hs'. cbn [orb].
      repeat split; auto.
      intros m Hm. rewrite Hbits by assumption. f_equal.
      rewrite selected_at_cons, He.
      replace (m - (i + 1)) with (m - i - 1) by lia.
      destruct (Z.leb_spec i m), (Z.leb_spec (i + 1) m),
               (Z.leb_spec (m - i) 0); try lia; cbn; reflexivity.
Qed.

Lemma for_each_syscall_added (sel : struct_sysent -> bool)
    (ents : list struct_sysent) (s : number_set) (found : bool) :
  number_set_wf s ->
  exists s',
    for_each_syscall (fun e => Some (sel e)) 0 ents s found
    = Some (s', found || existsb sel ents)
    /\ added_where sel ents s s'.
Proof.
  intros Hwf.
  destruct (for_each_syscall_selected sel ents 0 s found Hwf (Z.le_refl 0))
    as (s' & Hs' & Hwf' & Hnot & Hbits).
  exists s'. split; [exact Hs'|]. repeat split; [assumption..|].
  intros m Hm. rewrite !is_number_in_set_wf, Hbits, Hnot by assumption.
  replace (0 <=? m) with true by (symmetry; apply Z.leb_le; lia).
  rewrite Z.sub_0_r. cbn [andb].
  destruct (selected_at sel ents m); [|now rewrite orb_false_r].
  rewrite orb_true_r. now destruct (not s).
Qed.

Lemma for_each_personality_related
    (R : nat -> number_set -> number_set -> Prop) (h : nat -> bool)
    (body : nat -> number_set -> bool -> option (number_set * bool))
    (set : list number_set) (p : nat) (flag : bool) :
  (forall q s f, number_set_wf s ->
     exists s', body q s f = Some (s', f || h q) /\ R q s s') ->
  Forall number_set_wf set ->
  exists r,
    for_each_personality body p set flag
    = Some (r, flag || existsb h (seq p (List.length set)))
    /\ List.length r = List.length set
    /\ forall q sp, nth_error set q = Some sp ->
         exists rp, nth_error r q = Some rp /\ R (p + q)%nat sp rp.
Proof.
  intros Hbody Hwf. revert p flag.
  induction Hwf as [|s set Hs Hwf IH]; intros p flag.
  - exists []. cbn. rewrite orb_false_r. repeat split.
    intros q sp Hq. destruct q; discriminate.
  - destruct (Hbody p s flag Hs) as (s' & Hb & HR).
    destruct (IH (S p) (flag || h p)) as (r & Hr & Hlen & Hnth).
    exists (s' :: r). cbn [for_each_personality List.length seq existsb].
    rewrite Hb, Hr, orb_assoc. split; [reflexivity|].
    split; [cbn; congruence|]. intros q sp Hq. destruct q as [|q].
    + cbn in Hq. injection Hq as <-. exists s'.
      rewrite Nat.add_0_r. now split.
    + cbn in Hq. destruct (Hnth q sp Hq) as (rp & Hrp & HRp).
      exists rp. rewrite Nat.add_succ_r. now split.
Qed.

Section SyscallSetLookups.

Variable sysent_vec : list (list struct_sysent).
Variable tf : trace_flags.


(** Class lookup.  A token that is no class name in the mode is refused
    with the sets untouched; for a class, [parse_syscall_class] adds in
    every personality exactly the numbers of the named entries whose flags
    hold every bit of the class, and succeeds even if there is none. *)
Theorem parse_syscall_class_spec (s : string) (set : list number_set)
    (qualify_mode : bool) :
  Forall number_set_wf set ->
  let n := lookup_class tf s qualify_mode in
  if n =? 0 then
    parse_syscall_class sysent_vec tf s set qualify_mode = Some (set, false)
  else
    exists r,
      parse_syscall_class sysent_vec tf s set qualify_mode = Some (r, true)
      /\ List.length r = List.length set
      /\ forall p sp, nth_error set p = Some sp ->
           exists rp,
             nth_error r p = Some rp
             /\ added_where (has_class n) (nth p sysent_vec []) sp rp.
Proof.
  intros Hwf. cbv zeta. unfold parse_syscall_class.
  destruct (lookup_class tf s qualify_mode =? 0); [reflexivity|].
  destruct (for_each_personality_related
              (fun q => added_where
                          (has_class (lookup_class tf s qualify_mode))
                          (nth q sysent_vec []))
              (fun q => existsb
                          (has_class (lookup_class tf s qualify_mode))
                          (nth q sysent_vec []))
              (fun p sp flag =>
                 for_each_syscall
                   (fun e =>
                      match sys_name e with
                      | None => Some false
                      | Some _ =>
                          Some (Z.land (sys_flags e)
                                  (lookup_class tf s qualify_mode)
                                =? lookup_class tf s qualify_mode)
                      end)
                   0 (nth p sysent_vec []) sp flag)
              set 0 false) as (r & Hr & Hlen & Hnth); [|exact Hwf|].
  - intros q sp f Hsp.
    rewrite (for_each_syscall_ext _
               (fun e => Some (has_class (lookup_class tf s qualify_mode)
                                 e)))
      by (intros e; unfold has_class; now destruct (sys_name e)).
    now apply for_each_syscall_added.
  - exists r. rewrite Hr. repeat split; assumption.
Qed.

(** Numbers.  A token that is no number is refused with the sets
    untouched; a number is added to the set of every personality whose
    table it indexes and to no other, and it is accepted exactly when
    there is such a personality. *)
Theorem parse_syscall_number_spec (s : string) (set : list number_set) :
  Forall number_set_wf set ->
  let n := string_to_uint s in
  if n <? 0 then
    parse_syscall_number sysent_vec s set = Some (set, false)
  else
    exists r,
      parse_syscall_number sysent_vec s set
      = Some (r,
              existsb (fun p => n <? nsyscall_vec sysent_vec p)
                      (seq 0 (List.length set)))
      /\ List.length r = List.length set
      /\ forall p sp, nth_error set p = Some sp ->
           nth_error r p
           = Some (if n <? nsyscall_vec sysent_vec p
                   then add_number_to_set n sp else sp).
Proof.
  intros Hwf. cbv zeta. unfold parse_syscall_number.
  pose proof (string_to_uint_range s) as Hrange.
  destruct (Z.ltb_spec (string_to_uint s) 0) as [|Hn]; [reflexivity|].
  assert (to_uint (string_to_uint s) = string_to_uint s) as Hu.
  { unfold to_uint. apply Z.mod_small. unfold INT_MAX in Hrange. lia. }
  rewrite Hu.
  destruct (for_each_personality_related
              (fun q sp rp =>
                 rp = if string_to_uint s <? nsyscall_vec sysent_vec q
                      then add_number_to_set (string_to_uint s) sp else sp)
              (fun q => string_to_uint s <? nsyscall_vec sysent_vec q)
              (fun p sp done =>
                 if string_to_uint s >=? nsyscall_vec sysent_vec p
                 then Some (sp, done)
                 else Some (add_number_to_set (string_to_uint s) sp, true))
              set 0 false) as (r & Hr & Hlen & Hnth); [|exact Hwf|].
  - intros q sp f _. rewrite Z.geb_leb.
    destruct (Z.leb_spec (nsyscall_vec sysent_vec q) (string_to_uint s));
      destruct (Z.ltb_spec (string_to_uint s) (nsyscall_vec sysent_vec q));
      try lia.
    + exists sp. now rewrite orb_false_r.
    + eexists. now rewrite orb_true_r.
  - exists r. rewrite Hr. split; [reflexivity|]. split; [exact Hlen|].
    intros p sp Hp. destruct (Hnth p sp Hp) as (rp & Hrp & ->). exact Hrp.
Qed.

End SyscallSetLookups.

Lemma parse_syscall_class_spec_witness :
  Forall number_set_wf (repeat empty_number_set 2)
  /\ exists r,
       parse_syscall_class sample_sysent_vec sample_trace_flags "%file"
         (repeat empty_number_set 2) false = Some (r, true).
Proof.
  assert (Forall number_set_wf (repeat empty_number_set 2)) as Hwf
    by (repeat constructor).
  split; [exact Hwf|].
  pose proof (parse_syscall_class_spec sample_sysent_vec sample_trace_flags
                "%file" _ false Hwf) as H.
  cbv zeta in H.
  change (lookup_class sample_trace_flags "%file" false =? 0)
    with false in H.
  destruct H as (r & Hr & _). exists r. exact Hr.
Defined.

Lemma parse_syscall_number_spec_witness :
  Forall number_set_wf (repeat empty_number_set 2)
  /\ exists r,
       parse_syscall_number sample_sysent_vec "3"
         (repeat empty_number_set 2) = Some (r, true)
       /\ nth_error r 1 = Some empty_number_set.
Proof.
  assert (Forall number_set_wf (repeat empty_number_set 2)) as Hwf
    by (repeat constructor).
  split; [exact Hwf|].
  pose proof (parse_syscall_number_spec sample_sysent_vec "3" _ Hwf) as H.
  cbv zeta in H. change (string_to_uint "3" <? 0) with false in H.
  destruct H as (r & Hr & _ & Hnth). exists r. split; [exact Hr|].
  exact (Hnth 1%nat empty_number_set eq_refl).
Defined.

(** ** Signal and error names *)

Lemma first_index_spec (test : Z -> bool) (fuel : nat) (i0 : Z) :
  0 <= i0 ->
  (first_index test i0 fuel = -1
   /\ forall j, i0 <= j < i0 + Z.of_nat fuel -> test j = false)
  \/ (i0 <= first_index test i0 fuel < i0 + Z.of_nat fuel
      /\ test (first_index test i0 fuel) = true
      /\ forall j, i0 <= j < first_index test i0 fuel -> test j = false).
Proof.
  revert i0. induction fuel as [|fuel IH]; intros i0 Hi0.
  - left. split; [reflexivity|]. intros j Hj. lia.
  - cbn [first_index]. destruct (test i0) eqn:Ht.
    + right. split; [lia|]. split; [exact Ht|]. intros j Hj. lia.
    + destruct (IH (i0 + 1) ltac:(lia)) as [(Hr & Hall)|(Hr & Hm & Hall)].
      * left. split; [exact Hr|]. intros j Hj.
        destruct (Z.eq_dec j i0) as [->|]; [exact Ht|apply Hall; lia].
      * right. split; [lia|]. split; [exact Hm|]. intros j Hj.
        destruct (Z.eq_dec j i0) as [->|]; [exact Ht|apply Hall; lia].
Qed.

Lemma first_index_ext (test test' : Z -> bool) (fuel : nat) (i0 : Z) :
  (forall i, test i = test' i) ->
  first_index test i0 fuel = first_index test' i0 fuel.
Proof.
  intros Hext. revert i0. induction fuel as [|fuel IH]; intros i0;
    [reflexivity|].
  cbn [first_index]. rewrite Hext, IH. reflexivity.
Qed.

(** [find_errno_by_name] returns the first index from 1 on whose entry
    is the name without regard to case, or [-1] if there is none: never 0,
    and never an index outside the table. *)
Theorem find_errno_by_name_spec (errnoent : list (option string))
    (name : string) :
  let matches i :=
    match nth (Z.to_nat i) errnoent None with
    | None => false
    | Some e => strcasecmp_eq name e
    end in
  let r := find_errno_by_name errnoent name in
  (r = -1 /\ forall i, 1 <= i < nerrnos errnoent -> matches i = false)
  \/ (1 <= r < nerrnos errnoent
      /\ matches r = true
      /\ forall i, 1 <= i < r -> matches i = false).
Proof.
  cbv zeta. unfold find_errno_by_name.
  match goal with
  | |- context [first_index ?t 1 ?f] =>
      destruct (first_index_spec t f 1 ltac:(lia))
        as [(Hr & Hall)|(Hr & Hm & Hall)]
  end.
  - left. split; [exact Hr|]. intros i Hi. apply Hall. lia.
  - right. split; [lia|]. split; [exact Hm|exact Hall].
Qed.

Lemma tolower_idempotent (c : ascii) : tolower (tolower c) = tolower c.
Proof.
  destruct c as [[|] [|] [|] [|] [|] [|] [|] [|]]; vm_compute; reflexivity.
Qed.

Lemma tolower_digit (c : ascii) : is_digit (tolower c) = is_digit c.
Proof.
  destruct c as [[|] [|] [|] [|] [|] [|] [|] [|]]; vm_compute; reflexivity.
Qed.

Lemma tolower_of_digit (c : ascii) : is_digit c = true -> tolower c = c.
Proof.
  destruct c as [[|] [|] [|] [|] [|] [|] [|] [|]]; vm_compute;
    intros H; (reflexivity || discriminate H).
Qed.

Lemma string_tolower_idempotent (s : string) :
  string_tolower (string_tolower s) = string_tolower s.
Proof.
  induction s as [|c s IH]; [reflexivity|].
  cbn. now rewrite tolower_idempotent, IH.
Qed.

Lemma string_take_tolower (n : nat) (s : string) :
  string_take n (string_tolower s) = string_tolower (string_take n s).
Proof.
  revert s. induction n as [|n IH]; intros [|c s]; cbn; try reflexivity.
  now rewrite IH.
Qed.

Lemma string_drop_tolower (n : nat) (s : string) :
  string_drop n (string_tolower s) = string_tolower (string_drop n s).
Proof.
  revert s. induction n as [|n IH]; intros [|c s]; cbn; try reflexivity.
  apply IH.
Qed.

Lemma strcasecmp_eq_tolower_r (a b : string) :
  strcasecmp_eq a (string_tolower b) = strcasecmp_eq a b.
Proof. unfold strcasecmp_eq. now rewrite string_tolower_idempotent. Qed.

Lemma strncasecmp_eq_tolower_l (a b : string) (n : nat) :
  strncasecmp_eq (string_tolower a) b n = strncasecmp_eq a b n.
Proof.
  unfold strncasecmp_eq, strcasecmp_eq.
  now rewrite string_take_tolower, string_tolower_idempotent.
Qed.

Lemma scan_digits_tolower (s : string) (acc : Z) :
  scan_digits acc (string_tolower s)
  = (fst (scan_digits acc s), string_tolower (snd (scan_digits acc s))).
Proof.
  revert acc. induction s as [|c s IH]; intros acc; [reflexivity|].
  cbn [string_tolower scan_digits]. rewrite tolower_digit.
  destruct (is_digit c) eqn:Hc; [|reflexivity].
  rewrite (tolower_of_digit c Hc). apply IH.
Qed.

Lemma string_to_uint_upto_tolower (s : string) (max_val : Z) :
  string_to_uint_upto (string_tolower s) max_val
  = string_to_uint_upto s max_val.
Proof.
  unfold string_to_uint_upto, string_to_uint_ex.
  destruct s as [|c s]; [reflexivity|].
  pose proof (scan_digits_tolower (String c s) 0) as Hscan.
  cbn [string_tolower] in *. cbv beta iota.
  rewrite tolower_digit. destruct (is_digit c) eqn:Hc; [|reflexivity].
  rewrite Hscan.
  destruct (scan_digits 0 (String c s)) as [val end_]. cbn [fst snd].
  destruct (max_val <? val); [reflexivity|].
  destruct end_; reflexivity.
Qed.

Section SignalNames.

Variable signame : Z -> string.

(** The signal resolver.  The result is [-1] or a signal number up to
    255.  A text that starts with a digit is read as a number of at most
    255; any other text resolves to the first signal whose name starts
    with [SIG] and continues as the text without its optional [SIG], both
    without regard to case. *)
Theorem sigstr_to_uint_spec (s : string) :
  let r := sigstr_to_uint signame s in
  -1 <= r <= 255
  /\ (starts_with_digit s = true -> r = string_to_uint_upto s 255)
  /\ (starts_with_digit s = false -> 0 <= r ->
      strncasecmp_eq (signame r) "SIG" 3 = true
      /\ strcasecmp_eq (string_drop 3 (signame r)) (without_sig_prefix s)
         = true).
Proof.
  cbv zeta. unfold sigstr_to_uint.
  destruct (starts_with_digit s).
  - split; [|split; [reflexivity|discriminate]].
    unfold string_to_uint_upto. apply string_to_uint_ex_range. lia.
  - fold (without_sig_prefix s).
    match goal with
    | |- context [first_index ?t 0 256] =>
        destruct (first_index_spec t 256 0 (Z.le_refl 0))
          as [(Hr & _)|(Hr & Hm & _)]
    end.
    + rewrite Hr. split; [lia|]. split; [discriminate|]. lia.
    + split; [lia|]. split; [discriminate|]. intros _ _.
      cbv beta zeta in Hm. apply andb_prop in Hm. exact Hm.
Qed.

(** Signal names are matched without regard to case. *)
Theorem sigstr_to_uint_case_insensitive (s : string) :
  sigstr_to_uint signame (string_tolower s) = sigstr_to_uint signame s.
Proof.
  unfold sigstr_to_uint.
  assert (starts_with_digit (string_tolower s) = starts_with_digit s)
    as Hd by (destruct s; [reflexivity|apply tolower_digit]).
  rewrite Hd, string_to_uint_upto_tolower, strncasecmp_eq_tolower_l.
  destruct (starts_with_digit s); [reflexivity|].
  apply first_index_ext. intros i. f_equal.
  destruct (strncasecmp_eq s "SIG" 3).
  - rewrite string_drop_tolower. apply strcasecmp_eq_tolower_r.
  - apply strcasecmp_eq_tolower_r.
Qed.

(** The [SIG] of a signal name is optional. *)
Theorem sigstr_to_uint_optional_prefix (s : string) :
  starts_with_digit s = false -> strncasecmp_eq s "SIG" 3 = false ->
  sigstr_to_uint signame ("SIG" ++ s)%string = sigstr_to_uint signame s
  /\ sigstr_to_uint signame ("sig" ++ s)%string = sigstr_to_uint signame s.
Proof.
  intros Hd Hp. unfold sigstr_to_uint. rewrite Hd, Hp.
  split; reflexivity.
Qed.

End SignalNames.

Lemma sigstr_to_uint_optional_prefix_witness :
  starts_with_digit "Kill" = false
  /\ strncasecmp_eq "Kill" "SIG" 3 = false
  /\ sigstr_to_uint sample_signame "SIGKill" = 9.
Proof.
  split; [reflexivity|]. split; [reflexivity|].
  etransitivity;
    [exact (proj1 (sigstr_to_uint_optional_prefix sample_signame "Kill"
                     eq_refl eq_refl))
    |reflexivity].
Defined.

(** ** Injection tokens *)





Section InjectTokens.

Variable signame : Z -> string.
Variable errnoent : list (option string).
Variable MAX_ERRNO_VALUE : Z.
Variable NSIG_BYTES : Z.
Variable INJECT_OPTS_RVAL_DEFAULT : Z.
Variable ENOSYS : Z.

Local Abbreviation token_parser :=
  (parse_inject_token signame errnoent MAX_ERRNO_VALUE NSIG_BYTES
     INJECT_OPTS_RVAL_DEFAULT).

(** The tokens [parse_inject_token] refuses without touching the
    options: [retval=] and [signal=] in fault syntax, [error=] and
    [retval=] once a return value or error has been set, and every token
    that starts with none of the keywords. *)
Theorem parse_inject_token_refusals (token v : string)
    (fopts : inject_opts) (fault_tokens_only : bool) :
  token_parser ("retval=" ++ v)%string fopts true = (false, fopts)
  /\ token_parser ("signal=" ++ v)%string fopts true = (false, fopts)
  /\ (rval fopts <> INJECT_OPTS_RVAL_DEFAULT ->
      token_parser ("error=" ++ v)%string fopts fault_tokens_only
      = (false, fopts)
      /\ token_parser ("retval=" ++ v)%string fopts fault_tokens_only
         = (false, fopts))
  /\ (STR_STRIP_PREFIX token "when=" = None ->
      STR_STRIP_PREFIX token "error=" = None ->
      STR_STRIP_PREFIX token "retval=" = None ->
      STR_STRIP_PREFIX token "signal=" = None ->
      token_parser token fopts fault_tokens_only = (false, fopts)).
Proof.
  split; [reflexivity|]. split; [reflexivity|]. split.
  - intros Hset. apply Z.eqb_neq in Hset.
    unfold parse_inject_token.
    change (STR_STRIP_PREFIX ("error=" ++ v)%string "when=")
      with (@None string).
    change (STR_STRIP_PREFIX ("error=" ++ v)%string "error=")
      with (Some v).
    change (STR_STRIP_PREFIX ("retval=" ++ v)%string "when=")
      with (@None string).
    change (STR_STRIP_PREFIX ("retval=" ++ v)%string "error=")
      with (@None string).
    change (STR_STRIP_PREFIX ("retval=" ++ v)%string "retval=")
      with (Some v).
    cbv beta iota. rewrite Hset. cbn [negb].
    split; [reflexivity|]. destruct fault_tokens_only; reflexivity.
  - intros Hw He Hr Hs. unfold parse_inject_token.
    rewrite Hw, He, Hr, Hs. destruct fault_tokens_only; reflexivity.
Qed.

(** [error=N] and [retval=N] for a number [N], when no return value or
    error has been set: [error=N] sets [rval] to [-N] for [N] in
    1..[MAX_ERRNO_VALUE] and is refused for 0; in inject syntax
    [retval=N] sets [rval] to [N] for [N] up to [INT_MAX] and is refused
    beyond. *)
Theorem parse_inject_token_error_retval (v : string) (fopts : inject_opts)
    (fault_tokens_only : bool) :
  is_uint v = true -> rval fopts = INJECT_OPTS_RVAL_DEFAULT ->
  let N := decimal_value v in
  (1 <= N <= MAX_ERRNO_VALUE ->
   token_parser ("error=" ++ v)%string fopts fault_tokens_only
   = (true, set_rval fopts (- N)))
  /\ (N = 0 -> 0 <= MAX_ERRNO_VALUE ->
      token_parser ("error=" ++ v)%string fopts fault_tokens_only
      = (false, fopts))
  /\ token_parser ("retval=" ++ v)%string fopts false
     = if N <=? INT_MAX then (true, set_rval fopts N) else (false, fopts).
Proof.
  intros Hv Hdef. cbv zeta.
  assert (0 <= decimal_value v) as Hnn.
  { apply decimal_value_nonneg. unfold is_uint in Hv.
    apply andb_prop in Hv. tauto. }
  unfold parse_inject_token.
  change (STR_STRIP_PREFIX ("error=" ++ v)%string "when=")
    with (@None string).
  change (STR_STRIP_PREFIX ("error=" ++ v)%string "error=") with (Some v).
  change (STR_STRIP_PREFIX ("retval=" ++ v)%string "when=")
    with (@None string).
  change (STR_STRIP_PREFIX ("retval=" ++ v)%string "error=")
    with (@None string).
  change (STR_STRIP_PREFIX ("retval=" ++ v)%string "retval=")
    with (Some v).
  cbv beta iota. rewrite Hdef, Z.eqb_refl. cbn [negb].
  unfold string_to_uint. rewrite !string_to_uint_upto_digits by assumption.
  split; [|split].
  - intros HN.
    replace (MAX_ERRNO_VALUE <? decimal_value v) with false
      by (symmetry; apply Z.ltb_ge; lia).
    replace (decimal_value v <? 0) with false
      by (symmetry; apply Z.ltb_ge; lia).
    replace (decimal_value v <? 1) with false
      by (symmetry; apply Z.ltb_ge; lia).
    reflexivity.
  - intros HN Hmax. rewrite HN.
    replace (MAX_ERRNO_VALUE <? 0) with false
      by (symmetry; apply Z.ltb_ge; lia).
    reflexivity.
  - destruct (Z.leb_spec (decimal_value v) INT_MAX) as [Hle|Hgt].
    + replace (INT_MAX <? decimal_value v) with false
        by (symmetry; apply Z.ltb_ge; lia).
      replace (decimal_value v <? 0) with false
        by (symmetry; apply Z.ltb_ge; lia).
      reflexivity.
    + replace (INT_MAX <? decimal_value v) with true
        by (symmetry; apply Z.ltb_lt; lia).
      reflexivity.
Qed.




End InjectTokens.

Lemma parse_inject_token_error_retval_witness :
  is_uint "5" = true
  /\ rval (inject_opts_default sample_RVAL_DEFAULT) = sample_RVAL_DEFAULT
  /\ parse_inject_token sample_signame sample_errnoent
       sample_MAX_ERRNO_VALUE sample_NSIG_BYTES sample_RVAL_DEFAULT
       "retval=5" (inject_opts_default sample_RVAL_DEFAULT) false
     = (true,
        {| first := 1; step := 1; rval := 5; signo := 0; init := false |}).
Proof.
  split; [reflexivity|]. split; [reflexivity|].
  exact (proj2 (proj2 (parse_inject_token_error_retval sample_signame
                         sample_errnoent sample_MAX_ERRNO_VALUE
                         sample_NSIG_BYTES sample_RVAL_DEFAULT "5"
                         (inject_opts_default sample_RVAL_DEFAULT) false
                         eq_refl eq_refl))).
Defined.

(** ** Registering actions *)

Lemma find_action_none (t : filter_action_type) (l : list filter_action)
    (i : nat) :
  find_action t i l = None <->
  forall a, In a l -> same_action_type (type a) t = false.
Proof.
  revert i. induction l as [|a l IH]; intros i.
  - cbn. split; [intros _ ? []|reflexivity].
  - cbn [find_action]. destruct (same_action_type (type a) t) eqn:Ha.
    + split; [discriminate|]. intros H.
      specialize (H a (or_introl eq_refl)). congruence.
    + rewrite IH. split.
      * intros H b [<-|Hb]; auto.
      * intros H b Hb. apply H. now right.
Qed.

Lemma find_action_some (t : filter_action_type) (l : list filter_action)
    (i k : nat) :
  find_action t i l = Some k ->
  (i <= k)%nat
  /\ exists a, nth_error l (k - i) = Some a
               /\ same_action_type (type a) t = true.
Proof.
  revert i. induction l as [|a l IH]; intros i H; [discriminate|].
  cbn [find_action] in H. destruct (same_action_type (type a) t) eqn:Ha.
  - injection H as <-. split; [lia|]. exists a.
    rewrite Nat.sub_diag. now split.
  - apply IH in H as (Hle & b & Hb & Hsame). split; [lia|].
    exists b. replace (k - i)%nat with (S (k - S i)) by lia. now split.
Qed.

Lemma find_action_app_new (t : filter_action_type)
    (l : list filter_action) (a : filter_action) (i : nat) :
  find_action t i l = None -> same_action_type (type a) t = true ->
  find_action t i (l ++ [a]) = Some (i + List.length l)%nat.
Proof.
  revert i. induction l as [|b l IH]; intros i Hn Ha.
  - cbn. rewrite Ha. f_equal. lia.
  - cbn [find_action app List.length] in *.
    destruct (same_action_type (type b) t); [discriminate|].
    rewrite IH by assumption. f_equal. lia.
Qed.

Section ActionTable.

Variable qf : qual_flags.

Lemma lookup_filter_action_type_name (nm : string)
    (t : filter_action_type) :
  lookup_filter_action_type qf nm = Some t -> name t = nm.
Proof.
  unfold lookup_filter_action_type. intros H.
  apply find_some in H as [_ H]. now apply String.eqb_eq in H.
Qed.

Lemma lookup_filter_action_type_none (nm : string) :
  lookup_filter_action_type qf nm = None <->
  ~ In nm (map name (action_types qf)).
Proof.
  unfold lookup_filter_action_type. split.
  - intros H Hin. apply in_map_iff in Hin as (t & Ht & Hin).
    apply (find_none _ _ H) in Hin. cbv beta in Hin.
    rewrite Ht, String.eqb_refl in Hin. discriminate.
  - intros Hnot.
    destruct (find (fun t => String.eqb (name t) nm) (action_types qf))
      as [t|] eqn:Hf; [|reflexivity].
    apply find_some in Hf as [Hin Heq]. apply String.eqb_eq in Heq.
    contradiction Hnot. rewrite <- Heq. now apply in_map.
Qed.

Lemma find_or_add_action_cases (nm : string) (st st1 : action_state)
    (i : nat) :
  find_or_add_action qf nm st = Some (st1, i) ->
  (i < List.length (filter_actions st1))%nat
  /\ (st1 = st \/ exists t, st1 = fst (add_action t st)).
Proof.
  unfold find_or_add_action. intros H.
  destruct (lookup_filter_action_type qf nm) as [t|]; [|discriminate].
  assert (Some (add_action t st) = Some (st1, i) ->
          (i < List.length (filter_actions st1))%nat
          /\ (st1 = st \/ exists t, st1 = fst (add_action t st))) as Hadd.
  { intros Heq.
    assert (add_action t st = (st1, i)) as Hp by congruence.
    pose proof (f_equal fst Hp) as H1. pose proof (f_equal snd Hp) as H2.
    cbn [fst snd] in H1, H2. subst st1 i.
    split; [|right; now exists t].
    unfold add_action. cbn [fst snd filter_actions].
    rewrite length_app. cbn. lia. }
  destruct (parse_args t); auto.
  destruct (find_action t 0 (filter_actions st)) as [k|] eqn:Hf; auto.
  injection H as <- <-. split; [|now left].
  destruct (find_action_some _ _ _ _ Hf) as (_ & a & Ha & _).
  rewrite Nat.sub_0_r in Ha. apply nth_error_Some. congruence.
Qed.

(** [find_or_add_action].  An unknown name, and only that, is fatal.
    Otherwise the index returned is that of an action of the type named;
    the actions there were are kept, in place, with at most one more
    after them; for a type that takes no arguments a second call returns
    the same action and changes nothing; for a type that takes arguments
    every call appends a new action, whose id is the number of actions
    there were. *)
Theorem find_or_add_action_spec (nm : string) (st : action_state) :
  (find_or_add_action qf nm st = None <->
   ~ In nm (map name (action_types qf)))
  /\ forall st1 i,
       find_or_add_action qf nm st = Some (st1, i) ->
       exists t a,
         lookup_filter_action_type qf nm = Some t
         /\ nth_error (filter_actions st1) i = Some a
         /\ name (type a) = nm
         /\ (st1 = st \/ (st1, i) = add_action t st)
         /\ (parse_args t = parse_null ->
             find_or_add_action qf nm st1 = Some (st1, i))
         /\ (parse_args t <> parse_null ->
             i = List.length (filter_actions st)
             /\ filter_actions st1
                = filter_actions st
                  ++ [{| id := nfilter_actions st; type := t;
                         nfilters := 0 |}]).
Proof.
  assert (forall t, nth_error (filter_actions (fst (add_action t st)))
                      (snd (add_action t st))
                    = Some {| id := nfilter_actions st; type := t;
                              nfilters := 0 |}) as Hnew.
  { intros t. unfold add_action. cbn [fst snd filter_actions].
    rewrite nth_error_app2, Nat.sub_diag by lia. cbn. do 3 f_equal. lia. }
  assert (forall t, filter_actions (fst (add_action t st))
                    = filter_actions st
                      ++ [{| id := nfilter_actions st; type := t;
                             nfilters := 0 |}]) as Happ.
  { intros t. unfold add_action. cbn [fst filter_actions].
    do 3 f_equal. lia. }
  split.
  - rewrite <- lookup_filter_action_type_none. unfold find_or_add_action.
    destruct (lookup_filter_action_type qf nm) as [t|];
      [|split; reflexivity].
    split; [|discriminate].
    destruct (parse_args t); try discriminate.
    destruct (find_action t 0 (filter_actions st)); discriminate.
  - intros st1 i H. unfold find_or_add_action in *.
    destruct (lookup_filter_action_type qf nm) as [t|] eqn:Hl;
      [|discriminate].
    pose proof (lookup_filter_action_type_name nm t Hl) as Hname.
    assert (same_action_type t t = true) as Hrefl
      by apply String.eqb_refl.
    assert ((st1, i) = add_action t st ->
            exists a,
              nth_error (filter_actions st1) i = Some a
              /\ name (type a) = nm
              /\ i = List.length (filter_actions st)
              /\ filter_actions st1
                 = filter_actions st
                   ++ [{| id := nfilter_actions st; type := t;
                          nfilters := 0 |}]) as Hadd.
    { intros Heq. specialize (Hnew t). specialize (Happ t).
      rewrite <- Heq in Hnew, Happ. cbn [fst snd] in Hnew, Happ.
      eexists. split; [exact Hnew|]. split; [exact Hname|].
      split; [|exact Happ].
      pose proof (f_equal snd Heq) as Hi. cbn in Hi. exact Hi. }
    destruct (parse_args t) eqn:Hp.
    + destruct (find_action t 0 (filter_actions st)) as [k|] eqn:Hf.
      * injection H as <- <-.
        destruct (find_action_some _ _ _ _ Hf) as (_ & a & Ha & Hsame).
        rewrite Nat.sub_0_r in Ha. exists t, a.
        split; [reflexivity|]. split; [exact Ha|].
        split; [apply String.eqb_eq in Hsame; congruence|].
        split; [now left|]. split; [|congruence].
        intros _. now rewrite Hf.
      * assert ((st1, i) = add_action t st) as Heq by congruence.
        destruct (Hadd Heq) as (a & Ha & Hna & Hi & Hlist).
        exists t, a. split; [reflexivity|]. split; [exact Ha|].
        split; [exact Hna|]. split; [now right|]. split; [|congruence].
        intros _. rewrite Hlist.
        rewrite (find_action_app_new t (filter_actions st)
                   {| id := nfilter_actions st; type := t; nfilters := 0 |}
                   0 Hf Hrefl).
        cbn [Nat.add]. rewrite <- Hi. reflexivity.
    + assert ((st1, i) = add_action t st) as Heq by congruence.
      destruct (Hadd Heq) as (a & Ha & Hna & Hi & Hlist).
      exists t, a. split; [reflexivity|]. split; [exact Ha|].
      split; [exact Hna|]. split; [now right|].
      split; [intros Hq; congruence|]. intros _. now split.
    + assert ((st1, i) = add_action t st) as Heq by congruence.
      destruct (Hadd Heq) as (a & Ha & Hna & Hi & Hlist).
      exists t, a. split; [reflexivity|]. split; [exact Ha|].
      split; [exact Hna|]. split; [now right|].
      split; [intros Hq; congruence|]. intros _. now split.
Qed.

Lemma add_action_flags_match (t : filter_action_type)
    (st : action_state) :
  default_flags_match (DEFAULT_QUAL_FLAGS qf) st ->
  default_flags_match (DEFAULT_QUAL_FLAGS qf) (fst (add_action t st)).
Proof.
  intros Hm i Hi. rewrite add_action_default_flags_bit, Hm by assumption.
  unfold add_action. cbn [fst filter_actions].
  rewrite forallb_app. cbn [forallb type qual_flg].
  rewrite andb_true_r, andb_assoc. reflexivity.
Qed.

(** What [default_flags] is after any registrations: a qualifier bit is
    still on by default exactly when it is on in [DEFAULT_QUAL_FLAGS] and
    no registered action has it in the flag of its type. *)
Theorem registered_default_flags (names : list string)
    (st : action_state) :
  register_actions qf names (initial_action_state qf) = Some st ->
  default_flags_match (DEFAULT_QUAL_FLAGS qf) st.
Proof.
  unfold register_actions.
  assert (forall acc,
            match acc with
            | Some st0 => default_flags_match (DEFAULT_QUAL_FLAGS qf) st0
            | None => True
            end ->
            fold_left
              (fun acc nm =>
                 match acc with
                 | None => None
                 | Some st' => option_map fst (find_or_add_action qf nm st')
                 end) names acc = Some st ->
            default_flags_match (DEFAULT_QUAL_FLAGS qf) st) as Hgen.
  { induction names as [|nm names IH]; intros acc Hacc H.
    - cbn in H. subst acc. exact Hacc.
    - cbn [fold_left] in H. eapply IH; [|exact H].
      destruct acc as [st0|]; [|exact I].
      destruct (find_or_add_action qf nm st0) as [[st1 i]|] eqn:Hf;
        [|exact I].
      cbn [option_map fst].
      destruct (find_or_add_action_cases nm st0 st1 i Hf)
        as (_ & [->|(t & ->)]); [exact Hacc|].
      now apply add_action_flags_match. }
  apply Hgen. intros i Hi. cbn. now rewrite andb_true_r.
Qed.

End ActionTable.

(** ** Finalisation *)

Lemma max_nfilters_from (l : list filter_action) (m0 : Z) :
  let m :=
    fold_left (fun m a => if nfilters a >? m then nfilters a else m) l m0 in
  m0 <= m
  /\ (forall a, In a l -> nfilters a <= m)
  /\ (m = m0 \/ exists a, In a l /\ nfilters a = m).
Proof.
  cbv zeta. revert m0. induction l as [|b l IH]; intros m0.
  - cbn. split; [lia|]. split; [intros ? []|now left].
  - cbn [fold_left].
    destruct (IH (if nfilters b >? m0 then nfilters b else m0))
      as (Hle & Hall & Hex).
    rewrite Z.gtb_ltb in *.
    destruct (Z.ltb_spec m0 (nfilters b)) as [Hlt|Hge].
    + split; [lia|]. split.
      * intros a [<-|Ha]; [exact Hle|now apply Hall].
      * right. destruct Hex as [->|(a & Ha & Hm)].
        -- exists b. split; [now left|reflexivity].
        -- exists a. split; [now right|exact Hm].
    + split; [lia|]. split.
      * intros a [<-|Ha]; [lia|now apply Hall].
      * destruct Hex as [->|(a & Ha & Hm)]; [now left|].
        right. exists a. split; [now right|exact Hm].
Qed.

Section Finalisation.

Variable qf : qual_flags.

Lemma inject_path_tracing_nonempty (st st1 : action_state) :
  inject_path_tracing qf st = Some st1 -> filter_actions st1 <> [].
Proof.
  unfold inject_path_tracing.
  destruct (find_or_add_action qf "trace" st) as [[st0 i]|] eqn:Hf;
    [|discriminate].
  intros H. injection H as <-. cbn [filter_actions].
  destruct (find_or_add_action_cases qf "trace" st st0 i Hf) as (Hi & _).
  intros Hnil.
  pose proof (nth_error_update_action (filter_actions st0) i i
                add_path_filter) as Hu.
  apply nth_error_Some in Hi.
  destruct (nth_error (filter_actions st0) i) as [a|]; [|contradiction].
  rewrite Hnil, Nat.eqb_refl in Hu. destruct i; discriminate.
Qed.

(** The scratch buffer is sufficient for any action.  Finalisation with
    no action at all returns at once and allocates nothing; otherwise
    [variables_buf] gets as many cells as the largest [nfilters] among the
    actions, so no action has more filters than cells.  Without path
    tracing [default_flags] is left as it is. *)
Theorem variables_buf_sufficient (tracing_paths : bool)
    (st st' : action_state) :
  filtering_parsing_finish qf tracing_paths st = Some st' ->
  match filter_actions st' with
  | [] => tracing_paths = false /\ st' = st
  | _ :: _ =>
      exists m,
        variables_buf st' = Some m
        /\ (forall a, In a (filter_actions st') -> nfilters a <= m)
        /\ (m = 0 \/ exists a, In a (filter_actions st') /\ nfilters a = m)
  end
  /\ (tracing_paths = false -> default_flags st' = default_flags st).
Proof.
  unfold filtering_parsing_finish. intros H.
  assert (exists st1,
            (if tracing_paths then inject_path_tracing qf st else Some st)
            = Some st1
            /\ (tracing_paths = true -> filter_actions st1 <> [])
            /\ (tracing_paths = false -> st1 = st))
    as (st1 & Hst1 & Hne & Hsame).
  { destruct tracing_paths.
    - destruct (inject_path_tracing qf st) as [st1|] eqn:Hi;
        [|discriminate].
      exists st1. repeat split; [|discriminate].
      intros _. eapply inject_path_tracing_nonempty, Hi.
    - exists st. repeat split. discriminate. }
  rewrite Hst1 in H.
  destruct (Z.eqb_spec (nfilter_actions st1) 0) as [H0|Hn0].
  - injection H as <-. unfold nfilter_actions in H0.
    destruct (filter_actions st1) as [|a l] eqn:Hl; [|discriminate].
    destruct tracing_paths; [now contradiction Hne|].
    rewrite (Hsame eq_refl). auto.
  - injection H as <-. cbn [filter_actions variables_buf default_flags].
    split; [|intros Htp; now rewrite (Hsame Htp)].
    destruct (qsort compare_action_priority (filter_actions st1))
      as [|a l] eqn:Hq.
    + pose proof (qsort_perm compare_action_priority (filter_actions st1))
        as Hp.
      rewrite Hq in Hp. apply Permutation_sym, Permutation_nil in Hp.
      unfold nfilter_actions in Hn0. rewrite Hp in Hn0. now contradiction Hn0.
    + exists (max_nfilters (a :: l)).
      destruct (max_nfilters_from (a :: l) 0) as (_ & Hall & Hex).
      split; [reflexivity|]. split; [exact Hall|exact Hex].
Qed.

(** Finalising twice is finalising once, when no path is traced: the
    sorted list is already in the order the comparator asks for. *)
Theorem filtering_parsing_finish_idempotent (st st1 : action_state) :
  NoDup (map id (filter_actions st)) ->
  filtering_parsing_finish qf false st = Some st1 ->
  filtering_parsing_finish qf false st1 = Some st1.
Proof.
  unfold filtering_parsing_finish. intros Hnd H.
  destruct (Z.eqb_spec (nfilter_actions st) 0) as [H0|Hn0].
  - injection H as <-. apply Z.eqb_eq in H0. now rewrite H0.
  - injection H as <-. unfold nfilter_actions in *. cbn [filter_actions].
    pose proof (qsort_perm compare_action_priority (filter_actions st))
      as Hperm.
    set (sorted := qsort compare_action_priority (filter_actions st)) in *.
    assert (NoDup (map id sorted)) as Hnd'.
    { eapply Permutation_NoDup; [|exact Hnd].
      now apply Permutation_map. }
    assert (qsort compare_action_priority sorted = sorted) as Hfix.
    { apply sorted_unique.
      - now apply qsort_sorted.
      - now apply qsort_sorted.
      - symmetry. apply qsort_perm. }
    rewrite <- (Permutation_length Hperm).
    destruct (Z.eqb_spec (Z.of_nat (List.length (filter_actions st))) 0);
      [contradiction|].
    cbn [default_flags]. rewrite Hfix. reflexivity.
Qed.

End Finalisation.

Lemma variables_buf_sufficient_witness :
  exists st',
    filtering_parsing_finish sample_qual_flags true sample_action_state
    = Some st'
    /\ exists m,
         variables_buf st' = Some m
         /\ forall a, In a (filter_actions st') -> nfilters a <= m.
Proof.
  destruct (filtering_parsing_finish sample_qual_flags true
              sample_action_state) as [st'|] eqn:Hf;
    [|vm_compute in Hf; discriminate].
  exists st'. split; [reflexivity|].
  pose proof (proj1 (variables_buf_sufficient sample_qual_flags true
                       sample_action_state st' Hf)) as H.
  destruct (filter_actions st') as [|a l].
  - destruct H as [H _]. discriminate H.
  - destruct H as (m & Hm & Hall & _). exists m. now split.
Defined.

Lemma filtering_parsing_finish_idempotent_witness :
  NoDup (map id (filter_actions sample_action_state))
  /\ exists st1,
       filtering_parsing_finish sample_qual_flags false sample_action_state
       = Some st1
       /\ filtering_parsing_finish sample_qual_flags false st1 = Some st1.
Proof.
  assert (NoDup (map id (filter_actions sample_action_state))) as Hnd.
  { cbn. repeat constructor; cbn; intuition discriminate. }
  split; [exact Hnd|].
  destruct (filtering_parsing_finish sample_qual_flags false
              sample_action_state) as [st1|] eqn:Hf;
    [|vm_compute in Hf; discriminate].
  exists st1. split; [reflexivity|].
  exact (filtering_parsing_finish_idempotent sample_qual_flags
           sample_action_state st1 Hnd Hf).
Defined.

Lemma registered_default_flags_witness :
  register_actions sample_qual_flags
    ["trace"; "abbrev"; "inject"; "fault"; "trace"; "inject"; "abbrev"]
    (initial_action_state sample_qual_flags)
  = Some sample_action_state
  /\ default_flags_match 7 sample_action_state.
Proof.
  assert (register_actions sample_qual_flags
            ["trace"; "abbrev"; "inject"; "fault"; "trace"; "inject";
             "abbrev"]
            (initial_action_state sample_qual_flags)
          = Some sample_action_state) as Hreg by (vm_compute; reflexivity).
  split; [exact Hreg|].
  exact (registered_default_flags sample_qual_flags _ _ Hreg).
Defined.

(** ** From the text to the event *)



Lemma strtok_r_tokens_commas (j : nat) : strtok_r_tokens (commas j) "," = [].
Proof.
  unfold strtok_r_tokens.
  assert (split_fields "," (commas j) = (EmptyString, repeat EmptyString j))
    as ->.
  { induction j as [|j IH]; [reflexivity|].
    cbn [commas split_fields]. rewrite IH. reflexivity. }
  cbn [filter nonempty]. induction j as [|j IH]; [reflexivity|exact IH].
Qed.

Section TraceByName.

Variable sysent_vec : list (list struct_sysent).
Variable tf : trace_flags.
Variable regcomp : string -> option (string -> regexec_rc).

(** A text without any token is fatal: the empty text, and a text of
    ',' only, in both modes, also after leading '!' in qualify mode. *)
Theorem parse_syscall_set_no_token (k j : nat) (set : list number_set) :
  parse_syscall_set sysent_vec tf regcomp (commas j) set false = None
  /\ parse_syscall_set sysent_vec tf regcomp (bangs k ++ commas j)%string
       set true = None.
Proof.
  assert (forall set0 qm,
            parse_syscall_spec sysent_vec tf regcomp (commas j) set0 qm
            = None) as Hspec.
  { intros set0 qm. unfold parse_syscall_spec.
    rewrite strtok_r_tokens_commas.
    destruct j as [|j]; reflexivity. }
  split.
  - unfold parse_syscall_set. apply Hspec.
  - unfold parse_syscall_set. rewrite skip_inversions_sets_bangs.
    assert (forall set0, skip_inversions_sets (commas j) set0
                         = (commas j, set0)) as ->
      by (intros set0; destruct j; reflexivity).
    apply Hspec.
Qed.


End TraceByName.


(** ** Sets parsed from nothing *)

Lemma no_bit_set_invert (s : number_set) :
  no_bit_set s -> no_bit_set (invert_set s).
Proof.
  intros H n Hn. rewrite is_number_in_set_invert, H by assumption.
  reflexivity.
Qed.

Lemma no_bit_set_skip_inversions (str : string) (s : number_set) :
  no_bit_set s -> no_bit_set (snd (skip_inversions str s)).
Proof.
  revert s. induction str as [|c str IH]; intros s Hs; [exact Hs|].
  cbn [skip_inversions].
  destruct c as [[|] [|] [|] [|] [|] [|] [|] [|]]; try exact Hs.
  apply IH, no_bit_set_invert, Hs.
Qed.

Lemma no_bit_set_empty : no_bit_set empty_number_set.
Proof.
  intros n Hn. unfold is_number_in_set, empty_number_set.
  cbn [vec nslots not]. rewrite xorb_false_r. apply andb_false_iff. right.
  unfold number_isset. now destruct (Z.to_nat (n / BITS_PER_SLOT)).
Qed.

Lemma no_bit_set_clear (s : number_set) :
  number_set_wf s -> no_bit_set (clear_signal_set s).
Proof.
  intros Hwf n Hn.
  destruct (same_bits_same_number_set _ _ (clear_signal_set_same_bits s Hwf))
    as (Hnot & _ & Hmem).
  rewrite Hmem, Hnot by assumption. now apply no_bit_set_empty.
Qed.

(** A set parsed into a set without bits: a number is a member exactly
    when the text selects it, the other way round if the leading '!' are
    odd in number. *)
Lemma parse_set_from_no_bit (str : string) (set set' : number_set)
    (func : string -> Z) (qualify_mode : bool) :
  number_set_wf set -> no_bit_set set ->
  parse_set str set func qualify_mode = Some set' ->
  forall n, 0 <= n ->
    is_number_in_set n set'
    = xorb (not (snd (stripped_spec str set qualify_mode)))
           (selects func (fst (stripped_spec str set qualify_mode)) n).
Proof.
  intros Hwf Hno H n Hn. unfold parse_set in H.
  fold (stripped_spec str set qualify_mode) in H.
  assert (number_set_wf (snd (stripped_spec str set qualify_mode))
          /\ no_bit_set (snd (stripped_spec str set qualify_mode)))
    as [Hwf1 Hno1].
  { unfold stripped_spec. destruct qualify_mode; [|now split].
    split; [now apply skip_inversions_wf
           |now apply no_bit_set_skip_inversions]. }
  destruct (stripped_spec str set qualify_mode) as [spec set1].
  cbn [fst snd] in *. unfold selects.
  destruct (String.eqb spec "none").
  - injection H as <-. rewrite xorb_false_r. now apply Hno1.
  - destruct (String.eqb spec "all").
    + injection H as <-.
      rewrite is_number_in_set_invert, Hno1, xorb_true_r by assumption.
      reflexivity.
    + destruct (parse_set_tokens func _ (-1) set1) as [[num s2]|] eqn:Ht;
        [|discriminate].
      destruct (num <? 0); [discriminate|]. injection H as <-.
      rewrite (parse_set_tokens_members _ _ _ _ _ _ Hwf1 Ht n Hn), Hno1
        by assumption.
      destruct (names_number func _ n), (not set1); reflexivity.
Qed.

Lemma parse_set_tokens_not (func : string -> Z) (tokens : list string)
    (number number' : Z) (s s' : number_set) :
  parse_set_tokens func tokens number s = Some (number', s') ->
  not s' = not s.
Proof.
  revert number s. induction tokens as [|token tokens IH];
    intros number s H.
  - cbn in H. now injection H as _ <-.
  - cbn [parse_set_tokens] in H. destruct (func token <? 0); [discriminate|].
    apply IH in H. now rewrite H, add_number_to_set_not.
Qed.

Lemma parse_set_not (str : string) (set set' : number_set)
    (func : string -> Z) (qualify_mode : bool) :
  parse_set str set func qualify_mode = Some set' ->
  not set'
  = xorb (not (snd (stripped_spec str set qualify_mode)))
         (String.eqb (fst (stripped_spec str set qualify_mode)) "all").
Proof.
  intros H. unfold parse_set in H.
  fold (stripped_spec str set qualify_mode) in H.
  destruct (stripped_spec str set qualify_mode) as [spec set1].
  cbn [fst snd].
  destruct (String.eqb_spec spec "none") as [->|_].
  - injection H as <-. now rewrite xorb_false_r.
  - destruct (String.eqb spec "all").
    + injection H as <-. now rewrite xorb_true_r.
    + destruct (parse_set_tokens func _ (-1) set1) as [[num s2]|] eqn:Ht;
        [|discriminate].
      destruct (num <? 0); [discriminate|]. injection H as <-.
      rewrite xorb_false_r. eapply parse_set_tokens_not, Ht.
Qed.

(** The fd filter, from the text to the descriptor.  Let the text be
    inverted when its leading '!' are odd in number.  A descriptor that is
    not negative matches exactly when the rest of the text selects it and
    the text is not inverted, or neither.  A negative descriptor matches
    exactly when the rest is [all] and the text is not inverted, or
    neither: no list of descriptors selects it, [all] does. *)
Theorem fd_filter_matches (str : string) (qualify_mode : bool)
    (set : number_set) (tcp : tcb) (fd : Z) :
  parse_fd_filter str qualify_mode = Some set ->
  - 2 ^ 31 <= fd < 2 ^ 31 ->
  let inverted :=
    not (snd (stripped_spec str empty_number_set qualify_mode)) in
  let spec := fst (stripped_spec str empty_number_set qualify_mode) in
  is_fd_in_set tcp fd set
  = if fd <? 0 then xorb inverted (String.eqb spec "all")
    else xorb inverted (selects string_to_uint spec fd).
Proof.
  intros Hp Hfd. cbv zeta. unfold parse_fd_filter in Hp.
  unfold is_fd_in_set.
  destruct (Z.ltb_spec fd 0) as [Hneg|Hpos].
  - exact (parse_set_not _ _ _ _ _ Hp).
  - assert (to_uint fd = fd) as ->
      by (unfold to_uint; apply Z.mod_small; lia).
    exact (parse_set_from_no_bit str empty_number_set set string_to_uint
             qualify_mode (eq_refl : number_set_wf empty_number_set)
             no_bit_set_empty Hp fd Hpos).
Qed.

Lemma fd_filter_matches_witness :
  parse_fd_filter "!0,1" true
  = Some {| vec := [3]; nslots := 1; not := true |}
  /\ - 2 ^ 31 <= 2 < 2 ^ 31
  /\ is_fd_in_set (mk_tcb 0 (SEN_other 0) []) 2
       {| vec := [3]; nslots := 1; not := true |} = true.
Proof.
  assert (parse_fd_filter "!0,1" true
          = Some {| vec := [3]; nslots := 1; not := true |}) as Hp
    by (vm_compute; reflexivity).
  assert (- 2 ^ 31 <= 2 < 2 ^ 31) as Hfd
    by (split; [discriminate|reflexivity]).
  split; [exact Hp|]. split; [exact Hfd|].
  rewrite (fd_filter_matches _ _ _ (mk_tcb 0 (SEN_other 0) []) 2 Hp Hfd).
  vm_compute. reflexivity.
Defined.

Section SignalSetMembers.

Variable signame : Z -> string.

(** The signal set after [signal=...].  Whatever the set held before, a
    signal is then a member exactly when the text selects it and the text
    is not inverted, or neither. *)
Theorem qualify_signals_members (main_part : string)
    (signal_set set' : number_set) :
  number_set_wf signal_set ->
  qualify_signals signame main_part signal_set = Some set' ->
  forall n, 0 <= n ->
    is_number_in_set n set'
    = xorb (not (snd (stripped_spec main_part empty_number_set true)))
           (selects (sigstr_to_uint signame)
              (fst (stripped_spec main_part empty_number_set true)) n).
Proof.
  intros Hwf H n Hn. unfold qualify_signals in H.
  pose proof (clear_signal_set_zero signal_set Hwf) as (_ & Hnot & Hwf').
  rewrite (parse_set_from_no_bit _ _ _ _ _ Hwf' (no_bit_set_clear _ Hwf)
             H n Hn).
  pose proof (same_bits_skip_inversions main_part _ _
                (clear_signal_set_same_bits signal_set Hwf))
    as (Hfst & Hsnd & _).
  unfold stripped_spec. now rewrite Hfst, Hsnd.
Qed.

End SignalSetMembers.

Lemma qualify_signals_members_witness :
  number_set_wf {| vec := [0; 256]; nslots := 2; not := false |}
  /\ qualify_signals sample_signame "!INT,kill"
       {| vec := [0; 256]; nslots := 2; not := false |}
     = Some {| vec := [516; 0]; nslots := 2; not := true |}
  /\ 0 <= 9
  /\ is_number_in_set 9 {| vec := [516; 0]; nslots := 2; not := true |}
     = false.
Proof.
  assert (number_set_wf {| vec := [0; 256]; nslots := 2; not := false |})
    as Hwf by reflexivity.
  assert (qualify_signals sample_signame "!INT,kill"
            {| vec := [0; 256]; nslots := 2; not := false |}
          = Some {| vec := [516; 0]; nslots := 2; not := true |}) as Hq
    by (vm_compute; reflexivity).
  split; [exact Hwf|]. split; [exact Hq|]. split; [lia|].
  rewrite (qualify_signals_members sample_signame _ _ _ Hwf Hq 9) by lia.
  vm_compute. reflexivity.
Defined.

(** ** Fault syntax *)

Section FaultSyntax.

Variable signame : Z -> string.
Variable errnoent : list (option string).
Variable MAX_ERRNO_VALUE : Z.
Variable NSIG_BYTES : Z.
Variable INJECT_OPTS_RVAL_DEFAULT : Z.
Variable ENOSYS : Z.

Lemma parse_inject_token_fault (token : string) (o : inject_opts) :
  fault_opts_so_far INJECT_OPTS_RVAL_DEFAULT o ->
  fault_opts_so_far INJECT_OPTS_RVAL_DEFAULT
    (snd (parse_inject_token signame errnoent MAX_ERRNO_VALUE NSIG_BYTES
            INJECT_OPTS_RVAL_DEFAULT token o true)).
Proof.
  intros Ho. unfold parse_inject_token.
  destruct (STR_STRIP_PREFIX token "when=") as [val|].
  { destruct (string_to_uint_ex val 65535 "+") as [intval end_].
    destruct (intval <? 1); [exact Ho|].
    destruct end_ as [|e val']; [exact Ho|].
    destruct val' as [|c val'']; [exact Ho|].
    destruct (string_to_uint_upto (String c val'') 65535 <? 1); exact Ho. }
  destruct (STR_STRIP_PREFIX token "error=") as [val|]; [|exact Ho].
  destruct (negb (rval o =? INJECT_OPTS_RVAL_DEFAULT)); [exact Ho|].
  match goal with
  | |- context [if ?v <? 1 then _ else _] =>
      destruct (Z.ltb_spec v 1) as [Hlt|Hge]; [exact Ho|]
  end.
  destruct Ho as [Hs _]. split; [exact Hs|]. right.
  cbn [snd set_rval rval]. lia.
Qed.

Lemma parse_inject_tokens_fault (tokens : list string) (o : inject_opts) :
  fault_opts_so_far INJECT_OPTS_RVAL_DEFAULT o ->
  fault_opts_so_far INJECT_OPTS_RVAL_DEFAULT
    (snd (parse_inject_tokens signame errnoent MAX_ERRNO_VALUE NSIG_BYTES
            INJECT_OPTS_RVAL_DEFAULT tokens o true)).
Proof.
  revert o. induction tokens as [|token tokens IH]; intros o Ho;
    [exact Ho|].
  cbn [parse_inject_tokens].
  pose proof (parse_inject_token_fault token o Ho) as Ht.
  destruct (parse_inject_token _ _ _ _ _ token o true) as [[|] o'];
    cbn [snd] in *; [now apply IH|exact Ht].
Qed.

(** Fault syntax injects errors only: whatever the arguments, options
    that [parse_inject_common_args] accepts in fault syntax carry no
    signal and a negative return value. *)
Theorem fault_injects_errors_only (str : string) (qualify_mode : bool) :
  1 <= ENOSYS ->
  let opts :=
    parse_inject_common_args signame errnoent MAX_ERRNO_VALUE NSIG_BYTES
      INJECT_OPTS_RVAL_DEFAULT ENOSYS str true qualify_mode in
  init opts = true -> signo opts = 0 /\ rval opts < 0.
Proof.
  intros Hpos. cbv zeta. unfold parse_inject_common_args.
  pose proof (parse_inject_tokens_fault (inject_arg_tokens str qualify_mode)
                (inject_opts_default INJECT_OPTS_RVAL_DEFAULT)
                (conj eq_refl (or_introl eq_refl))) as Hf.
  pose proof (parse_inject_tokens_init signame errnoent MAX_ERRNO_VALUE
                NSIG_BYTES INJECT_OPTS_RVAL_DEFAULT
                (inject_arg_tokens str qualify_mode)
                (inject_opts_default INJECT_OPTS_RVAL_DEFAULT) true)
    as Hinit.
  destruct (parse_inject_tokens _ _ _ _ _ _ _ true) as [[|] o];
    cbn [snd] in *.
  - destruct Hf as [Hs Hr]. unfold inject_post_check. rewrite Hs.
    cbn [Z.eqb]. rewrite andb_true_r.
    destruct (Z.eqb_spec (rval o) INJECT_OPTS_RVAL_DEFAULT) as [He|Hne].
    + intros _. cbn. split; [exact Hs|lia].
    + intros _. cbn. split; [exact Hs|]. destruct Hr; [contradiction|lia].
  - rewrite Hinit. cbn. discriminate.
Qed.

End FaultSyntax.

Lemma fault_injects_errors_only_witness :
  1 <= sample_ENOSYS
  /\ init (parse_inject_common_args sample_signame sample_errnoent
             sample_MAX_ERRNO_VALUE sample_NSIG_BYTES sample_RVAL_DEFAULT
             sample_ENOSYS "when=2+:error=EIO" true true) = true
  /\ rval (parse_inject_common_args sample_signame sample_errnoent
             sample_MAX_ERRNO_VALUE sample_NSIG_BYTES sample_RVAL_DEFAULT
             sample_ENOSYS "when=2+:error=EIO" true true) < 0.
Proof.
  assert (1 <= sample_ENOSYS) as Hpos by (vm_compute; discriminate).
  assert (init (parse_inject_common_args sample_signame sample_errnoent
                  sample_MAX_ERRNO_VALUE sample_NSIG_BYTES
                  sample_RVAL_DEFAULT sample_ENOSYS "when=2+:error=EIO"
                  true true) = true) as Hinit by (vm_compute; reflexivity).
  split; [exact Hpos|]. split; [exact Hinit|].
  exact (proj2 (fault_injects_errors_only sample_signame sample_errnoent
                  sample_MAX_ERRNO_VALUE sample_NSIG_BYTES
                  sample_RVAL_DEFAULT sample_ENOSYS "when=2+:error=EIO"
                  true Hpos Hinit)).
Defined.
